(** * iff2gif: the pixel core (chunky.cpp, planar.cpp)

    A shallow embedding of the packed-pixel pipeline of iff2gif: the
    nearest-colour search, the error-diffusion kernels and engine, the
    Hold-And-Modify decoders, in-place pixel replication and the
    planar-to-chunky conversion.  C++ [int] is a 32-bit two's complement
    integer, written here as a [Z] with its wrap-around spelled out;
    [uint8_t] stores reduce modulo 256.  Buffers are lists indexed with
    stdpp's lookup and updated in place with insert/alter. *)

From stdpp Require Import base list numbers.
Local Open Scope Z_scope.

(** ** Machine integers *)

Definition INT_MAX : Z := 2147483647.

(** A 32-bit [int] result: the representative in [-2^31, 2^31). *)
Definition wrap32 (x : Z) : Z := (x + 2147483648) mod 4294967296 - 2147483648.

Definition iadd (a b : Z) : Z := wrap32 (a + b).
Definition isub (a b : Z) : Z := wrap32 (a - b).
Definition imul (a b : Z) : Z := wrap32 (a * b).
(** C++ division truncates toward zero. *)
Definition idiv (a b : Z) : Z := wrap32 (Z.quot a b).

(** A store into a [uint8_t]. *)
Definition u8 (x : Z) : Z := x mod 256.

Definition is_byte (x : Z) : Prop := 0 <= x < 256.

(** [std::clamp(v, lo, hi)]. *)
Definition clamp (v lo hi : Z) : Z :=
  if v <? lo then lo else if hi <? v then hi else v.

(** ** Colour registers *)

(** [struct ColorRegister { uint8_t red, green, blue; }] *)
Record ColorRegister := mkColor { red : Z; green : Z; blue : Z }.

Definition wf_color (c : ColorRegister) : Prop :=
  is_byte (red c) /\ is_byte (green c) /\ is_byte (blue c).

Definition wf_palette (pal : list ColorRegister) : Prop := Forall wf_color pal.

Global Instance ColorRegister_inhabited : Inhabited ColorRegister :=
  populate (mkColor 0 0 0).

(** [pal[i]]; the source never checks the index. *)
Definition pal_at (pal : list ColorRegister) (i : Z) : ColorRegister :=
  pal !!! Z.to_nat i.

(** ** NearestColor (chunky.cpp, 290-313) *)

(** The loop body's distance of the wanted colour to one palette entry. *)
Definition color_dist (p : ColorRegister) (r g b : Z) : Z :=
  let rmean := idiv (iadd r (red p)) 2 in
  let x := isub r (red p) in
  let y := isub g (green p) in
  let z := isub b (blue p) in
  iadd (iadd (imul (imul (iadd 512 rmean) x) x)
             (imul (imul 1024 y) y))
       (imul (imul (isub 767 rmean) z) z).

(** [for (color = ...; color < num; color++)] with [n] iterations left. *)
Fixpoint NearestColor_loop (pal : list ColorRegister) (r g b : Z)
    (n : nat) (color bestcolor bestdist : Z) : Z :=
  match n with
  | O => bestcolor
  | S n' =>
      let dist := color_dist (pal_at pal color) r g b in
      if dist <? bestdist then
        if dist =? 0 then color
        else NearestColor_loop pal r g b n' (color + 1) color dist
      else NearestColor_loop pal r g b n' (color + 1) bestcolor bestdist
  end.

Definition NearestColor (pal : list ColorRegister) (r g b first num : Z) : Z :=
  NearestColor_loop pal r g b (Z.to_nat (num - first)) first first INT_MAX.

(** The distance as the documentation writes it, over unbounded integers. *)
Definition redmean_dist (p : ColorRegister) (r g b : Z) : Z :=
  let rmean := (r + red p) / 2 in
  (512 + rmean) * (r - red p) ^ 2 + 1024 * (g - green p) ^ 2
  + (767 - rmean) * (b - blue p) ^ 2.

(** ** The error-diffusion kernels (chunky.cpp, 315-376) *)

(** [struct Diffuser { weight; struct { x, y } to[]; }].  The array [to]
    is stored whole, initialisers first and zero padding after them. *)
Record Diffuser := mkDiffuser { weight : Z; to : list (Z * Z) }.

(** Modelled from the spec: the declaration of [Diffuser] (iff2gif.h) is
    not among the sources; the spec calls [to] a small fixed-capacity list
    of offsets.  Six slots is the least capacity that holds the longest
    initialiser (Atkinson's). *)
Definition to_capacity : nat := 6.

(** Aggregate initialisation: the listed offsets, the rest zeroed. *)
Definition init_to (cap : nat) (l : list (Z * Z)) : list (Z * Z) :=
  take cap (l ++ replicate (cap - length l) (0, 0)).

Definition entry (w : Z) (l : list (Z * Z)) : Diffuser :=
  mkDiffuser w (init_to to_capacity l).

(** The terminating [{ 0 }]. *)
Definition sentinel : Diffuser := entry 0 [].

Definition FloydSteinberg : list Diffuser :=
  [ entry 28672 [(1, 0)];
    entry 12288 [(-1, 1)];
    entry 20480 [(0, 1)];
    entry 4096 [(1, 1)];
    sentinel ].

Definition JarvisJudiceNinke : list Diffuser :=
  [ entry 9557 [(1, 0); (0, 1)];
    entry 6826 [(2, 0); (-1, 1); (1, 1); (0, 2)];
    entry 4096 [(-2, 1); (2, 1); (-1, 2); (1, 2)];
    entry 1365 [(-2, 2); (2, 2)];
    sentinel ].

Definition Stucki : list Diffuser :=
  [ entry 12483 [(1, 0); (0, 1)];
    entry 6241 [(2, 0); (-1, 1); (1, 1); (0, 2)];
    entry 3120 [(-2, 1); (2, 1); (-1, 2); (1, 2)];
    entry 1560 [(-2, 2); (2, 2)];
    sentinel ].

Definition Atkinson : list Diffuser :=
  [ entry 8192 [(1, 0); (2, 0); (-1, 1); (0, 1); (1, 1); (0, 2)];
    sentinel ].

Definition Burkes : list Diffuser :=
  [ entry 16384 [(1, 0); (0, 1)];
    entry 8192 [(2, 0); (-1, 1); (1, 1)];
    entry 4096 [(-2, 1); (2, 1)];
    sentinel ].

Definition Sierra3 : list Diffuser :=
  [ entry 10240 [(1, 0); (0, 1)];
    entry 8192 [(-1, 1); (1, 1)];
    entry 6144 [(2, 0); (0, 2)];
    entry 4096 [(-2, 1); (2, 1); (-1, 2); (1, 2)];
    sentinel ].

Definition Sierra2 : list Diffuser :=
  [ entry 16384 [(1, 0)];
    entry 12288 [(2, 0); (0, 1)];
    entry 8192 [(-1, 1); (1, 1)];
    entry 4096 [(-2, 1); (2, 1)];
    sentinel ].

Definition SierraLite : list Diffuser :=
  [ entry 32768 [(1, 0)];
    entry 16384 [(-1, 1); (0, 1)];
    sentinel ].

Definition ErrorDiffusionKernels : list (list Diffuser) :=
  [ FloydSteinberg; JarvisJudiceNinke; Stucki; Burkes;
    Atkinson; Sierra3; Sierra2; SierraLite ].

(** The entries the weight loop walks: everything before the first zero
    weight ([for (i = 0; kernel[i].weight != 0; ++i)]). *)
Fixpoint kernel_entries (k : list Diffuser) : list Diffuser :=
  match k with
  | [] => []
  | d :: k' => if weight d =? 0 then [] else d :: kernel_entries k'
  end.

(** The offsets the target loop walks in one entry:
    [for (j = 0; j < countof(to) && to[j].x | to[j].y; ++j)]. *)
Fixpoint walk_targets (ts : list (Z * Z)) : list (Z * Z) :=
  match ts with
  | [] => []
  | t :: ts' => if Z.lor t.1 t.2 =? 0 then [] else t :: walk_targets ts'
  end.

Definition entry_targets (d : Diffuser) : list (Z * Z) := walk_targets (to d).

(** Entry weight times its number of targets, summed over the kernel. *)
Definition kernel_total (k : list Diffuser) : Z :=
  foldr (fun d acc => weight d * Z.of_nat (length (entry_targets d)) + acc)
        0 (kernel_entries k).

(** ** Chunky bitmaps (chunky.cpp, 24-127) *)

(** [Pixels] is the byte buffer the object owns. *)
Record ChunkyBitmap := mkChunky {
  Width : Z;
  Height : Z;
  Pitch : Z;
  BytesPerPixel : Z;
  Pixels : list Z
}.

Section Storage.
(** What [new uint8_t[n]] hands out: storage the program has not
    written yet, with whatever contents it happens to have. *)
Variable uninit : nat -> Z.

Definition new_bytes (n : Z) : list Z := uninit <$> seq 0 (Z.to_nat n).

(** [ChunkyBitmap::Alloc]; a failed [assert] is [None].  [Pitch] and
    the byte count are the exact products; they are the source's [int]
    values where those fit, which is what [alloc_fits] below says. *)
Definition Alloc (w h bpp : Z) : option ChunkyBitmap :=
  guard (w ≠ 0);;
  guard (h ≠ 0);;
  guard (bpp = 1 ∨ bpp = 2 ∨ bpp = 4);;
  Some (mkChunky w h (w * bpp) bpp (new_bytes (w * bpp * h))).

(** *** Hold-And-Modify (chunky.cpp, 232-288) *)

Definition set_red (c : ColorRegister) (v : Z) := mkColor v (green c) (blue c).
Definition set_green (c : ColorRegister) (v : Z) := mkColor (red c) v (blue c).
Definition set_blue (c : ColorRegister) (v : Z) := mkColor (red c) (green c) v.

(** The body of the HAM6 loop up to the stores: the new running colour. *)
Definition ham6_pixel (pal : list ColorRegister) (color : ColorRegister)
    (s : Z) : ColorRegister :=
  let intensity := Z.land s 0x0F in
  let intensity := u8 (Z.lor intensity (Z.shiftl intensity 4)) in
  let mode := Z.land s 0xF0 in
  if mode =? 0x00 then pal_at pal s
  else if mode =? 0x10 then set_blue color intensity
  else if mode =? 0x20 then set_red color intensity
  else if mode =? 0x30 then set_green color intensity
  else color.

Definition ham8_pixel (pal : list ColorRegister) (color : ColorRegister)
    (s : Z) : ColorRegister :=
  let intensity := Z.land s 0x3F in
  let intensity := u8 (Z.lor (Z.shiftl intensity 2) (Z.shiftr intensity 4)) in
  let mode := Z.land s 0xC0 in
  if mode =? 0x00 then pal_at pal s
  else if mode =? 0x40 then set_blue color intensity
  else if mode =? 0x80 then set_red color intensity
  else if mode =? 0xC0 then set_green color intensity
  else color.

(** [dest[0] = color.red; ... dest[3] = 0xFF]. *)
Definition store_rgba (out : list Z) (dest : nat) (c : ColorRegister) : list Z :=
  <[(dest + 3)%nat := 0xFF]>
    (<[(dest + 2)%nat := blue c]>
       (<[(dest + 1)%nat := green c]> (<[dest := red c]> out))).

(** [for (i = Width * Height; i > 0; --i, ++src, dest += 4)], with [n]
    iterations left; [step] is the loop body of either decoder. *)
Fixpoint HAM_loop (step : ColorRegister -> Z -> ColorRegister)
    (inp : list Z) (n : nat) (src dest : nat) (color : ColorRegister)
    (out : list Z) : list Z :=
  match n with
  | O => out
  | S n' =>
      let color' := step color (inp !!! src) in
      HAM_loop step inp n' (S src) (dest + 4)%nat color'
               (store_rgba out dest color')
  end.

Definition HAMtoRGB (step : list ColorRegister -> ColorRegister -> Z -> ColorRegister)
    (minpal : nat) (bm : ChunkyBitmap) (pal : list ColorRegister)
    : option ChunkyBitmap :=
  guard (minpal ≤ length pal)%nat;;
  guard (BytesPerPixel bm = 1);;
  out ← Alloc (Width bm) (Height bm) 4;
  Some (mkChunky (Width out) (Height out) (Pitch out) (BytesPerPixel out)
          (HAM_loop (step pal) (Pixels bm)
             (Z.to_nat (Width bm * Height bm)) 0 0 (pal_at pal 0)
             (Pixels out))).

Definition HAM6toRGB := HAMtoRGB ham6_pixel 16.
Definition HAM8toRGB := HAMtoRGB ham8_pixel 64.

(** *** Palette mapping (chunky.cpp, 378-471) *)

(** [for (i = Width * Height; i > 0; --i) { *dest++ = ...; src += 4; }] *)
Fixpoint BasicQuantize_loop (pal : list ColorRegister) (inp : list Z)
    (n : nat) (src dest : nat) (out : list Z) : list Z :=
  match n with
  | O => out
  | S n' =>
      let c := NearestColor pal (inp !!! src) (inp !!! (src + 1)%nat)
                 (inp !!! (src + 2)%nat) 0 (Z.of_nat (length pal)) in
      BasicQuantize_loop pal inp n' (src + 4)%nat (S dest)
        (<[dest := u8 c]> out)
  end.

Definition with_pixels (bm : ChunkyBitmap) (px : list Z) : ChunkyBitmap :=
  mkChunky (Width bm) (Height bm) (Pitch bm) (BytesPerPixel bm) px.

Definition RGB2P_BasicQuantize (bm out : ChunkyBitmap)
    (pal : list ColorRegister) : option ChunkyBitmap :=
  guard (Width out = Width bm ∧ Height out = Height bm ∧ BytesPerPixel out = 1);;
  guard (BytesPerPixel bm = 4);;
  Some (with_pixels out
          (BasicQuantize_loop pal (Pixels bm)
             (Z.to_nat (Width bm * Height bm)) 0 0 (Pixels out))).

(** One [std::array<int, 3>] of accumulated error. *)
Definition ErrCell : Type := Z * Z * Z.

Definition cell_add (rw gw bw : Z) (c : ErrCell) : ErrCell :=
  (iadd c.1.1 rw, iadd c.1.2 gw, iadd c.2 bw).

(** [error[y][xx][0] += rw; ...].  [error] has three rows; an index
    outside them is outside the array and no write is modelled. *)
Definition add_error (e : list (list ErrCell)) (y xx rw gw bw : Z)
    : list (list ErrCell) :=
  if decide (0 ≤ y < 3) then
    alter (alter (cell_add rw gw bw) (Z.to_nat xx)) (Z.to_nat y) e
  else e.

(** The target loop; the list is the whole array [to], so its end is
    [j < countof(kernel[i].to)]. *)
Fixpoint diffuse_targets (W x rw gw bw : Z) (ts : list (Z * Z))
    (e : list (list ErrCell)) : list (list ErrCell) :=
  match ts with
  | [] => e
  | t :: ts' =>
      if Z.lor t.1 t.2 =? 0 then e
      else
        let xx := iadd x t.1 in
        diffuse_targets W x rw gw bw ts'
          (if decide (0 ≤ xx ∧ xx < W) then add_error e t.2 xx rw gw bw
           else e)
  end.

(** The weight loop. *)
Fixpoint diffuse_kernel (W x r g b : Z) (k : list Diffuser)
    (e : list (list ErrCell)) : list (list ErrCell) :=
  match k with
  | [] => e
  | d :: k' =>
      if weight d =? 0 then e
      else
        let rw := imul r (weight d) in
        let gw := imul g (weight d) in
        let bw := imul b (weight d) in
        diffuse_kernel W x r g b k'
          (diffuse_targets W x rw gw bw (to d) e)
  end.

Definition err_at (e : list (list ErrCell)) (y x : nat) : ErrCell :=
  (e !!! y) !!! x.

(** The colour looked up for the pixel at [src], column [x]. *)
Definition wanted (inp : list Z) (src : nat) (e : list (list ErrCell))
    (x : Z) : Z * Z * Z :=
  let a := err_at e 0 (Z.to_nat x) in
  (clamp (iadd (inp !!! src) (idiv a.1.1 65536)) 0 255,
   clamp (iadd (inp !!! (src + 1)%nat) (idiv a.1.2 65536)) 0 255,
   clamp (iadd (inp !!! (src + 2)%nat) (idiv a.2 65536)) 0 255).

(** The body of the column loop. *)
Definition diffuse_pixel (pal : list ColorRegister) (kernel : list Diffuser)
    (W : Z) (inp : list Z) (src dest : nat) (x : Z)
    (st : list Z * list (list ErrCell)) : list Z * list (list ErrCell) :=
  let '(r, g, b) := wanted inp src st.2 x in
  let c := NearestColor pal r g b 0 (Z.of_nat (length pal)) in
  let out := <[(dest + Z.to_nat x)%nat := u8 c]> st.1 in
  let r := isub r (red (pal_at pal c)) in
  let g := isub g (green (pal_at pal c)) in
  let b := isub b (blue (pal_at pal c)) in
  (out, diffuse_kernel W x r g b kernel st.2).

(** [for (x = ...; x < Width; ++x, src += 4)] with [n] iterations left. *)
Fixpoint diffuse_row (pal : list ColorRegister) (kernel : list Diffuser)
    (W : Z) (inp : list Z) (n : nat) (src dest : nat) (x : Z)
    (st : list Z * list (list ErrCell)) : list Z * list (list ErrCell) :=
  match n with
  | O => st
  | S n' =>
      diffuse_row pal kernel W inp n' (src + 4)%nat dest (x + 1)
        (diffuse_pixel pal kernel W inp src dest x st)
  end.

(** The two swaps and the fill that close a row. *)
Definition rotate_error (e : list (list ErrCell)) : list (list ErrCell) :=
  match e with
  | [e0; e1; e2] => [e1; e2; replicate (length e0) (0, 0, 0)]
  | _ => e
  end.

(** [for (y = Height; y > 0; --y, dest += Width)] with [n] rows left. *)
Fixpoint diffuse_image (pal : list ColorRegister) (kernel : list Diffuser)
    (W : Z) (inp : list Z) (n : nat) (src dest : nat)
    (st : list Z * list (list ErrCell)) : list Z * list (list ErrCell) :=
  match n with
  | O => st
  | S n' =>
      let st' := diffuse_row pal kernel W inp (Z.to_nat W) src dest 0 st in
      diffuse_image pal kernel W inp n' (src + 4 * Z.to_nat W)%nat
        (dest + Z.to_nat W)%nat (st'.1, rotate_error st'.2)
  end.

Definition RGB2P_ErrorDiffusion (bm out : ChunkyBitmap)
    (pal : list ColorRegister) (kernel : list Diffuser)
    : option ChunkyBitmap :=
  guard (Width out = Width bm ∧ Height out = Height bm ∧ BytesPerPixel out = 1);;
  guard (BytesPerPixel bm = 4);;
  let error := replicate 3 (replicate (Z.to_nat (Width bm)) (0, 0, 0)) in
  Some (with_pixels out
          (diffuse_image pal kernel (Width bm) (Pixels bm)
             (Z.to_nat (Height bm)) 0 0 (Pixels out, error)).1).

(** [ChunkyBitmap out(Width, Height)] relies on the constructor's
    default pixel size, declared in the missing header; both converters
    assert that it is one byte. *)
Definition RGBtoPalette (bm : ChunkyBitmap) (pal : list ColorRegister)
    (dithermode : Z) : option ChunkyBitmap :=
  out ← Alloc (Width bm) (Height bm) 1;
  if decide (dithermode ≤ 0
             ∨ dithermode > Z.of_nat (length ErrorDiffusionKernels))
  then RGB2P_BasicQuantize bm out pal
  else RGB2P_ErrorDiffusion bm out pal
         (ErrorDiffusionKernels !!! Z.to_nat (dithermode - 1)).
End Storage.

(** ** Pointers into a buffer *)

Section Pointers.
Context {T : Type} `{Inhabited T}.

(** [*p = v] and [*p] for a pointer [p] elements past the start of the
    buffer.  Nothing is modelled for an access before the buffer. *)
Definition poke (buf : list T) (p : Z) (v : T) : list T :=
  if decide (0 ≤ p) then <[Z.to_nat p := v]> buf else buf.

Definition peek (buf : list T) (p : Z) : T :=
  if decide (0 ≤ p) then buf !!! Z.to_nat p else inhabitant.

(** [memcpy(dst, src, n * sizeof(T))] inside one buffer. *)
Definition memcpy (buf : list T) (dst src : Z) (n : nat) : list T :=
  if decide (0 ≤ dst ∧ 0 ≤ src)
  then list_inserts (Z.to_nat dst) (take n (drop (Z.to_nat src) buf)) buf
  else buf.
End Pointers.

(** ** Expand (chunky.cpp, 129-230) *)

(** [Expand1], [Expand2] and [Expand4] are one text at the element types
    [uint8_t], [uint16_t] and [uint32_t]; [ExpandT] is that text at [T].
    Pointers count elements; [n] is [Pitch] in elements. *)
Section ExpandT.
Context {T : Type} `{Inhabited T}.
Variables (W : Z) (n : nat) (scalex scaley srcwidth : Z).

(** [for (xx = scalex; xx > 0; --xx) *--dest = src[sx];] *)
Fixpoint expand_pixel (xx : nat) (from dest : Z) (buf : list T)
    : Z * list T :=
  match xx with
  | O => (dest, buf)
  | S xx' =>
      expand_pixel xx' from (dest - 1) (poke buf (dest - 1) (peek buf from))
  end.

(** [for (sx = srcwidth - 1; sx >= 0; --sx)], [sx] columns left. *)
Fixpoint expand_line (sx : nat) (src dest : Z) (buf : list T)
    : Z * list T :=
  match sx with
  | O => (dest, buf)
  | S sx' =>
      let r := expand_pixel (Z.to_nat scalex) (src + Z.of_nat sx') dest buf in
      expand_line sx' src r.1 r.2
  end.

(** [for (; yy > 0; --yy, dest -= Width) memcpy(dest - Width, ysrc, Pitch);] *)
Fixpoint copy_lines (yy : nat) (ysrc dest : Z) (buf : list T)
    : Z * list T :=
  match yy with
  | O => (dest, buf)
  | S yy' =>
      copy_lines yy' ysrc (dest - W) (memcpy buf (dest - W) ysrc n)
  end.

(** The body of the row loop. *)
Definition expand_row (src dest : Z) (buf : list T) : Z * list T :=
  if decide (scalex ≠ 1) then
    let r := expand_line (Z.to_nat srcwidth) src dest buf in
    copy_lines (Z.to_nat (scaley - 1)) r.1 r.1 r.2
  else copy_lines (Z.to_nat scaley) src dest buf.

(** [for (sy = srcheight; sy > 0; --sy, src -= Width)], [sy] rows left. *)
Fixpoint ExpandT (sy : nat) (src dest : Z) (buf : list T) : list T :=
  match sy with
  | O => buf
  | S sy' =>
      let r := expand_row src dest buf in
      ExpandT sy' (src - W) r.1 r.2
  end.
End ExpandT.

(** The byte buffer seen through a pointer to [k]-byte elements, and back. *)
Definition as_elems (k : nat) (bytes : list Z) : list (list Z) :=
  reshape (replicate (length bytes `div` k) k) bytes.

Definition of_elems (k : nat) (bytes : list Z) (els : list (list Z)) : list Z :=
  mjoin els ++ drop (length bytes `div` k * k) bytes.

Definition Expand (scalex scaley : Z) (bm : ChunkyBitmap) : ChunkyBitmap :=
  if decide (scalex = 1 ∧ scaley = 1) then bm
  else
    let srcwidth := Width bm `quot` scalex in
    let srcheight := Height bm `quot` scaley in
    let src := (srcheight - 1) * Pitch bm in
    let dest := Height bm * Pitch bm in
    let k := BytesPerPixel bm in
    if decide (k = 1) then
      with_pixels bm
        (ExpandT (Width bm) (Z.to_nat (Pitch bm)) scalex scaley srcwidth
           (Z.to_nat srcheight) src dest (Pixels bm))
    else if decide (k = 2 ∨ k = 4) then
      with_pixels bm
        (of_elems (Z.to_nat k) (Pixels bm)
           (ExpandT (Width bm) (Z.to_nat (Pitch bm `quot` k)) scalex scaley
              srcwidth (Z.to_nat srcheight) (src `quot` k) (dest `quot` k)
              (as_elems (Z.to_nat k) (Pixels bm))))
    else bm.

(** ** Planar bitmaps (planar.cpp) *)

Module Planar.
(** [Planes[i]] is kept as the offset of the plane in [PlaneData],
    [None] for the null pointer. *)
Record PlanarBitmap := mkPlanar {
  Width : Z;
  Height : Z;
  Pitch : Z;
  NumPlanes : Z;
  PlaneData : list Z;
  Planes : list (option Z)
}.

(** [PlanarBitmap::PlanarBitmap(w, h, nPlanes)]; the pitch and the byte
    count are the exact values, the source's where they fit [int]. *)
Definition new (w h nPlanes : Z) : option PlanarBitmap :=
  guard (0 ≤ nPlanes ∧ nPlanes < 32);;
  let pitch := ((w + 15) `quot` 16) * 2 in
  let realplanes := Z.max nPlanes 8 in
  Some (mkPlanar w h pitch nPlanes
          (replicate (Z.to_nat (pitch * h * realplanes)) 0)
          ((λ i, if decide (i < nPlanes) then Some (pitch * h * i) else None)
             <$> seqZ 0 32)).

(** [memset(Planes[plane], -(uint8_t)set, Pitch * Height)] *)
Definition FillBitplane (pb : PlanarBitmap) (plane : Z) (set : bool)
    : option PlanarBitmap :=
  guard (0 ≤ plane ∧ plane < NumPlanes pb);;
  p ← Planes pb !! Z.to_nat plane;
  off ← p;
  Some (mkPlanar (Width pb) (Height pb) (Pitch pb) (NumPlanes pb)
          (list_inserts (Z.to_nat off)
             (replicate (Z.to_nat (Pitch pb * Height pb))
                (if set then 0xFF else 0))
             (PlaneData pb))
          (Planes pb)).

(** [Planes[i][byte]] *)
Definition plane_byte (pb : PlanarBitmap) (i byte : Z) : Z :=
  match Planes pb !! Z.to_nat i with
  | Some (Some off) => peek (PlaneData pb) (off + byte)
  | _ => 0
  end.

(** [for (i = NumPlanes - 1; i >= 0; --i)
       pixel = (pixel << 1) | ((Planes[i][byte] >> bit) & 1);]
    with [i] planes left; [bits] is the width of [pixel]. *)
Fixpoint gather (pb : PlanarBitmap) (bits : Z) (byte bit : Z) (i : nat)
    (pixel : Z) : Z :=
  match i with
  | O => pixel
  | S i' =>
      gather pb bits byte bit i'
        (Z.lor (Z.shiftl pixel 1)
               (Z.land (Z.shiftr (plane_byte pb (Z.of_nat i') byte) bit) 1)
         `mod` 2 ^ bits)
  end.

(** The bit-serial column loop, [n] columns left:
    [for (...; x < Width; ++x) { ...; *out++ = pixel; }].  [byte] gives
    the source byte of a column. *)
Fixpoint serial_pixels (pb : PlanarBitmap) (bits : Z) (byte : Z -> Z)
    (n : nat) (x out : Z) (dest : list Z) : Z * list Z :=
  match n with
  | O => (out, dest)
  | S n' =>
      let bit := 7 - Z.land x 7 in
      let pixel := gather pb bits (byte x) bit (Z.to_nat (NumPlanes pb)) 0 in
      serial_pixels pb bits byte n' (x + 1) (out + 1) (poke dest out pixel)
  end.

(** Modelled from the spec: output byte [j] of the byte transpose that
    [rotate8x8] performs.  It collects bit [7 - j] of the eight source
    bytes, the byte of source row [i] at bit [i], which is what the
    bit-serial method assembles over eight planes. *)
Definition transposed (srcbuf : list Z) (src srcstep : Z) (j : Z) : Z :=
  foldr (λ i acc,
           Z.lor (Z.shiftl acc 1)
                 (Z.land (Z.shiftr (peek srcbuf (src + i * srcstep)) (7 - j)) 1))
        0 (seqZ 0 8).

(** Modelled from the spec: [rotate8x8] is defined in a file that is not
    among the sources.  The spec has it process eight horizontally
    adjacent pixels of one group of eight source bit-columns at once, by
    a byte transpose equivalent to the bit-serial method.  Source rows
    are [srcstep] bytes apart, output bytes [dststep] apart. *)
Definition rotate8x8 (srcbuf : list Z) (src srcstep : Z) (dst : list Z)
    (dstp dststep : Z) : list Z :=
  foldl (λ d j, poke d (dstp + j * dststep) (transposed srcbuf src srcstep j))
        dst (seqZ 0 8).

(** [for (x = 0; x < Width >> 3; ++x, out += 8) rotate8x8(...)] *)
Fixpoint fast_groups (pb : PlanarBitmap) (n : nat) (inp x out : Z)
    (dest : list Z) : Z * list Z :=
  match n with
  | O => (out, dest)
  | S n' =>
      fast_groups pb n' inp (x + 1) (out + 8)
        (rotate8x8 (PlaneData pb) (inp + x) (Pitch pb * Height pb) dest out 1)
  end.

(** The row loop of the branch for one to eight planes. *)
Fixpoint chunky8_rows (pb : PlanarBitmap) (destextrawidth : Z) (n : nat)
    (inp out : Z) (dest : list Z) : list Z :=
  match n with
  | O => dest
  | S n' =>
      let groups := Z.to_nat (Z.shiftr (Width pb) 3) in
      let r := fast_groups pb groups inp 0 out dest in
      let x := Z.of_nat groups in
      let byte := inp + x in
      let x := Z.shiftl x 3 in
      let r := serial_pixels pb 8 (λ _, byte) (Z.to_nat (Width pb - x)) x
                 r.1 r.2 in
      chunky8_rows pb destextrawidth n' (inp + Pitch pb)
        (r.1 + destextrawidth) r.2
  end.

(** The row loop of the two wider branches, and of the disabled
    bit-serial text for one to eight planes. *)
Fixpoint serial_rows (pb : PlanarBitmap) (bits : Z) (destextrawidth : Z)
    (n : nat) (inp out : Z) (dest : list Z) : list Z :=
  match n with
  | O => dest
  | S n' =>
      let r := serial_pixels pb bits (λ x, inp + Z.shiftr x 3)
                 (Z.to_nat (Width pb)) 0 out dest in
      serial_rows pb bits destextrawidth n' (inp + Pitch pb)
        (r.1 + destextrawidth) r.2
  end.

(** [PlanarBitmap::ToChunky]; [dest] is an array of the element type the
    plane count selects. *)
Definition ToChunky (pb : PlanarBitmap) (dest : list Z)
    (destextrawidth : Z) : list Z :=
  if decide (NumPlanes pb ≤ 0) then dest
  else if decide (NumPlanes pb ≤ 8) then
    chunky8_rows pb destextrawidth (Z.to_nat (Height pb)) 0 0 dest
  else if decide (NumPlanes pb ≤ 16) then
    serial_rows pb 16 destextrawidth (Z.to_nat (Height pb)) 0 0 dest
  else
    serial_rows pb 32 destextrawidth (Z.to_nat (Height pb)) 0 0 dest.

(** The bit-serial method applied to every column of a bitmap of one to
    eight planes. *)
Definition ToChunky_serial (pb : PlanarBitmap) (dest : list Z)
    (destextrawidth : Z) : list Z :=
  serial_rows pb 8 destextrawidth (Z.to_nat (Height pb)) 0 0 dest.
End Planar.

(** ** Specification vocabulary *)

(** [c] is the first slot of [first, hi) at the least distance [d]. *)
Definition best_of (d : Z -> Z) (first hi c : Z) : Prop :=
  first <= c < hi
  /\ (forall k, first <= k < hi -> d c <= d k)
  /\ (forall k, first <= k < c -> d c < d k).

(** What the scan knows on entering slot [color]. *)
Definition scan_inv (d : Z -> Z) (first color bc bd : Z) : Prop :=
  (color = first /\ bc = first /\ bd = INT_MAX)
  \/ (best_of d first color bc /\ bd = d bc /\ 0 < bd).

(** NearestColor applied to source pixel [i] of a 4-byte/pixel buffer on
    its own. *)
Definition pixel_nearest (pal : list ColorRegister) (inp : list Z) (i : nat)
    : Z :=
  NearestColor pal (inp !!! (4 * i)%nat) (inp !!! (4 * i + 1)%nat)
    (inp !!! (4 * i + 2)%nat) 0 (Z.of_nat (length pal)).

(** The summed weight a kernel sends to the cell at offset [(dx, dy)]. *)
Definition weight_to (k : list Diffuser) (dx dy : Z) : Z :=
  foldr (λ d acc,
           weight d
           * Z.of_nat (length (filter (λ t, t = (dx, dy)) (entry_targets d)))
           + acc)
        0 (kernel_entries k).

(** [c] with [d] added channel by channel in [int] arithmetic. *)
Definition cell_plus (c : ErrCell) (d : Z * Z * Z) : ErrCell :=
  (wrap32 (c.1.1 + d.1.1), wrap32 (c.1.2 + d.1.2), wrap32 (c.2 + d.2)).

Definition is_int (x : Z) : Prop := -2147483648 <= x < 2147483648.

Definition wf_cell (c : ErrCell) : Prop :=
  is_int c.1.1 /\ is_int c.1.2 /\ is_int c.2.

(** The error window as the engine keeps it: three rows of [W] cells of
    [int]s. *)
Definition wf_error (W : Z) (e : list (list ErrCell)) : Prop :=
  length e = 3%nat
  /\ Forall (λ row, length row = Z.to_nat W /\ Forall wf_cell row) e.

(** Offsets are [int8_t] pairs. *)
Definition wf_kernel (k : list Diffuser) : Prop :=
  Forall (λ d, Forall (λ t : Z * Z, -128 <= t.1 <= 127 /\ -128 <= t.2 <= 127)
                      (to d)) k.

(** The first [m] slots of [out] hold values satisfying [P]. *)
Definition filled (P : Z -> Prop) (m : nat) (out : list Z) : Prop :=
  forall i, (i < m)%nat -> exists v, out !! i = Some v /\ P v.



(** The running colour after each byte of [l] in turn, starting from [c]. *)
Fixpoint running (step : ColorRegister -> Z -> ColorRegister)
    (c : ColorRegister) (l : list Z) : list ColorRegister :=
  match l with
  | [] => []
  | s :: l' => step c s :: running step (step c s) l'
  end.

(** An opaque 4-byte pixel. *)
Definition rgba (c : ColorRegister) : list Z := [red c; green c; blue c; 0xFF].

(** The 4-byte pixel [i] of a buffer. *)
Definition pixel4 (px : list Z) (i : nat) : list Z := take 4 (drop (4 * i) px).

(** What a read through the pointer [p] finds; nothing outside the buffer. *)
Definition deref {T : Type} (buf : list T) (p : Z) : option T :=
  if decide (0 ≤ p) then buf !! Z.to_nat p else None.

(** Pixel [(x, y)] of a chunky bitmap: its [BytesPerPixel] bytes. *)
Definition pixel (bm : ChunkyBitmap) (x y : Z) : list Z :=
  take (Z.to_nat (BytesPerPixel bm))
       (drop (Z.to_nat ((y * Width bm + x) * BytesPerPixel bm)) (Pixels bm)).

(** A planar bitmap as the constructor lays it out: planes of
    [Pitch * Height] bytes one after another, at least eight of them,
    [Planes[i]] pointing at plane [i] for [i < NumPlanes], and the planes
    that are allocated but not used still zero. *)
Definition wf_planar (pb : Planar.PlanarBitmap) : Prop :=
  let size := Planar.Pitch pb * Planar.Height pb in
  0 <= Planar.Width pb /\ 0 <= Planar.Height pb
  /\ Planar.Pitch pb = (Planar.Width pb + 15) `quot` 16 * 2
  /\ 0 <= Planar.NumPlanes pb < 32
  /\ length (Planar.PlaneData pb)
     = Z.to_nat (size * Z.max (Planar.NumPlanes pb) 8)
  /\ Forall (λ i, Planar.Planes pb !! Z.to_nat i = Some (Some (size * i)))
            (seqZ 0 (Planar.NumPlanes pb))
  /\ Forall (λ b, b = 0)
            (drop (Z.to_nat (size * Planar.NumPlanes pb)) (Planar.PlaneData pb)).

(** The sample of plane [i] for the pixel at [(x, y)]: bit [7 - x mod 8]
    of the plane's byte at offset [y * Pitch + x / 8]. *)
Definition plane_sample (pb : Planar.PlanarBitmap) (i x y : Z) : bool :=
  Z.testbit
    (Planar.PlaneData pb
     !!! Z.to_nat (i * (Planar.Pitch pb * Planar.Height pb)
                   + y * Planar.Pitch pb + x `div` 8))
    (7 - x `mod` 8).

(** The sizes the bitmap constructor computes are [int]s (chunky.cpp
    51-52): [Pitch = Width * BytesPerPixel], and the byte count
    [Pitch * Height] it hands to [new].  [alloc_fits w h bpp] says that
    both products are exact in [int] and that the count is one [new] can
    be asked for; outside it the constructor overflows or throws. *)
Definition alloc_fits (w h bpp : Z) : Prop :=
  is_int (w * bpp) /\ 0 <= w * bpp * h <= INT_MAX.

(** ** More of planar.cpp *)

(** [PlanarBitmap::PlanarBitmap(const PlanarBitmap &o)] on the fields of
    the record: the whole buffer is copied first, then plane by plane the
    bytes [o.Planes[i]] points at, to the place the constructor gives plane
    [i].  A null [o.Planes[i]] stays null. *)
Definition copy_plane (o : Planar.PlanarBitmap)
    (acc : list Z * list (option Z)) (i : Z) : list Z * list (option Z) :=
  let size := Planar.Pitch o * Planar.Height o in
  match Planar.Planes o !! Z.to_nat i with
  | Some (Some off) =>
      (list_inserts (Z.to_nat (size * i))
         (take (Z.to_nat size) (drop (Z.to_nat off) (Planar.PlaneData o)))
         acc.1,
       acc.2 ++ [Some (size * i)])
  | _ => (acc.1, acc.2 ++ [None])
  end.

Definition PlanarBitmap_copy (uninit : nat -> Z) (o : Planar.PlanarBitmap)
    : Planar.PlanarBitmap :=
  let size := Planar.Pitch o * Planar.Height o in
  let realplanes := Z.max (Planar.NumPlanes o) 8 in
  let data :=
    list_inserts 0
      (take (Z.to_nat (size * realplanes)) (Planar.PlaneData o))
      (new_bytes uninit (size * realplanes)) in
  let r := foldl (copy_plane o) (data, []) (seqZ 0 32) in
  Planar.mkPlanar (Planar.Width o) (Planar.Height o) (Planar.Pitch o)
    (Planar.NumPlanes o) r.1 r.2.

(** The plane pointers as the constructor sets them: plane [i] at
    [Pitch * Height * i] for [i < NumPlanes], null from there on. *)
Definition planes_layout (pb : Planar.PlanarBitmap) : Prop :=
  Planar.Planes pb
  = (λ i, if decide (i < Planar.NumPlanes pb)
          then Some (Planar.Pitch pb * Planar.Height pb * i) else None)
    <$> seqZ 0 32.

(** A cell of the destination that holds a pixel: column [x] of row [y],
    rows being [Width + destextrawidth] cells apart. *)
Definition pixel_cell (pb : Planar.PlanarBitmap) (destextrawidth : Z)
    (k : nat) : Prop :=
  exists x y, 0 <= x < Planar.Width pb /\ 0 <= y < Planar.Height pb
    /\ k = Z.to_nat (y * (Planar.Width pb + destextrawidth) + x).

(** ** More of chunky.cpp: filling and the constructors *)

(** The two wider branches of [ToChunky] store [uint16_t] and [uint32_t]
    elements.  [serial_pixels_as] and [serial_rows_as] are the loops of
    [Planar.serial_pixels] and [Planar.serial_rows] with the destination an
    array of [T], [enc] turning a pixel value into the element stored. *)
Section ToChunkyAs.
Context {T : Type} `{Inhabited T}.
Variable enc : Z -> T.

Fixpoint serial_pixels_as (pb : Planar.PlanarBitmap) (bits : Z)
    (byte : Z -> Z) (n : nat) (x out : Z) (dest : list T) : Z * list T :=
  match n with
  | O => (out, dest)
  | S n' =>
      let bit := 7 - Z.land x 7 in
      let pixel :=
        Planar.gather pb bits (byte x) bit
          (Z.to_nat (Planar.NumPlanes pb)) 0 in
      serial_pixels_as pb bits byte n' (x + 1) (out + 1)
        (poke dest out (enc pixel))
  end.

Fixpoint serial_rows_as (pb : Planar.PlanarBitmap) (bits : Z)
    (destextrawidth : Z) (n : nat) (inp out : Z) (dest : list T)
    : list T :=
  match n with
  | O => dest
  | S n' =>
      let r := serial_pixels_as pb bits (λ x, inp + Z.shiftr x 3)
                 (Z.to_nat (Planar.Width pb)) 0 out dest in
      serial_rows_as pb bits destextrawidth n' (inp + Planar.Pitch pb)
        (r.1 + destextrawidth) r.2
  end.
End ToChunkyAs.

Section Elements.
Variable uninit : nat -> Z.

(** [repr k v]: the [k] bytes that hold the value [v] of a [k]-byte
    unsigned integer.  Their order depends on the machine and is left
    open. *)
Variable repr : nat -> Z -> list Z.

(** [ChunkyBitmap::SetSolidColor].  A bitmap without a buffer has an
    empty [Pixels], to which nothing is written. *)
Definition SetSolidColor (color : Z) (bm : ChunkyBitmap) : ChunkyBitmap :=
  let n := Z.to_nat (Width bm * Height bm) in
  if decide (BytesPerPixel bm = 1) then
    with_pixels bm (list_inserts 0 (replicate n (u8 color)) (Pixels bm))
  else if decide (BytesPerPixel bm = 2) then
    with_pixels bm
      (of_elems 2 (Pixels bm)
         (list_inserts 0 (replicate n (repr 2 (color `mod` 2 ^ 16)))
            (as_elems 2 (Pixels bm))))
  else
    with_pixels bm
      (of_elems 4 (Pixels bm)
         (list_inserts 0 (replicate n (repr 4 (color `mod` 2 ^ 32)))
            (as_elems 4 (Pixels bm)))).

(** [ChunkyBitmap::ChunkyBitmap(const ChunkyBitmap &o, int fillcolor)] *)
Definition ChunkyBitmap_fill (o : ChunkyBitmap) (fillcolor : Z)
    : ChunkyBitmap :=
  SetSolidColor fillcolor
    (mkChunky (Width o) (Height o) (Pitch o) (BytesPerPixel o)
       (new_bytes uninit (Pitch o * Height o))).

(** [planar.ToChunky(Pixels, ...)] on the byte buffer of a chunky
    bitmap: the plane count selects the element type the buffer is
    written through. *)
Definition ToChunky_bytes (pb : Planar.PlanarBitmap) (bytes : list Z)
    (destextrawidth : Z) : list Z :=
  if decide (Planar.NumPlanes pb ≤ 0) then bytes
  else if decide (Planar.NumPlanes pb ≤ 8) then
    Planar.ToChunky pb bytes destextrawidth
  else if decide (Planar.NumPlanes pb ≤ 16) then
    of_elems 2 bytes
      (serial_rows_as (repr 2) pb 16 destextrawidth
         (Z.to_nat (Planar.Height pb)) 0 0 (as_elems 2 bytes))
  else
    of_elems 4 bytes
      (serial_rows_as (repr 4) pb 32 destextrawidth
         (Z.to_nat (Planar.Height pb)) 0 0 (as_elems 4 bytes)).

(** [ChunkyBitmap::ChunkyBitmap(const PlanarBitmap &planar, int scalex,
    int scaley)]; the scaled sizes are the exact products, the source's
    where they fit [int] ([alloc_fits]). *)
Definition ChunkyBitmap_of_planar (planar : Planar.PlanarBitmap)
    (scalex scaley : Z) : option ChunkyBitmap :=
  guard (scalex ≠ 0);;
  guard (scaley ≠ 0);;
  bm ← Alloc uninit (Planar.Width planar * scalex)
          (Planar.Height planar * scaley)
          (if decide (Planar.NumPlanes planar ≤ 8) then 1
           else if decide (Planar.NumPlanes planar ≤ 16) then 2 else 4);
  let bm := with_pixels bm
              (ToChunky_bytes planar (Pixels bm)
                 (Width bm - Planar.Width planar)) in
  Some (if decide (scalex ≠ 1 ∨ scaley ≠ 1)
        then Expand scalex scaley bm else bm).
End Elements.

(** A chunky bitmap as [Alloc] lays it out. *)
Definition wf_chunky (bm : ChunkyBitmap) : Prop :=
  0 <= Width bm /\ 0 <= Height bm
  /\ (BytesPerPixel bm = 1 \/ BytesPerPixel bm = 2 \/ BytesPerPixel bm = 4)
  /\ Pitch bm = Width bm * BytesPerPixel bm
  /\ length (Pixels bm) = Z.to_nat (Pitch bm * Height bm).

(** The bytes of a pixel of value [v], [k] bytes wide. *)
Definition pixel_bytes (repr : nat -> Z -> list Z) (k : Z) (v : Z) : list Z :=
  if decide (k = 1) then [v] else repr (Z.to_nat k) v.

(** One choice for [repr]: least significant byte first. *)
Definition le_bytes (k : nat) (v : Z) : list Z :=
  (λ i : nat, (v `div` 256 ^ Z.of_nat i) `mod` 256) <$> seq 0 k.

(** ** Vocabulary for exact colours *)

Global Instance ColorRegister_eq_dec : EqDecision ColorRegister.
Proof. solve_decision. Defined.

(** The colour of pixel [i] of a 4-byte/pixel buffer. *)
Definition pixel_color (inp : list Z) (i : nat) : ColorRegister :=
  mkColor (inp !!! (4 * i)%nat) (inp !!! (4 * i + 1)%nat)
          (inp !!! (4 * i + 2)%nat).

(** [z] is the first slot from [first] on that holds the colour [c]. *)
Definition first_slot (pal : list ColorRegister) (first : Z)
    (c : ColorRegister) (z : Z) : Prop :=
  first <= z /\ pal_at pal z = c
  /\ forall k, first <= k < z -> pal_at pal k <> c.

(** The error window with nothing in it, as [RGB2P_ErrorDiffusion] sets
    it up. *)
Definition no_error (W : Z) : list (list ErrCell) :=
  replicate 3 (replicate (Z.to_nat W) (0, 0, 0)).

(** ** The command line (iff2gif.cpp) *)

From Stdlib Require Import Ascii.

Global Instance ascii_eq_dec : EqDecision ascii := ascii_dec.

(** [s.find_last_of(c)]; [None] is [npos]. *)
Fixpoint find_last_of (c : ascii) (s : list ascii) : option nat :=
  match s with
  | [] => None
  | a :: s' =>
      match find_last_of c s' with
      | Some i => Some (S i)
      | None => if decide (a = c) then Some 0%nat else None
      end
  end.

Definition gif_ext : list ascii := ["."%char; "g"%char; "i"%char; "f"%char].

(** Lines 47-62: the name of the output when the command line gives
    none. *)
Definition default_outname (arg : list ascii) : list ascii :=
  let outstring := arg in
  let outstring :=
    match find_last_of "."%char outstring with
    | Some stop =>
        let extlen := (length outstring - stop - 1)%nat in
        if bool_decide ((0 < extlen)%nat ∧ (extlen ≤ 4)%nat
                        ∧ outstring !! (stop + 1)%nat ≠ Some " "%char)
        then take stop outstring
        else outstring
    | None => outstring
    end in
  outstring ++ gif_ext.

(** What a run of the program comes to.  [GIFWriter] and [LoadFile] are
    not among the sources; [Convert] records the file that is read and the
    name the writer is made with. *)
Inductive Run :=
| Usage
| CannotOpen (name : list ascii)
| Convert (infile outname : list ascii).

(** [_tmain]; [can_open] tells whether [_tfopen(name, "rb")] succeeds,
    [argv] has [argc] entries. *)
Definition tmain (can_open : list ascii -> bool) (argv : list (list ascii))
    : Run :=
  let argc := length argv in
  if decide (argc < 2 ∨ 3 < argc)%nat then Usage
  else if negb (can_open (argv !!! 1%nat)) then CannotOpen (argv !!! 1%nat)
  else if decide (argc = 3%nat) then Convert (argv !!! 1%nat) (argv !!! 2%nat)
  else Convert (argv !!! 1%nat) (default_outname (argv !!! 1%nat)).

(** The value [_tmain] returns. *)
Definition exit_code (r : Run) : Z :=
  match r with
  | Convert _ _ => 0
  | _ => 1
  end.

(** ** Who owns the pixel buffer (chunky.cpp, 38-108) *)

(** A [ChunkyBitmap] as it lies in memory: [Pixels] is a pointer to a
    block of the free store, [None] for [nullptr]. *)
Record ChunkyObject := mkObject {
  oWidth : Z;
  oHeight : Z;
  oPitch : Z;
  oBytesPerPixel : Z;
  oPixels : option nat
}.

(** The objects by address, [None] where no object lives (any more), and
    the blocks [new[]] has handed out, by address, [None] once deleted. *)
Record Memory := mkMemory {
  objects : list (option ChunkyObject);
  blocks : list (option (list Z))
}.

Definition object_at (this : nat) (m : Memory) : option ChunkyObject :=
  objects m !! this ≫= id.

Definition block_at (p : nat) (m : Memory) : option (list Z) :=
  blocks m !! p ≫= id.

Definition set_object (this : nat) (o : ChunkyObject) (m : Memory) : Memory :=
  mkMemory (<[this := Some o]> (objects m)) (blocks m).

(** [delete[] p]; deleting what is not a live block is undefined, [None]. *)
Definition delete_array (p : nat) (m : Memory) : option Memory :=
  _ ← block_at p m;
  Some (mkMemory (objects m) (<[p := None]> (blocks m))).

(** [if (Pixels != nullptr) delete[] Pixels;] *)
Definition delete_pixels (o : ChunkyObject) (m : Memory) : option Memory :=
  match oPixels o with
  | Some p => delete_array p m
  | None => Some m
  end.

(** [ChunkyBitmap::ChunkyBitmap(int w, int h, int bpp)]: the object is made
    at a new address, its buffer is a new block. *)
Definition construct (uninit : nat -> Z) (w h bpp : Z) (m : Memory)
    : option (nat * Memory) :=
  bm ← Alloc uninit w h bpp;
  Some (length (objects m),
        mkMemory
          (objects m
           ++ [Some (mkObject (Width bm) (Height bm) (Pitch bm)
                       (BytesPerPixel bm) (Some (length (blocks m))))])
          (blocks m ++ [Some (Pixels bm)])).

(** [ChunkyBitmap::Clear] *)
Definition Clear (this : nat) (release : bool) (m : Memory) : option Memory :=
  o ← object_at this m;
  m ← (if release then delete_pixels o m else Some m);
  Some (set_object this (mkObject 0 0 0 0 None) m).

(** [ChunkyBitmap::~ChunkyBitmap]; the object is gone afterwards. *)
Definition destroy (this : nat) (m : Memory) : option Memory :=
  o ← object_at this m;
  m ← delete_pixels o m;
  Some (mkMemory (<[this := None]> (objects m)) (blocks m)).

(** [ChunkyBitmap::ChunkyBitmap(ChunkyBitmap &&o)]: the object is made at
    a new address. *)
Definition move_construct (o : nat) (m : Memory) : option (nat * Memory) :=
  src ← object_at o m;
  let this := length (objects m) in
  let m := mkMemory
             (objects m
              ++ [Some (mkObject (oWidth src) (oHeight src) (oPitch src)
                          (oBytesPerPixel src) (oPixels src))])
             (blocks m) in
  m ← Clear o false m;
  Some (this, m).

(** [ChunkyBitmap::operator=(ChunkyBitmap &&o)] *)
Definition move_assign (this o : nat) (m : Memory) : option Memory :=
  t ← object_at this m;
  src ← object_at o m;
  if decide (o ≠ this) then
    m ← delete_pixels t m;
    let m := set_object this
               (mkObject (oWidth src) (oHeight src) (oPitch src)
                  (oBytesPerPixel src) (oPixels src)) m in
    Clear o false m
  else Some m.

(** The bitmap an object stands for: its fields and the bytes of its
    buffer, none for a null pointer. *)
Definition bitmap_at (this : nat) (m : Memory) : option ChunkyBitmap :=
  o ← object_at this m;
  px ← match oPixels o with
       | Some p => block_at p m
       | None => Some []
       end;
  Some (mkChunky (oWidth o) (oHeight o) (oPitch o) (oBytesPerPixel o) px).

(** Object [this] holds the pointer [p]. *)
Definition owner (m : Memory) (p this : nat) : Prop :=
  exists o, object_at this m = Some o /\ oPixels o = Some p.

(** Every pointer held is to a live block, no block is held twice, and
    every live block is held. *)
Definition well_owned (m : Memory) : Prop :=
  (forall p this, owner m p this -> is_Some (block_at p m))
  /\ (forall p a b, owner m p a -> owner m p b -> a = b)
  /\ (forall p, is_Some (block_at p m) -> exists this, owner m p this).

(** Two bitmaps, each with a buffer of its own. *)
Definition two_bitmaps : Memory :=
  mkMemory [Some (mkObject 2 1 2 1 (Some 0%nat));
            Some (mkObject 1 1 1 1 (Some 1%nat))]
           [Some [7; 8]; Some [9]].

(** ** How much error a cell can hold *)

(** A target that has been served already for the cell in row [ρ] of the
    window, column [x'], when the columns before [x] of the current row are
    done: the pixel it starts from lies in a row above, or in the current
    row before column [x]. *)
Definition served (ρ x' x : Z) (t : Z * Z) : Prop :=
  t.2 > ρ \/ (t.2 = ρ /\ x' - t.1 < x).

Global Instance served_dec ρ x' x t : Decision (served ρ x' x t).
Proof. unfold served. apply _. Defined.

(** The weight that can have reached that cell by then. *)
Definition received (k : list Diffuser) (ρ x' x : Z) : Z :=
  foldr (λ d acc,
           weight d
           * Z.of_nat (length (filter (served ρ x' x) (entry_targets d)))
           + acc)
        0 (kernel_entries k).

(** Every channel of [c] is within [B] of zero. *)
Definition cell_within (B : Z) (c : ErrCell) : Prop :=
  (- B <= c.1.1 <= B) /\ (- B <= c.1.2 <= B) /\ (- B <= c.2 <= B).

(** No cell holds more than 255 times the weight that can have reached
    it. *)
Definition bounded_error (k : list Diffuser) (W x : Z)
    (e : list (list ErrCell)) : Prop :=
  forall ρ x' : nat, (ρ < 3)%nat -> (x' < Z.to_nat W)%nat ->
    cell_within (255 * received k (Z.of_nat ρ) (Z.of_nat x') x)
                (err_at e ρ x').

(** No weight is negative. *)
Definition tame_kernel (k : list Diffuser) : Prop :=
  Forall (λ d, 0 <= weight d) k.

(** ** Raster order *)

(** Two 4-byte/pixel buffers show the same first [k] pixels. *)
Definition same_pixels (k : nat) (inp1 inp2 : list Z) : Prop :=
  forall j, (j < 4 * k)%nat -> inp1 !!! j = inp2 !!! j.

(** ** The states of the error diffusion *)

(** The state of [RGB2P_ErrorDiffusion]'s two loops (chunky.cpp 426-470)
    when [y] rows and the first [x] pixels of the next row are done: the
    output buffer and the error window, begun with the caller's buffer
    and a window of zeros. *)
Definition reached (pal : list ColorRegister) (kernel : list Diffuser)
    (W : Z) (inp out : list Z) (y x : nat) : list Z * list (list ErrCell) :=
  diffuse_row pal kernel W inp x (4 * (y * Z.to_nat W)) (y * Z.to_nat W) 0
    (diffuse_image pal kernel W inp y 0 0 (out, no_error W)).

(** * Properties *)

(** ** Machine integers *)

Lemma wrap32_small x : -2147483648 <= x < 2147483648 -> wrap32 x = x.
Proof. intros Hx. unfold wrap32. rewrite Z.mod_small; lia. Qed.

Lemma wrap32_range x : -2147483648 <= wrap32 x < 2147483648.
Proof.
  unfold wrap32.
  pose proof (Z.mod_pos_bound (x + 2147483648) 4294967296). lia.
Qed.

Lemma wrap32_add_l a b : wrap32 (wrap32 a + b) = wrap32 (a + b).
Proof.
  unfold wrap32. f_equal.
  replace ((a + 2147483648) `mod` 4294967296 - 2147483648 + b + 2147483648)
    with ((a + 2147483648) `mod` 4294967296 + b) by lia.
  rewrite Zplus_mod_idemp_l. f_equal. lia.
Qed.

Lemma u8_byte x : is_byte (u8 x).
Proof. unfold is_byte, u8. apply Z.mod_pos_bound. lia. Qed.

Lemma u8_small x : is_byte x -> u8 x = x.
Proof. unfold is_byte, u8. intros. apply Z.mod_small. lia. Qed.

Lemma clamp_range v lo hi : lo <= hi -> lo <= clamp v lo hi <= hi.
Proof. unfold clamp. intros. repeat case_match; lia. Qed.

Lemma clamp_inside v lo hi : lo <= v <= hi -> clamp v lo hi = v.
Proof. unfold clamp. intros. repeat case_match; lia. Qed.

(** ** The distance *)

Lemma color_dist_exact p r g b :
  wf_color p -> is_byte r -> is_byte g -> is_byte b ->
  color_dist p r g b = redmean_dist p r g b
  /\ 0 <= redmean_dist p r g b < INT_MAX.
Proof.
  unfold wf_color, is_byte, color_dist, redmean_dist, INT_MAX.
  intros (Hr & Hg & Hb) Hr' Hg' Hb'.
  destruct p as [pr pg pb]; simpl in *.
  unfold iadd, isub, imul, idiv.
  rewrite (wrap32_small (r + pr)) by lia.
  rewrite Z.quot_div_nonneg by lia.
  set (m := (r + pr) `div` 2).
  assert (0 <= m <= 255) as Hm.
  { subst m. split; [apply Z.div_pos; lia|].
    apply Z.div_le_upper_bound; lia. }
  rewrite (wrap32_small m) by lia.
  rewrite (wrap32_small (r - pr)), (wrap32_small (g - pg)),
    (wrap32_small (b - pb)) by lia.
  set (x := r - pr). set (y := g - pg). set (z := b - pb).
  assert (-255 <= x <= 255) by (subst x; lia).
  assert (-255 <= y <= 255) by (subst y; lia).
  assert (-255 <= z <= 255) by (subst z; lia).
  assert (0 <= x * x <= 65025) by nia.
  assert (0 <= y * y <= 65025) by nia.
  assert (0 <= z * z <= 65025) by nia.
  rewrite (wrap32_small (512 + m)), (wrap32_small (767 - m)) by lia.
  rewrite (wrap32_small ((512 + m) * x)) by nia.
  rewrite (wrap32_small (1024 * y)) by lia.
  rewrite (wrap32_small ((767 - m) * z)) by nia.
  assert (0 <= (512 + m) * x * x <= 767 * 65025) by nia.
  assert (0 <= 1024 * y * y <= 1024 * 65025) by nia.
  assert (0 <= (767 - m) * z * z <= 767 * 65025) by nia.
  rewrite (wrap32_small ((512 + m) * x * x)) by lia.
  rewrite (wrap32_small (1024 * y * y)) by lia.
  rewrite (wrap32_small ((767 - m) * z * z)) by lia.
  rewrite (wrap32_small ((512 + m) * x * x + 1024 * y * y)) by lia.
  rewrite (wrap32_small _) by lia.
  split; [ring | nia].
Qed.

(** ** NearestColor *)

Lemma pal_at_wf pal k :
  wf_palette pal -> 0 <= k < Z.of_nat (length pal) -> wf_color (pal_at pal k).
Proof.
  intros Hwf Hk. unfold pal_at.
  apply Forall_lookup_total_1; [exact Hwf | lia].
Qed.

Lemma pal_at_take pal pal' (m : nat) k :
  take m pal' = take m pal -> 0 <= k < Z.of_nat m ->
  pal_at pal' k = pal_at pal k.
Proof.
  intros Heq Hk. unfold pal_at.
  rewrite !list_lookup_total_alt.
  rewrite <- (lookup_take_lt pal' m), <- (lookup_take_lt pal m) by lia.
  now rewrite Heq.
Qed.

(** The result always names a slot of the scanned range. *)
Lemma NearestColor_loop_range pal r g b n color bc bd lo :
  lo <= bc -> bc <= color ->
  lo <= NearestColor_loop pal r g b n color bc bd
  /\ NearestColor_loop pal r g b n color bc bd < Z.max (color + Z.of_nat n) (bc + 1).
Proof.
  revert color bc bd. induction n as [|n IH]; intros color bc bd Hlo Hle.
  - simpl. lia.
  - cbn [NearestColor_loop].
    destruct (_ <? bd).
    + destruct (_ =? 0); [lia|].
      specialize (IH (color + 1) color (color_dist (pal_at pal color) r g b)).
      lia.
    + specialize (IH (color + 1) bc bd). lia.
Qed.

Lemma NearestColor_range pal r g b first num :
  first < num ->
  first <= NearestColor pal r g b first num < num.
Proof.
  intros Hlt. unfold NearestColor.
  pose proof (NearestColor_loop_range pal r g b (Z.to_nat (num - first))
                first first INT_MAX first). lia.
Qed.

Section Nearest.
Variables (pal : list ColorRegister) (r g b first : Z) (d : Z -> Z).

Lemma scan_best n : forall color bc bd,
  scan_inv d first color bc bd ->
  (forall k, color <= k < color + Z.of_nat n ->
     color_dist (pal_at pal k) r g b = d k /\ 0 <= d k < INT_MAX) ->
  (0 < n)%nat ->
  best_of d first (color + Z.of_nat n)
    (NearestColor_loop pal r g b n color bc bd).
Proof.
  induction n as [|n IH]; intros color bc bd Hinv Hrange Hn; [lia|].
  cbn [NearestColor_loop].
  destruct (Hrange color) as [-> Hc]; [lia|].
  assert (first <= color) as Hfc
    by (destruct Hinv as [(-> & _ & _) | ((? & _) & _)]; lia).
  assert (forall bc' bd', scan_inv d first (color + 1) bc' bd' ->
            best_of d first (color + 1) bc' ->
            best_of d first (color + Z.of_nat (S n))
              (NearestColor_loop pal r g b n (color + 1) bc' bd')) as Hnext.
  { intros bc' bd' Hinv' Hbest. destruct n as [|n'].
    - cbn [NearestColor_loop].
      replace (color + Z.of_nat 1) with (color + 1) by lia. exact Hbest.
    - replace (color + Z.of_nat (S (S n')))
        with (color + 1 + Z.of_nat (S n')) by lia.
      apply IH; [exact Hinv' | intros; apply Hrange; lia | lia]. }
  assert (forall k, color < k < color + Z.of_nat (S n) -> 0 <= d k) as Hpos
    by (intros k Hk; apply Hrange; lia).
  destruct (Z.ltb_spec (d color) bd) as [Hlt | Hge].
  - destruct (Z.eqb_spec (d color) 0) as [Hz | Hnz].
    + (* exact match: nothing before it is at distance 0 *)
      split; [lia|]. split.
      * intros k Hk. rewrite Hz.
        destruct (decide (color < k)) as [Hk'|Hk']; [apply Hpos; lia|].
        destruct (decide (k = color)) as [->|?]; [lia|].
        destruct Hinv as [(-> & _ & _) | ((_ & Hmin & _) & -> & Hbd)]; [lia|].
        specialize (Hmin k). lia.
      * intros k Hk. rewrite Hz.
        destruct Hinv as [(-> & _ & _) | ((_ & Hmin & _) & -> & Hbd)]; [lia|].
        specialize (Hmin k). lia.
    + assert (best_of d first (color + 1) color) as Hbest.
      { split; [lia|]. split.
        - intros k Hk. destruct (decide (k = color)) as [->|]; [lia|].
          destruct Hinv as [(-> & _ & _) | ((_ & Hmin & _) & -> & _)]; [lia|].
          specialize (Hmin k). lia.
        - intros k Hk.
          destruct Hinv as [(-> & _ & _) | ((_ & Hmin & _) & -> & _)]; [lia|].
          specialize (Hmin k). lia. }
      apply Hnext; [|exact Hbest].
      right. split; [exact Hbest|]. split; [reflexivity | lia].
  - destruct Hinv as [(-> & -> & ->) | (Hbest & -> & Hbd)]; [lia|].
    assert (best_of d first (color + 1) bc) as Hbest'.
    { destruct Hbest as (Hr & Hmin & Hfirst).
      split; [lia|]. split; [|exact Hfirst].
      intros k Hk. destruct (decide (k = color)) as [->|]; [lia|].
      apply Hmin. lia. }
    apply Hnext; [|exact Hbest'].
    right. split; [exact Hbest'|]. split; [reflexivity | lia].
Qed.

(** Reaching a slot at distance 0 ends the scan there, whatever the
    remaining slots hold. *)
Lemma scan_exact n : forall color bc bd z,
  color <= z < color + Z.of_nat n ->
  (forall k, color <= k <= z -> color_dist (pal_at pal k) r g b = d k) ->
  (forall k, color <= k < z -> 0 < d k) ->
  d z = 0 -> 0 < bd ->
  NearestColor_loop pal r g b n color bc bd = z.
Proof.
  induction n as [|n IH]; intros color bc bd z Hz Hd Hpos Hzero Hbd; [lia|].
  cbn [NearestColor_loop]. rewrite (Hd color) by lia.
  destruct (decide (color = z)) as [->|Hne].
  - rewrite Hzero.
    destruct (Z.ltb_spec 0 bd); [|lia]. reflexivity.
  - assert (0 < d color) by (apply Hpos; lia).
    destruct (Z.ltb_spec (d color) bd).
    + destruct (Z.eqb_spec (d color) 0); [lia|].
      apply IH; [lia | intros; apply Hd; lia | intros; apply Hpos; lia
                | exact Hzero | lia].
    + apply IH; [lia | intros; apply Hd; lia | intros; apply Hpos; lia
                | exact Hzero | lia].
Qed.
End Nearest.

(** C3: over a palette of 8-bit registers and a wanted colour with 8-bit
    channels, NearestColor on the subrange [first, num), first < num,
    returns a slot of the subrange whose redmean distance
    (512+rmean)*dr^2 + 1024*dg^2 + (767-rmean)*db^2, rmean = (r+palR)/2, is
    the least of the subrange; no lower slot is as near (ties go to the
    lowest index); and a slot at distance exactly 0, once the scan reaches
    it, is returned at once: the answer is that slot whatever the rest of
    the palette holds and however far the subrange extends. *)
Theorem NearestColor_nearest pal r g b first num :
  wf_palette pal -> is_byte r -> is_byte g -> is_byte b ->
  0 <= first < num -> num <= Z.of_nat (length pal) ->
  let D k := redmean_dist (pal_at pal k) r g b in
  let c := NearestColor pal r g b first num in
  first <= c < num
  /\ (forall k, first <= k < num -> D c <= D k)
  /\ (forall k, first <= k < c -> D c < D k)
  /\ (forall z pal' num',
        first <= z < num -> D z = 0 ->
        (forall k, first <= k < z -> D k <> 0) ->
        take (Z.to_nat z + 1) pal' = take (Z.to_nat z + 1) pal ->
        z < num' ->
        NearestColor pal' r g b first num' = z).
Proof.
  intros Hwf Hr Hg Hb Hfirst Hnum D c.
  assert (forall k, first <= k < num ->
            color_dist (pal_at pal k) r g b = D k /\ 0 <= D k < INT_MAX) as HD.
  { intros k Hk. apply color_dist_exact; try assumption.
    apply pal_at_wf; [assumption | lia]. }
  assert (best_of D first num c) as (Hc & Hmin & Hlow).
  { subst c. unfold NearestColor.
    pose proof (scan_best pal r g b first D (Z.to_nat (num - first))
                  first first INT_MAX) as Hscan.
    replace (first + Z.of_nat (Z.to_nat (num - first))) with num in Hscan
      by lia.
    apply Hscan; [left; auto | | lia].
    intros k Hk. apply HD. lia. }
  split; [exact Hc|]. split; [exact Hmin|]. split; [exact Hlow|].
  intros z pal' num' Hz Hzero Hnz Hpre Hnum'.
  unfold NearestColor.
  apply (scan_exact pal' r g b D); [lia | | | exact Hzero | unfold INT_MAX; lia].
  - intros k Hk.
    rewrite (pal_at_take pal pal' (Z.to_nat z + 1)) by (auto; lia).
    apply HD. lia.
  - intros k Hk. destruct (HD k) as [_ ?]; [lia|].
    specialize (Hnz k). lia.
Qed.

(** ** The kernel table *)

(** The declared offsets are what the target loop walks, whatever room
    the array leaves after them. *)
Lemma walk_targets_init cap l :
  (length l <= cap)%nat ->
  Forall (λ t : Z * Z, Z.lor t.1 t.2 <> 0) l ->
  walk_targets (init_to cap l) = l.
Proof.
  intros Hlen Hnz. unfold init_to.
  rewrite take_ge by (rewrite length_app, length_replicate; lia).
  revert cap Hlen. induction Hnz as [|t l Ht _ IH]; intros cap Hlen; simpl.
  - destruct (cap - 0)%nat; reflexivity.
  - simpl in Hlen. destruct (Z.eqb_spec (Z.lor t.1 t.2) 0); [contradiction|].
    f_equal. destruct cap as [|cap]; [lia|].
    replace (S cap - S (length l))%nat with (cap - length l)%nat by lia.
    apply IH. lia.
Qed.

(** Every built-in entry is walked to the same targets in an array of six
    slots and in any larger one, so the capacity taken for [to] does not
    matter. *)
Lemma builtin_targets_any_capacity cap :
  (to_capacity <= cap)%nat ->
  Forall (λ k, Forall (λ d, walk_targets (init_to cap (entry_targets d))
                            = entry_targets d)
                      (kernel_entries k))
         ErrorDiffusionKernels.
Proof.
  intros Hcap.
  assert (Forall (λ k, Forall (λ d, (length (entry_targets d) <= to_capacity)%nat
                                    /\ Forall (λ t : Z * Z, Z.lor t.1 t.2 <> 0)
                                               (entry_targets d))
                              (kernel_entries k))
                 ErrorDiffusionKernels) as Hall.
  { apply (bool_decide_unpack _). vm_compute. exact I. }
  eapply list.Forall_impl; [exact Hall|]. intros k Hk.
  eapply list.Forall_impl; [exact Hk|]. intros d [Hlen Hnz].
  apply walk_targets_init; [lia | exact Hnz].
Qed.

(** C1, as the table has it: entry weight times number of targets sums to
    65536 for Floyd-Steinberg, Burkes, Sierra-3, Sierra-2 and Sierra-Lite,
    to 65532 for Jarvis-Judice-Ninke, to 65530 for Stucki and to 49152 for
    Atkinson; no kernel hands out more than one full unit of error. *)
Theorem kernel_totals :
  kernel_total <$> ErrorDiffusionKernels
  = [65536; 65532; 65530; 65536; 49152; 65536; 65536; 65536]
  /\ Forall (λ k, kernel_total k <= 65536) ErrorDiffusionKernels.
Proof.
  split; [reflexivity|].
  repeat constructor; vm_compute; discriminate.
Qed.

(** C1 as stated fails: three of the eight kernels fall short of 65536. *)
Lemma kernel_totals_not_all_unit :
  ~ Forall (λ k, kernel_total k = 65536) ErrorDiffusionKernels.
Proof.
  intros Hall.
  apply Forall_cons_1 in Hall as [_ Hall].
  apply Forall_cons_1 in Hall as [Hjjn _].
  vm_compute in Hjjn. discriminate.
Qed.

(** ** Direct quantisation *)

Lemma new_bytes_length uninit n : length (new_bytes uninit n) = Z.to_nat n.
Proof. unfold new_bytes. now rewrite length_fmap, length_seq. Qed.

Lemma Alloc_Some uninit w h bpp :
  w <> 0 -> h <> 0 -> bpp = 1 \/ bpp = 2 \/ bpp = 4 ->
  Alloc uninit w h bpp
  = Some (mkChunky w h (w * bpp) bpp (new_bytes uninit (w * bpp * h))).
Proof.
  intros Hw Hh Hb. unfold Alloc.
  rewrite !option_guard_True by assumption. reflexivity.
Qed.

Lemma BasicQuantize_loop_length pal inp n : forall src dest out,
  length (BasicQuantize_loop pal inp n src dest out) = length out.
Proof.
  induction n as [|n IH]; intros; simpl; [reflexivity|].
  now rewrite IH, length_insert.
Qed.

(** Slot [dest + j] receives the answer for the pixel [j] pixels past
    [src]; every other slot is left alone. *)
Lemma BasicQuantize_loop_lookup pal inp n : forall p dest out i,
  (dest + n <= length out)%nat ->
  BasicQuantize_loop pal inp n (4 * p) dest out !! i
  = if decide (dest <= i < dest + n)%nat
    then Some (u8 (pixel_nearest pal inp (p + (i - dest))))
    else out !! i.
Proof.
  induction n as [|n IH]; intros p dest out i Hlen; cbn [BasicQuantize_loop].
  - case_decide; [lia | reflexivity].
  - replace (4 * p + 4)%nat with (4 * S p)%nat by lia.
    rewrite IH by (rewrite length_insert; lia).
    destruct (decide (i = dest)) as [->|Hne].
    + rewrite decide_False by lia. rewrite decide_True by lia.
      rewrite list_lookup_insert_eq by lia.
      unfold pixel_nearest.
      replace (p + (dest - dest))%nat with p by lia. reflexivity.
    + rewrite list_lookup_insert_ne by lia.
      repeat case_decide; try lia; [|reflexivity].
      replace (S p + (i - S dest))%nat with (p + (i - dest))%nat by lia.
      reflexivity.
Qed.

(** Every index NearestColor can return fits the palette, and so does
    the byte stored for it. *)
Lemma u8_index_range c n :
  0 <= c < n -> 0 <= u8 c < n.
Proof.
  intros Hc. unfold u8.
  pose proof (Z.mod_pos_bound c 256). pose proof (Z.mod_le c 256). lia.
Qed.

Lemma pixel_nearest_range pal inp i :
  pal <> [] -> 0 <= pixel_nearest pal inp i < Z.of_nat (length pal).
Proof.
  intros Hne. unfold pixel_nearest. apply NearestColor_range.
  destruct pal; [contradiction | simpl; lia].
Qed.

(** C4, as the code has it: with a dither mode of 0, below 0 or above 8,
    RGBtoPalette of a 4-byte/pixel image yields an image of the same
    dimensions, one byte per pixel, whose byte [i] is NearestColor's
    answer for source pixel [i] alone, over the full palette, reduced
    modulo 256 by the byte store; for a palette of at most 256 entries the
    byte is NearestColor's answer itself.  Nothing is carried from one
    pixel to the next. *)
Theorem RGBtoPalette_undithered uninit bm pal dithermode :
  0 < Width bm -> 0 < Height bm -> BytesPerPixel bm = 4 ->
  dithermode <= 0 \/ dithermode > 8 ->
  exists out,
    RGBtoPalette uninit bm pal dithermode = Some out
    /\ Width out = Width bm /\ Height out = Height bm
    /\ BytesPerPixel out = 1
    /\ length (Pixels out) = Z.to_nat (Width bm * Height bm)
    /\ (forall i, (i < Z.to_nat (Width bm * Height bm))%nat ->
          Pixels out !! i = Some (u8 (pixel_nearest pal (Pixels bm) i)))
    /\ ((length pal <= 256)%nat ->
        forall i, (i < Z.to_nat (Width bm * Height bm))%nat ->
          Pixels out !! i = Some (pixel_nearest pal (Pixels bm) i)).
Proof.
  intros HW HH Hbpp Hmode.
  unfold RGBtoPalette.
  rewrite Alloc_Some by lia. simpl.
  rewrite decide_True by (simpl; lia).
  unfold RGB2P_BasicQuantize. simpl.
  rewrite !option_guard_True by auto. simpl.
  eexists. split; [reflexivity|]. simpl.
  assert (length (new_bytes uninit (Width bm * 1 * Height bm))
          = Z.to_nat (Width bm * Height bm)) as Hlen.
  { rewrite new_bytes_length. f_equal. lia. }
  assert (forall i, (i < Z.to_nat (Width bm * Height bm))%nat ->
    BasicQuantize_loop pal (Pixels bm) (Z.to_nat (Width bm * Height bm)) 0 0
      (new_bytes uninit (Width bm * 1 * Height bm)) !! i
    = Some (u8 (pixel_nearest pal (Pixels bm) i))) as Hpix.
  { intros i Hi.
    change 0%nat with (4 * 0)%nat at 1.
    rewrite BasicQuantize_loop_lookup by (rewrite Hlen; lia).
    rewrite decide_True by lia. repeat f_equal. lia. }
  repeat split; try reflexivity.
  - now rewrite BasicQuantize_loop_length.
  - exact Hpix.
  - intros Hpal i Hi. rewrite Hpix by exact Hi. f_equal.
    apply u8_small. unfold is_byte.
    destruct (decide (pal = [])) as [->|Hne].
    + unfold pixel_nearest, NearestColor. simpl. lia.
    + pose proof (pixel_nearest_range pal (Pixels bm) i Hne). lia.
Qed.

(** ** Error diffusion: one pixel *)

Lemma wrap32_mod x : wrap32 x `mod` 4294967296 = x `mod` 4294967296.
Proof.
  unfold wrap32. rewrite Zminus_mod_idemp_l. f_equal. lia.
Qed.

Lemma wrap32_congr a b :
  a `mod` 4294967296 = b `mod` 4294967296 -> wrap32 a = wrap32 b.
Proof.
  intros Hab. unfold wrap32. f_equal.
  rewrite (Zplus_mod a), (Zplus_mod b). now rewrite Hab.
Qed.

Lemma wrap32_add_mul a n b : wrap32 (a + n * wrap32 b) = wrap32 (a + n * b).
Proof.
  apply wrap32_congr.
  rewrite (Zplus_mod a (n * wrap32 b)), (Zplus_mod a (n * b)).
  rewrite <- (Zmult_mod_idemp_r (wrap32 b)), wrap32_mod, Zmult_mod_idemp_r.
  reflexivity.
Qed.

Lemma wrap32_is_int x : is_int (wrap32 x).
Proof. apply wrap32_range. Qed.

(** Two cells are equal when their channels are. *)
Ltac cell_eq :=
  repeat match goal with |- (_, _) = (_, _) => f_equal end;
  try (apply (f_equal wrap32); lia).

Lemma cell_plus_wf c d : wf_cell (cell_plus c d).
Proof. repeat split; apply wrap32_range. Qed.

Lemma cell_plus_0 c : wf_cell c -> cell_plus c (0, 0, 0) = c.
Proof.
  destruct c as [[r g] b]. unfold wf_cell, is_int, cell_plus. simpl.
  intros (Hr & Hg & Hb).
  rewrite !Z.add_0_r, !wrap32_small by lia. reflexivity.
Qed.

Lemma cell_add_plus rw gw bw c : cell_add rw gw bw c = cell_plus c (rw, gw, bw).
Proof. reflexivity. Qed.

Lemma cell_plus_plus c d1 d2 :
  cell_plus (cell_plus c d1) d2
  = cell_plus c (d1.1.1 + d2.1.1, d1.1.2 + d2.1.2, d1.2 + d2.2).
Proof.
  unfold cell_plus. simpl.
  rewrite !wrap32_add_l. cell_eq.
Qed.

Lemma cell_plus_scaled c n r g b w :
  cell_plus c (n * imul r w, n * imul g w, n * imul b w)
  = cell_plus c (r * (w * n), g * (w * n), b * (w * n)).
Proof.
  unfold cell_plus, imul. simpl.
  rewrite !wrap32_add_mul. cell_eq.
Qed.

Lemma wf_error_rows W e y :
  wf_error W e -> (y < 3)%nat ->
  length (e !!! y) = Z.to_nat W /\ Forall wf_cell (e !!! y).
Proof.
  intros [Hlen Hrows] Hy.
  apply (Forall_lookup_total_1 _ e y) in Hrows; [exact Hrows | lia].
Qed.

Lemma wf_error_cell W e y x :
  wf_error W e -> (y < 3)%nat -> (x < Z.to_nat W)%nat -> wf_cell (err_at e y x).
Proof.
  intros Hwf Hy Hx. destruct (wf_error_rows W e y Hwf Hy) as [Hlen Hcells].
  unfold err_at. apply Forall_lookup_total_1; [exact Hcells | lia].
Qed.

Lemma add_error_wf W e y xx rw gw bw :
  wf_error W e -> wf_error W (add_error e y xx rw gw bw).
Proof.
  intros [Hlen Hrows]. unfold add_error. case_decide; [|split; assumption].
  split; [now rewrite length_alter|].
  apply Forall_alter; [exact Hrows|].
  intros row _ [Hl Hc]. split; [now rewrite length_alter|].
  apply Forall_alter; [exact Hc|].
  intros c _ _. rewrite cell_add_plus. apply cell_plus_wf.
Qed.

Lemma add_error_at W e y xx rw gw bw (y' x' : nat) :
  wf_error W e -> 0 <= y < 3 -> 0 <= xx < W ->
  (y' < 3)%nat -> (x' < Z.to_nat W)%nat ->
  err_at (add_error e y xx rw gw bw) y' x'
  = if decide (Z.to_nat y = y' /\ Z.to_nat xx = x')
    then cell_plus (err_at e y' x') (rw, gw, bw)
    else err_at e y' x'.
Proof.
  intros Hwf Hy Hxx Hy' Hx'. unfold add_error, err_at.
  rewrite decide_True by lia.
  destruct Hwf as [Hlen Hrows].
  rewrite list_lookup_total_alter.
  destruct (decide (Z.to_nat y = y')) as [<-|Hney].
  - rewrite decide_True by lia.
    rewrite list_lookup_total_alter.
    destruct (wf_error_rows W e (Z.to_nat y) (conj Hlen Hrows)) as [Hl _];
      [lia|].
    destruct (decide (Z.to_nat xx = x')) as [<-|Hnex].
    + rewrite decide_True by lia. rewrite decide_True by lia. reflexivity.
    + rewrite decide_False by lia. rewrite decide_False by lia. reflexivity.
  - rewrite decide_False by lia. rewrite decide_False by lia. reflexivity.
Qed.

Section DiffuseCell.
Variables (W x : Z).
Hypothesis Hx : 0 <= x < W.
Hypothesis HW : W <= 2147483520.
Variables (y' x' : nat).
Hypothesis Hy' : (y' < 3)%nat.
Hypothesis Hx' : (x' < Z.to_nat W)%nat.

Local Abbreviation here := (Z.of_nat x' - x, Z.of_nat y').

Lemma diffuse_targets_at rw gw bw ts : forall e,
  wf_error W e ->
  Forall (λ t : Z * Z, -128 <= t.1 <= 127 /\ -128 <= t.2 <= 127) ts ->
  wf_error W (diffuse_targets W x rw gw bw ts e)
  /\ err_at (diffuse_targets W x rw gw bw ts e) y' x'
     = let n := Z.of_nat (length (filter (λ t, t = here) (walk_targets ts))) in
       cell_plus (err_at e y' x') (n * rw, n * gw, n * bw).
Proof.
  induction ts as [|t ts IH]; intros e Hwf Hts.
  - simpl. split; [exact Hwf|].
    symmetry. apply cell_plus_0. eapply wf_error_cell; eauto.
  - apply Forall_cons_1 in Hts as [Ht Hts].
    cbn [diffuse_targets walk_targets].
    destruct (Z.lor t.1 t.2 =? 0).
    { simpl. split; [exact Hwf|].
      symmetry. apply cell_plus_0. eapply wf_error_cell; eauto. }
    unfold iadd. rewrite (wrap32_small (x + t.1)) by lia.
    set (e1 := if decide (0 <= x + t.1 /\ x + t.1 < W)
               then add_error e t.2 (x + t.1) rw gw bw else e).
    assert (wf_error W e1) as Hwf1.
    { subst e1. case_decide; [apply add_error_wf|]; exact Hwf. }
    destruct (IH e1 Hwf1 Hts) as [Hwf2 Hat].
    split; [exact Hwf2|]. rewrite Hat. cbv zeta.
    assert (wf_cell (err_at e y' x')) as Hcell
      by (eapply wf_error_cell; eauto).
    assert (err_at e1 y' x'
            = if decide (t = here)
              then cell_plus (err_at e y' x') (rw, gw, bw)
              else err_at e y' x') as ->.
    { subst e1. destruct t as [dx dy]. simpl in *.
      destruct (decide (0 <= x + dx /\ x + dx < W)) as [Hin|Hout].
      - destruct (decide (0 <= dy < 3)) as [Hdy|Hdy].
        + rewrite (add_error_at W) by (auto; lia).
          destruct (decide ((dx, dy) = here)) as [Heq|Hne].
          * injection Heq as -> ->. rewrite decide_True by lia. reflexivity.
          * rewrite decide_False; [reflexivity|].
            intros [? ?]. apply Hne. f_equal; lia.
        + unfold add_error. rewrite decide_False by lia.
          rewrite decide_False; [reflexivity|].
          intros [= -> ->]. lia.
      - rewrite decide_False; [reflexivity|].
        intros [= -> ->]. lia. }
    rewrite filter_cons.
    destruct (decide (t = here)) as [Heq|Hne].
    + rewrite cell_plus_plus. cbn [length fst snd].
      rewrite Nat2Z.inj_succ. unfold cell_plus. cbn [fst snd]. cell_eq.
    + reflexivity.
Qed.

Lemma diffuse_kernel_at r g b k : forall e,
  wf_error W e -> wf_kernel k ->
  wf_error W (diffuse_kernel W x r g b k e)
  /\ err_at (diffuse_kernel W x r g b k e) y' x'
     = let w := weight_to k (Z.of_nat x' - x) (Z.of_nat y') in
       cell_plus (err_at e y' x') (r * w, g * w, b * w).
Proof.
  induction k as [|d k IH]; intros e Hwf Hk.
  - simpl. split; [exact Hwf|]. rewrite !Z.mul_0_r.
    symmetry. apply cell_plus_0. eapply wf_error_cell; eauto.
  - apply Forall_cons_1 in Hk as [Hd Hk].
    unfold weight_to. cbn [diffuse_kernel kernel_entries].
    destruct (weight d =? 0).
    { simpl. split; [exact Hwf|]. rewrite !Z.mul_0_r.
      symmetry. apply cell_plus_0. eapply wf_error_cell; eauto. }
    destruct (diffuse_targets_at (imul r (weight d)) (imul g (weight d))
                (imul b (weight d)) (to d) e Hwf Hd) as [Hwf1 Hat1].
    destruct (IH _ Hwf1 Hk) as [Hwf2 Hat2].
    split; [exact Hwf2|].
    rewrite Hat2, Hat1. cbv zeta. cbn [foldr].
    fold (weight_to k (Z.of_nat x' - x) (Z.of_nat y')).
    rewrite cell_plus_scaled, cell_plus_plus.
    unfold entry_targets, cell_plus. cbn [fst snd]. cell_eq.
Qed.
End DiffuseCell.

Lemma quot_65536_range a :
  is_int a -> -32768 <= a `quot` 65536 <= 32767.
Proof.
  unfold is_int. intros Ha.
  destruct (Z_le_gt_dec 0 a) as [Hpos|Hneg].
  - rewrite Z.quot_div_nonneg by lia.
    pose proof (Z.div_pos a 65536).
    assert (a `div` 65536 < 32768) by (apply Z.div_lt_upper_bound; lia). lia.
  - replace a with (- (- a)) by lia.
    rewrite Z.quot_opp_l by lia.
    rewrite Z.quot_div_nonneg by lia.
    pose proof (Z.div_pos (- a) 65536).
    assert ((- a) `div` 65536 <= 32768) by (apply Z.div_le_upper_bound; lia).
    lia.
Qed.

Lemma bytes_lookup_total (inp : list Z) i :
  Forall is_byte inp -> is_byte (inp !!! i).
Proof.
  intros Hall. destruct (decide (i < length inp)%nat) as [Hi|Hi].
  - now apply Forall_lookup_total_1.
  - rewrite list_lookup_total_alt, lookup_ge_None_2 by lia.
    unfold is_byte. simpl. lia.
Qed.

Lemma channel_sum s a :
  is_byte s -> is_int a ->
  iadd s (idiv a 65536) = s + a `quot` 65536.
Proof.
  intros Hs Ha. pose proof (quot_65536_range a Ha).
  unfold is_byte in Hs. unfold iadd, idiv.
  rewrite (wrap32_small (a `quot` 65536)) by lia.
  apply wrap32_small. lia.
Qed.


(** ** Error diffusion: rows and images *)

Lemma rotate_error_wf W e : wf_error W e -> wf_error W (rotate_error e).
Proof.
  intros [Hlen Hrows].
  destruct e as [|e0 [|e1 [|e2 [|? ?]]]]; try discriminate.
  apply Forall_cons_1 in Hrows as [[Hl0 _] Hrows].
  split; [reflexivity|].
  apply Forall_cons_1 in Hrows as [H1 Hrows].
  apply Forall_cons_1 in Hrows as [H2 _].
  repeat constructor; try tauto.
  - rewrite length_replicate. exact Hl0.
  - apply Forall_replicate. repeat split; unfold is_int; simpl; lia.
Qed.

Lemma initial_error_wf W :
  wf_error W (replicate 3 (replicate (Z.to_nat W) (0, 0, 0))).
Proof.
  split; [reflexivity|].
  apply Forall_replicate. split; [apply length_replicate|].
  apply Forall_replicate. repeat split; unfold is_int; simpl; lia.
Qed.




(** *** Where the built-in kernels send error *)

Lemma builtin_kernels_wf : Forall wf_kernel ErrorDiffusionKernels.
Proof.
  unfold wf_kernel. apply (bool_decide_unpack _). vm_compute. exact I.
Qed.




(** ** Output range *)

Lemma filled_insert P m out v :
  filled P m out -> P v -> (m < length out)%nat ->
  filled P (S m) (<[m := v]> out).
Proof.
  intros Hf Hv Hm i Hi. destruct (decide (i = m)) as [->|Hne].
  - exists v. split; [now apply list_lookup_insert_eq | exact Hv].
  - rewrite list_lookup_insert_ne by lia. apply Hf. lia.
Qed.

Lemma filled_Forall P out : filled P (length out) out -> Forall P out.
Proof.
  intros Hf. apply Forall_lookup_2. intros i v Hi.
  destruct (Hf i) as (v' & Hv' & HP); [now apply lookup_lt_Some in Hi|].
  congruence.
Qed.

Lemma BasicQuantize_loop_filled pal inp n : forall src dest out,
  pal <> [] ->
  filled (λ v, 0 <= v < Z.of_nat (length pal)) dest out ->
  (dest + n <= length out)%nat ->
  filled (λ v, 0 <= v < Z.of_nat (length pal)) (dest + n)
    (BasicQuantize_loop pal inp n src dest out).
Proof.
  induction n as [|n IH]; intros src dest out Hne Hf Hlen;
    cbn [BasicQuantize_loop].
  - now rewrite Nat.add_0_r.
  - replace (dest + S n)%nat with (S dest + n)%nat by lia.
    apply IH; [exact Hne | | rewrite length_insert; lia].
    apply filled_insert; [exact Hf | | lia].
    apply u8_index_range, NearestColor_range.
    destruct pal; [contradiction | simpl; lia].
Qed.

Lemma diffuse_pixel_out pal kernel W inp src dest x st :
  pal <> [] ->
  exists c, 0 <= c < Z.of_nat (length pal)
    /\ (diffuse_pixel pal kernel W inp src dest x st).1
       = <[(dest + Z.to_nat x)%nat := u8 c]> st.1.
Proof.
  intros Hne. unfold diffuse_pixel.
  destruct (wanted inp src st.2 x) as [[r g] b]. cbn [fst].
  eexists. split; [|reflexivity].
  apply NearestColor_range. destruct pal; [contradiction | simpl; lia].
Qed.

Lemma diffuse_row_filled pal kernel W inp n : forall src dest x st,
  pal <> [] -> 0 <= x ->
  filled (λ v, 0 <= v < Z.of_nat (length pal)) (dest + Z.to_nat x) st.1 ->
  (dest + Z.to_nat x + n <= length st.1)%nat ->
  filled (λ v, 0 <= v < Z.of_nat (length pal)) (dest + Z.to_nat x + n)
    (diffuse_row pal kernel W inp n src dest x st).1
  /\ length (diffuse_row pal kernel W inp n src dest x st).1 = length st.1.
Proof.
  induction n as [|n IH]; intros src dest x st Hne Hx Hf Hlen;
    cbn [diffuse_row].
  - now rewrite Nat.add_0_r.
  - destruct (diffuse_pixel_out pal kernel W inp src dest x st Hne)
      as (c & Hc & Hout).
    set (st1 := diffuse_pixel pal kernel W inp src dest x st) in *.
    assert (length st1.1 = length st.1) as Hl1
      by (rewrite Hout; apply length_insert).
    destruct (IH (src + 4)%nat dest (x + 1) st1 Hne) as [Hf2 Hl2]; try lia.
    + replace (dest + Z.to_nat (x + 1))%nat
        with (S (dest + Z.to_nat x)) by lia.
      rewrite Hout. apply filled_insert; [exact Hf | | lia].
      now apply u8_index_range.
    + replace (dest + Z.to_nat (x + 1) + n)%nat
        with (dest + Z.to_nat x + S n)%nat in Hf2 by lia.
      split; [exact Hf2 | congruence].
Qed.

Lemma diffuse_image_filled pal kernel W inp n : forall src dest st,
  pal <> [] ->
  filled (λ v, 0 <= v < Z.of_nat (length pal)) dest st.1 ->
  (dest + n * Z.to_nat W <= length st.1)%nat ->
  filled (λ v, 0 <= v < Z.of_nat (length pal)) (dest + n * Z.to_nat W)
    (diffuse_image pal kernel W inp n src dest st).1
  /\ length (diffuse_image pal kernel W inp n src dest st).1 = length st.1.
Proof.
  induction n as [|n IH]; intros src dest st Hne Hf Hlen;
    cbn [diffuse_image].
  - now rewrite Nat.add_0_r.
  - destruct (diffuse_row_filled pal kernel W inp (Z.to_nat W) src dest 0 st
                Hne) as [Hf1 Hl1]; try lia.
    + now rewrite Nat.add_0_r.
    + rewrite Nat.add_0_r in Hf1.
      set (st1 := diffuse_row pal kernel W inp (Z.to_nat W) src dest 0 st) in *.
      destruct (IH (src + 4 * Z.to_nat W)%nat (dest + Z.to_nat W)%nat
                  (st1.1, rotate_error st1.2) Hne) as [Hf2 Hl2].
      * exact Hf1.
      * cbn [fst]. lia.
      * cbn [fst] in *.
        replace (dest + Z.to_nat W + n * Z.to_nat W)%nat
          with (dest + S n * Z.to_nat W)%nat in Hf2 by lia.
        split; [exact Hf2 | congruence].
Qed.

(** C5, as the code has it: for a palette that is not empty and any
    dither mode, RGBtoPalette of a 4-byte/pixel image returns an image
    every byte of which lies in [0, palette.size()). *)
Theorem RGBtoPalette_index_range uninit bm pal dithermode :
  0 < Width bm -> 0 < Height bm -> BytesPerPixel bm = 4 ->
  pal <> [] ->
  exists out,
    RGBtoPalette uninit bm pal dithermode = Some out
    /\ length (Pixels out) = Z.to_nat (Width bm * Height bm)
    /\ Forall (λ v, 0 <= v < Z.of_nat (length pal)) (Pixels out).
Proof.
  intros HW HH Hbpp Hne.
  unfold RGBtoPalette.
  rewrite Alloc_Some by lia. cbn [mbind option_bind Width Height].
  assert (length (new_bytes uninit (Width bm * 1 * Height bm))
          = Z.to_nat (Width bm * Height bm)) as Hlen.
  { rewrite new_bytes_length. f_equal. lia. }
  assert (filled (λ v, 0 <= v < Z.of_nat (length pal)) 0
            (new_bytes uninit (Width bm * 1 * Height bm))) as Hf0
    by (intros i Hi; lia).
  case_decide.
  - unfold RGB2P_BasicQuantize. cbn [Width Height BytesPerPixel Pixels].
    rewrite !option_guard_True by auto. cbn [mbind option_bind].
    eexists. split; [reflexivity|]. cbn [Pixels with_pixels].
    pose proof (BasicQuantize_loop_filled pal (Pixels bm)
                  (Z.to_nat (Width bm * Height bm)) 0 0 _ Hne Hf0) as Hf.
    rewrite BasicQuantize_loop_length. split; [exact Hlen|].
    apply filled_Forall. rewrite BasicQuantize_loop_length, Hlen.
    apply Hf. lia.
  - unfold RGB2P_ErrorDiffusion. cbn [Width Height BytesPerPixel Pixels].
    rewrite !option_guard_True by auto. cbn [mbind option_bind].
    eexists. split; [reflexivity|]. cbn [Pixels with_pixels].
    match goal with
    | |- context [diffuse_image pal ?k ?W ?inp ?n 0 0 ?st] =>
        destruct (diffuse_image_filled pal k W inp n 0 0 st Hne) as [Hf Hl]
    end.
    + exact Hf0.
    + cbn [fst]. rewrite Hlen. nia.
    + cbn [fst] in *. split; [congruence|].
      apply filled_Forall. rewrite Hl, Hlen.
      replace (Z.to_nat (Width bm * Height bm))
        with (0 + Z.to_nat (Height bm) * Z.to_nat (Width bm))%nat by nia.
      exact Hf.
Qed.

(** ** Hold-And-Modify *)

Lemma store_rgba_app out dest c :
  (dest + 4 <= length out)%nat ->
  store_rgba out dest c = take dest out ++ rgba c ++ drop (dest + 4) out.
Proof.
  intros Hlen. unfold store_rgba, rgba.
  rewrite <- (take_drop dest out) at 1.
  assert (length (take dest out) = dest) as Htl by (rewrite length_take; lia).
  assert (length (drop dest out) = (length out - dest)%nat) as Hdl
    by apply length_drop.
  rewrite <- drop_drop.
  destruct (drop dest out) as [|x0 [|x1 [|x2 [|x3 rest]]]];
    simpl in Hdl; try lia.
  rewrite !insert_app_r_alt by lia. rewrite Htl.
  replace (dest + 3 - dest)%nat with 3%nat by lia.
  replace (dest + 2 - dest)%nat with 2%nat by lia.
  replace (dest + 1 - dest)%nat with 1%nat by lia.
  replace (dest - dest)%nat with 0%nat by lia.
  reflexivity.
Qed.

Lemma running_length step c l : length (running step c l) = length l.
Proof. revert c. induction l; intros; simpl; [|rewrite IHl]; reflexivity. Qed.

Lemma bind_rgba_length (cs : list ColorRegister) :
  length (cs ≫= rgba) = (4 * length cs)%nat.
Proof.
  induction cs as [|c cs IH]; [reflexivity|].
  change ((c :: cs) ≫= rgba) with (rgba c ++ (cs ≫= rgba)).
  rewrite length_app, IH. simpl. lia.
Qed.

(** The loop overwrites [4 * n] bytes from [dest] on with the running
    colours of the [n] source bytes from [src] on. *)
Lemma HAM_loop_emit step inp n : forall src dest color out,
  (dest + 4 * n <= length out)%nat -> (src + n <= length inp)%nat ->
  HAM_loop step inp n src dest color out
  = take dest out ++ (running step color (take n (drop src inp)) ≫= rgba)
    ++ drop (dest + 4 * n) out.
Proof.
  induction n as [|n IH]; intros src dest color out Hout Hinp;
    cbn [HAM_loop].
  - simpl. rewrite Nat.add_0_r. symmetry. apply take_drop.
  - destruct (lookup_lt_is_Some_2 inp src) as [s Hs]; [lia|].
    rewrite (list_lookup_total_correct _ _ _ Hs).
    rewrite (drop_S _ _ _ Hs). cbn [take running mbind list_bind].
    set (c' := step color s).
    rewrite IH by (rewrite ?store_rgba_app, ?length_app, ?length_take,
                     ?length_drop by lia; simpl; lia).
    rewrite store_rgba_app by lia.
    assert (length (take dest out) = dest) as Htl by (rewrite length_take; lia).
    replace (take (dest + 4) (take dest out ++ rgba c' ++ drop (dest + 4) out))
      with (take dest out ++ rgba c').
    2:{ rewrite app_assoc. symmetry.
        rewrite take_app_le by (rewrite length_app, Htl; simpl; lia).
        apply take_ge. rewrite length_app, Htl. simpl. lia. }
    replace (drop (dest + 4 + 4 * n)
               (take dest out ++ rgba c' ++ drop (dest + 4) out))
      with (drop (dest + 4 * S n) out).
    2:{ rewrite app_assoc.
        rewrite drop_app_ge by (rewrite length_app, Htl; simpl; lia).
        rewrite length_app, Htl, drop_drop. simpl. f_equal. lia. }
    rewrite <- !app_assoc. reflexivity.
Qed.

Lemma running_lookup step l : forall c i,
  (i < length l)%nat ->
  running step c l !! i = Some (foldl step c (take (S i) l)).
Proof.
  induction l as [|s l IH]; intros c i Hi; simpl in Hi; [lia|].
  destruct i as [|i]; [reflexivity|].
  cbn [running]. rewrite lookup_cons. apply IH. lia.
Qed.

Lemma running_base step (mask : Z) (pick : Z -> ColorRegister) l : forall c,
  (forall c s, Z.land s mask = 0 -> step c s = pick s) ->
  Forall (λ s, Z.land s mask = 0) l ->
  running step c l = pick <$> l.
Proof.
  intros c Hstep Hall. revert c.
  induction Hall as [|s l Hs _ IH]; intros c; [reflexivity|].
  cbn [running fmap list_fmap]. rewrite (Hstep c s Hs). f_equal. apply IH.
Qed.

Lemma pixel4_bind_rgba (cs : list ColorRegister) : forall i c,
  cs !! i = Some c -> pixel4 (cs ≫= rgba) i = rgba c.
Proof.
  unfold pixel4. induction cs as [|c0 cs IH]; intros i c Hi; [discriminate|].
  change ((c0 :: cs) ≫= rgba) with (rgba c0 ++ (cs ≫= rgba)).
  destruct i as [|i].
  - injection Hi as ->. reflexivity.
  - replace (4 * S i)%nat with (length (rgba c0) + 4 * i)%nat
      by (simpl; lia).
    rewrite drop_app_add. now apply IH.
Qed.

Lemma HAMtoRGB_pixels uninit step minpal bm pal :
  0 < Width bm -> 0 < Height bm -> BytesPerPixel bm = 1 ->
  length (Pixels bm) = Z.to_nat (Width bm * Height bm) ->
  (minpal <= length pal)%nat ->
  exists out,
    HAMtoRGB uninit step minpal bm pal = Some out
    /\ Width out = Width bm /\ Height out = Height bm
    /\ BytesPerPixel out = 4
    /\ Pixels out = running (step pal) (pal_at pal 0) (Pixels bm) ≫= rgba.
Proof.
  intros HW HH Hbpp Hlen Hpal. unfold HAMtoRGB.
  rewrite !option_guard_True by assumption.
  rewrite Alloc_Some by lia. cbn [mbind option_bind].
  eexists. split; [reflexivity|]. cbn [Width Height BytesPerPixel Pixels].
  repeat split.
  rewrite HAM_loop_emit.
  - rewrite drop_0, take_0, <- Hlen, firstn_all. cbn [app].
    rewrite drop_ge; [apply app_nil_r|].
    rewrite new_bytes_length. rewrite Hlen. nia.
  - rewrite new_bytes_length. nia.
  - lia.
Qed.

Lemma ham6_base pal c s : Z.land s 0xF0 = 0 -> ham6_pixel pal c s = pal_at pal s.
Proof. intros Hs. unfold ham6_pixel. now rewrite Hs. Qed.

Lemma ham8_base pal c s : Z.land s 0xC0 = 0 -> ham8_pixel pal c s = pal_at pal s.
Proof. intros Hs. unfold ham8_pixel. now rewrite Hs. Qed.

Lemma HAM_pixels_of_running (step : ColorRegister -> Z -> ColorRegister)
    c0 (mask : Z) pal (src : list Z) :
  (forall c s, Z.land s mask = 0 -> step c s = pal_at pal s) ->
  length (running step c0 src ≫= rgba) = (4 * length src)%nat
  /\ (forall i, (i < length src)%nat ->
        pixel4 (running step c0 src ≫= rgba) i
        = rgba (foldl step c0 (take (S i) src)))
  /\ (Forall (λ s, Z.land s mask = 0) src ->
      forall i, (i < length src)%nat ->
        pixel4 (running step c0 src ≫= rgba) i = rgba (pal_at pal (src !!! i))).
Proof.
  intros Hbase. split; [|split].
  - now rewrite bind_rgba_length, running_length.
  - intros i Hi. apply pixel4_bind_rgba. now apply running_lookup.
  - intros Hall i Hi. apply pixel4_bind_rgba.
    rewrite (running_base step mask (pal_at pal)) by assumption.
    rewrite list_lookup_fmap.
    destruct (lookup_lt_is_Some_2 src i Hi) as [s Hs].
    rewrite Hs. simpl. now rewrite (list_lookup_total_correct _ _ _ Hs).
Qed.

(** C8: both decoders keep one running colour, first palette entry 0,
    folded over the source bytes in raster order from the first byte of
    the image to the last with no regard for rows; a byte whose mode bits
    are zero sets it to the palette entry the byte indexes, so an image
    of such bytes alone comes out as those palette entries; and pixel [i]
    of the output is the running colour after byte [i], as red, green,
    blue and 0xFF.  The output is the four-byte bitmap of the same
    width and height, so its size has to be one the constructor can
    compute in [int] ([alloc_fits]). *)
Theorem HAMtoRGB_running_color uninit bm pal :
  0 < Width bm -> 0 < Height bm -> BytesPerPixel bm = 1 ->
  length (Pixels bm) = Z.to_nat (Width bm * Height bm) ->
  alloc_fits (Width bm) (Height bm) 4 ->
  let src := Pixels bm in
  let n := Z.to_nat (Width bm * Height bm) in
  let color6 i := foldl (ham6_pixel pal) (pal_at pal 0) (take (S i) src) in
  let color8 i := foldl (ham8_pixel pal) (pal_at pal 0) (take (S i) src) in
  (forall c s, Z.land s 0xF0 = 0 -> ham6_pixel pal c s = pal_at pal s)
  /\ (forall c s, Z.land s 0xC0 = 0 -> ham8_pixel pal c s = pal_at pal s)
  /\ color6 0%nat = ham6_pixel pal (pal_at pal 0) (src !!! 0%nat)
  /\ color8 0%nat = ham8_pixel pal (pal_at pal 0) (src !!! 0%nat)
  /\ (forall i, (S i < n)%nat ->
        color6 (S i) = ham6_pixel pal (color6 i) (src !!! S i)
        /\ color8 (S i) = ham8_pixel pal (color8 i) (src !!! S i))
  /\ ((16 <= length pal)%nat ->
      exists out,
        HAM6toRGB uninit bm pal = Some out
        /\ Width out = Width bm /\ Height out = Height bm
        /\ BytesPerPixel out = 4
        /\ length (Pixels out) = (4 * n)%nat
        /\ (forall i, (i < n)%nat -> pixel4 (Pixels out) i = rgba (color6 i))
        /\ (Forall (λ s, Z.land s 0xF0 = 0) src ->
            forall i, (i < n)%nat ->
              pixel4 (Pixels out) i = rgba (pal_at pal (src !!! i))))
  /\ ((64 <= length pal)%nat ->
      exists out,
        HAM8toRGB uninit bm pal = Some out
        /\ Width out = Width bm /\ Height out = Height bm
        /\ BytesPerPixel out = 4
        /\ length (Pixels out) = (4 * n)%nat
        /\ (forall i, (i < n)%nat -> pixel4 (Pixels out) i = rgba (color8 i))
        /\ (Forall (λ s, Z.land s 0xC0 = 0) src ->
            forall i, (i < n)%nat ->
              pixel4 (Pixels out) i = rgba (pal_at pal (src !!! i)))).
Proof.
  intros HW HH Hbpp Hlen _ src n color6 color8.
  assert (forall (step : ColorRegister -> Z -> ColorRegister) c i,
            (i < n)%nat ->
            foldl step c (take (S i) src)
            = step (foldl step c (take i src)) (src !!! i)) as Hsnoc.
  { intros step c i Hi.
    destruct (lookup_lt_is_Some_2 src i) as [s Hs]; [subst src n; lia|].
    rewrite (take_S_r _ _ _ Hs), foldl_app. simpl.
    now rewrite (list_lookup_total_correct _ _ _ Hs). }
  split; [apply ham6_base|]. split; [apply ham8_base|].
  split; [apply (Hsnoc _ _ 0%nat); subst n; lia|].
  split; [apply (Hsnoc _ _ 0%nat); subst n; lia|].
  split; [intros i Hi; split; apply Hsnoc; lia|].
  split.
  - intros Hpal.
    destruct (HAMtoRGB_pixels uninit ham6_pixel 16 bm pal HW HH Hbpp Hlen Hpal)
      as (out & Hout & Hw & Hh & Hb & Hpx).
    exists out. split; [exact Hout|]. repeat (split; [assumption|]).
    rewrite Hpx. subst n. rewrite <- Hlen.
    apply (HAM_pixels_of_running _ _ 0xF0 pal). apply ham6_base.
  - intros Hpal.
    destruct (HAMtoRGB_pixels uninit ham8_pixel 64 bm pal HW HH Hbpp Hlen Hpal)
      as (out & Hout & Hw & Hh & Hb & Hpx).
    exists out. split; [exact Hout|]. repeat (split; [assumption|]).
    rewrite Hpx. subst n. rewrite <- Hlen.
    apply (HAM_pixels_of_running _ _ 0xC0 pal). apply ham8_base.
Qed.

Lemma below_all (P : Z -> Prop) (n : Z) :
  Forall P (seqZ 0 n) -> forall v, 0 <= v < n -> P v.
Proof.
  intros Hall v Hv. rewrite list.Forall_forall in Hall.
  apply Hall, elem_of_seqZ. lia.
Qed.

(** The HAM6 intensity: the low nibble doubled into a byte. *)
Lemma ham6_intensity s :
  let v := Z.land s 0x0F in
  u8 (Z.lor v (Z.shiftl v 4)) = Z.lor (Z.shiftl v 4) v
  /\ is_byte (Z.lor (Z.shiftl v 4) v).
Proof.
  intros v.
  apply (below_all
           (λ v, u8 (Z.lor v (Z.shiftl v 4)) = Z.lor (Z.shiftl v 4) v
                 /\ 0 <= Z.lor (Z.shiftl v 4) v < 256) 16).
  - apply (bool_decide_unpack _). vm_compute. exact I.
  - subst v. change 0x0F with (Z.ones 4). rewrite Z.land_ones by lia.
    apply Z.mod_pos_bound. lia.
Qed.

Lemma ham6_modify pal c s :
  let lvl := Z.lor (Z.shiftl (Z.land s 0x0F) 4) (Z.land s 0x0F) in
  (Z.land s 0xF0 = 0x10 -> ham6_pixel pal c s = set_blue c lvl)
  /\ (Z.land s 0xF0 = 0x20 -> ham6_pixel pal c s = set_red c lvl)
  /\ (Z.land s 0xF0 = 0x30 -> ham6_pixel pal c s = set_green c lvl).
Proof.
  intros lvl. destruct (ham6_intensity s) as [Hlvl _].
  unfold ham6_pixel. rewrite Hlvl. fold lvl.
  repeat split; intros ->; reflexivity.
Qed.

(** C9: in HAM6toRGB a byte in a modify mode gives a pixel that differs
    from the pixel before it (from palette entry 0 for the first pixel)
    in one channel only, which becomes the low nibble [v] doubled,
    [(v << 4) | v]: blue for mode 0x10, red for 0x20, green for 0x30.  A
    modify-blue byte right after a base-colour byte therefore shows the
    red and green of the palette entry that byte named.  The size of the
    four-byte output has to fit [int] ([alloc_fits]). *)
Theorem HAM6_modify_one_channel uninit bm pal :
  0 < Width bm -> 0 < Height bm -> BytesPerPixel bm = 1 ->
  length (Pixels bm) = Z.to_nat (Width bm * Height bm) ->
  alloc_fits (Width bm) (Height bm) 4 ->
  (16 <= length pal)%nat ->
  let src := Pixels bm in
  let n := Z.to_nat (Width bm * Height bm) in
  exists out,
    HAM6toRGB uninit bm pal = Some out
    /\ (forall i r g b, (i < n)%nat ->
          let s := src !!! i in
          let v := Z.land s 0x0F in
          let lvl := Z.lor (Z.shiftl v 4) v in
          match i with
          | O => rgba (pal_at pal 0)
          | S j => pixel4 (Pixels out) j
          end = [r; g; b; 0xFF] ->
          (Z.land s 0xF0 = 0x10 -> pixel4 (Pixels out) i = [r; g; lvl; 0xFF])
          /\ (Z.land s 0xF0 = 0x20 -> pixel4 (Pixels out) i = [lvl; g; b; 0xFF])
          /\ (Z.land s 0xF0 = 0x30 -> pixel4 (Pixels out) i = [r; lvl; b; 0xFF]))
    /\ (forall j, (S j < n)%nat ->
          let p := pal_at pal (src !!! j) in
          let v := Z.land (src !!! S j) 0x0F in
          Z.land (src !!! j) 0xF0 = 0x00 ->
          Z.land (src !!! S j) 0xF0 = 0x10 ->
          pixel4 (Pixels out) j = [red p; green p; blue p; 0xFF]
          /\ pixel4 (Pixels out) (S j)
             = [red p; green p; Z.lor (Z.shiftl v 4) v; 0xFF]).
Proof.
  intros HW HH Hbpp Hlen _ Hpal src n.
  destruct (HAMtoRGB_pixels uninit ham6_pixel 16 bm pal HW HH Hbpp Hlen Hpal)
    as (out & Hout & _ & _ & _ & Hpx).
  exists out. split; [exact Hout|].
  destruct (HAM_pixels_of_running (ham6_pixel pal) (pal_at pal 0) 0xF0 pal src
              (ham6_base pal)) as (_ & Hpix & _).
  fold src in Hpx. rewrite Hpx.
  assert (forall i, (i < n)%nat ->
            foldl (ham6_pixel pal) (pal_at pal 0) (take (S i) src)
            = ham6_pixel pal (foldl (ham6_pixel pal) (pal_at pal 0) (take i src))
                (src !!! i)) as Hsnoc.
  { intros i Hi.
    destruct (lookup_lt_is_Some_2 src i) as [s Hs]; [subst src n; lia|].
    rewrite (take_S_r _ _ _ Hs), foldl_app. simpl.
    now rewrite (list_lookup_total_correct _ _ _ Hs). }
  assert (forall i, (i < n)%nat ->
            match i with
            | O => rgba (pal_at pal 0)
            | S j => pixel4 (running (ham6_pixel pal) (pal_at pal 0) src ≫= rgba) j
            end = rgba (foldl (ham6_pixel pal) (pal_at pal 0) (take i src)))
    as Hprev.
  { intros [|j] Hj; [reflexivity|]. apply Hpix. subst src n. lia. }
  split.
  - intros i r g b Hi s v lvl Hbefore.
    rewrite Hprev in Hbefore by exact Hi.
    rewrite Hpix by (subst src n; lia). rewrite Hsnoc by exact Hi.
    set (c := foldl (ham6_pixel pal) (pal_at pal 0) (take i src)) in *.
    injection Hbefore as <- <- <-.
    destruct (ham6_modify pal c s) as (Hb & Hr & Hg).
    fold s. repeat split; intros Hmode.
    + now rewrite Hb.
    + now rewrite Hr.
    + now rewrite Hg.
  - intros j Hj p v Hbase Hblue.
    rewrite !Hpix by (subst src n; lia).
    rewrite (Hsnoc (S j)) by exact Hj. rewrite (Hsnoc j) by lia.
    rewrite (ham6_base pal _ (src !!! j) Hbase). fold p.
    destruct (ham6_modify pal p (src !!! S j)) as (Hb & _ & _).
    rewrite Hb by exact Hblue. split; reflexivity.
Qed.

(** ** Pointers *)

Section PointerFacts.
Context {T : Type} `{Inhabited T}.
Implicit Types (buf : list T) (p q : Z).

Lemma length_poke buf q v : length (poke buf q v) = length buf.
Proof. unfold poke. case_decide; [apply length_insert | reflexivity]. Qed.

Lemma length_memcpy buf dst src n : length (memcpy buf dst src n) = length buf.
Proof. unfold memcpy. case_decide; [apply length_inserts | reflexivity]. Qed.

Lemma deref_poke buf q v p :
  deref (poke buf q v) p
  = if decide (p = q /\ 0 <= q < Z.of_nat (length buf)) then Some v
    else deref buf p.
Proof.
  unfold deref, poke.
  destruct (decide (0 <= p)) as [Hp|Hp].
  - destruct (decide (0 <= q)) as [Hq|Hq].
    + destruct (decide (p = q)) as [->|Hne].
      * destruct (decide (q < Z.of_nat (length buf))) as [Hlt|Hge].
        -- rewrite decide_True by lia.
           apply list_lookup_insert_eq. lia.
        -- rewrite decide_False by lia.
           now rewrite list_insert_ge by lia.
      * rewrite decide_False by lia.
        apply list_lookup_insert_ne. lia.
    + rewrite decide_False by lia. reflexivity.
  - rewrite decide_False by lia. reflexivity.
Qed.

Lemma deref_lt buf p :
  0 <= p < Z.of_nat (length buf) -> exists v, deref buf p = Some v.
Proof.
  intros Hp. unfold deref. rewrite decide_True by lia.
  apply lookup_lt_is_Some_2. lia.
Qed.

Lemma peek_deref buf p v : deref buf p = Some v -> peek buf p = v.
Proof.
  unfold deref, peek. case_decide; [|discriminate].
  apply list_lookup_total_correct.
Qed.

Lemma deref_memcpy buf dst src n p :
  0 <= dst -> 0 <= src ->
  dst + Z.of_nat n <= Z.of_nat (length buf) ->
  src + Z.of_nat n <= Z.of_nat (length buf) ->
  deref (memcpy buf dst src n) p
  = if decide (dst <= p < dst + Z.of_nat n) then deref buf (src + (p - dst))
    else deref buf p.
Proof.
  intros Hdst Hsrc Hdl Hsl. unfold deref, memcpy.
  rewrite (decide_True (P := 0 <= dst /\ 0 <= src)) by lia.
  assert (length (take n (drop (Z.to_nat src) buf)) = n) as Hlen
    by (rewrite length_take, length_drop; lia).
  destruct (decide (0 <= p)) as [Hp|Hp].
  - destruct (decide (dst <= p < dst + Z.of_nat n)) as [Hin|Hout].
    + rewrite decide_True by lia.
      rewrite list_lookup_inserts by (rewrite ?Hlen; lia).
      rewrite lookup_take_lt by lia. rewrite lookup_drop.
      f_equal. lia.
    + destruct (decide (p < dst)).
      * apply list_lookup_inserts_lt. lia.
      * apply list_lookup_inserts_ge. rewrite Hlen. lia.
  - rewrite decide_False by lia. reflexivity.
Qed.
End PointerFacts.

(** ** Expand: replication inside one buffer *)

Lemma div_block q sx j :
  0 < sx -> j * sx <= q < j * sx + sx -> q `div` sx = j.
Proof.
  intros Hsx Hq. symmetry.
  apply (Z.div_unique_pos q sx j (q - j * sx)); lia.
Qed.

Section ExpandFacts.
Context {T : Type} `{Inhabited T}.
Variables (W : Z) (n : nat) (scalex scaley srcwidth : Z).
Hypothesis Hsx : 1 <= scalex.
Hypothesis Hsy : 1 <= scaley.
Hypothesis Hw : 0 <= srcwidth.
Hypothesis HW : W = srcwidth * scalex.
Hypothesis Hn : Z.of_nat n = W.

(** [t] stores of the element at [from], below [dest]. *)
Lemma expand_pixel_spec t : forall from dest (buf : list T),
  0 <= from -> from <= dest - Z.of_nat t ->
  dest <= Z.of_nat (length buf) ->
  let r := expand_pixel t from dest buf in
  r.1 = dest - Z.of_nat t
  /\ length r.2 = length buf
  /\ forall p,
       deref r.2 p
       = if decide (dest - Z.of_nat t <= p < dest) then deref buf from
         else deref buf p.
Proof.
  induction t as [|t IH]; intros from dest buf Hfrom Hle Hlen r; subst r.
  - cbn [expand_pixel fst snd]. split; [lia|]. split; [reflexivity|].
    intros p. rewrite decide_False by lia. reflexivity.
  - cbn [expand_pixel].
    destruct (deref_lt buf from) as [v Hv]; [lia|].
    rewrite (peek_deref _ _ _ Hv).
    destruct (IH from (dest - 1) (poke buf (dest - 1) v)) as (H1 & H2 & H3);
      [lia | lia | rewrite length_poke; lia|].
    split; [lia|]. split; [now rewrite H2, length_poke|].
    intros p. rewrite H3, !deref_poke.
    repeat case_decide; try lia; try reflexivity; now rewrite Hv.
Qed.

(** [c] columns of the source line at [src] replicated into the
    [c * scalex] slots from [base] on, right to left. *)
Lemma expand_line_spec c : forall src base (buf : list T),
  0 <= src -> src <= base ->
  base + Z.of_nat c * scalex <= Z.of_nat (length buf) ->
  let r := expand_line scalex c src (base + Z.of_nat c * scalex) buf in
  r.1 = base
  /\ length r.2 = length buf
  /\ forall p,
       deref r.2 p
       = if decide (base <= p < base + Z.of_nat c * scalex)
         then deref buf (src + (p - base) `div` scalex)
         else deref buf p.
Proof.
  induction c as [|c IH]; intros src base buf Hsrc Hbase Hlen r; subst r.
  - cbn [expand_line fst snd]. split; [lia|]. split; [reflexivity|].
    intros p. rewrite decide_False by lia. reflexivity.
  - cbn [expand_line].
    destruct (expand_pixel_spec (Z.to_nat scalex) (src + Z.of_nat c)
                (base + Z.of_nat (S c) * scalex) buf) as (H1 & H2 & H3);
      [lia | nia | lia|].
    set (r1 := expand_pixel _ _ _ _) in *.
    replace r1.1 with (base + Z.of_nat c * scalex) by lia.
    destruct (IH src base r1.2) as (H4 & H5 & H6); [lia | lia | nia|].
    split; [exact H4|]. split; [congruence|].
    intros p. rewrite H6, !H3.
    replace (base + Z.of_nat (S c) * scalex - Z.of_nat (Z.to_nat scalex))
      with (base + Z.of_nat c * scalex) by lia.
    destruct (decide (base <= p < base + Z.of_nat c * scalex)) as [Hlow|Hnl].
    + assert (0 <= (p - base) `div` scalex < Z.of_nat c) as Hq.
      { split; [apply Z.div_pos; lia|].
        apply Z.div_lt_upper_bound; lia. }
      repeat case_decide; try lia; try nia; reflexivity.
    + destruct (decide (base + Z.of_nat c * scalex <= p
                        < base + Z.of_nat (S c) * scalex)) as [Hin|Hout].
      * rewrite (div_block (p - base) scalex (Z.of_nat c)) by lia.
        repeat case_decide; try lia; reflexivity.
      * repeat case_decide; try lia; reflexivity.
Qed.

Lemma W_nonneg : 0 <= W.
Proof. lia. Qed.

(** [yy] copies of the line at [ysrc] into the [yy] lines below [dest].
    The line copied lies above them, below them, or is the last of
    them. *)
Lemma copy_lines_spec yy : forall ysrc dest (buf : list T),
  0 <= ysrc -> ysrc + W <= Z.of_nat (length buf) ->
  0 <= dest - Z.of_nat yy * W -> dest <= Z.of_nat (length buf) ->
  dest <= ysrc \/ ysrc + W <= dest - Z.of_nat yy * W
  \/ ysrc = dest - Z.of_nat yy * W ->
  let r := copy_lines W n yy ysrc dest buf in
  r.1 = dest - Z.of_nat yy * W
  /\ length r.2 = length buf
  /\ (forall p, ~ (dest - Z.of_nat yy * W <= p < dest) ->
        deref r.2 p = deref buf p)
  /\ (forall k j, 0 <= k < Z.of_nat yy -> 0 <= j < W ->
        deref r.2 (dest - (k + 1) * W + j) = deref buf (ysrc + j)).
Proof.
  pose proof W_nonneg as HW0.
  induction yy as [|yy IH]; intros ysrc dest buf Hys Hyl Hd0 Hdl Hpos r;
    subst r.
  - cbn [copy_lines fst snd]. split; [lia|]. split; [reflexivity|].
    split; [reflexivity | lia].
  - cbn [copy_lines].
    assert (Z.of_nat (S yy) * W = Z.of_nat yy * W + W) as HS by lia.
    rewrite HS in *.
    assert (0 <= Z.of_nat yy * W) as Hyy by nia.
    assert (forall p, deref (memcpy buf (dest - W) ysrc n) p
              = if decide (dest - W <= p < dest)
                then deref buf (ysrc + (p - (dest - W)))
                else deref buf p) as Hcp.
    { intros p. rewrite deref_memcpy by lia.
      repeat case_decide; try lia; reflexivity. }
    destruct (IH ysrc (dest - W) (memcpy buf (dest - W) ysrc n))
      as (H1 & H2 & H3 & H4); try (rewrite ?length_memcpy; lia).
    split; [lia|]. split; [now rewrite H2, length_memcpy|]. split.
    + intros p Hp. rewrite H3 by lia. rewrite Hcp.
      rewrite decide_False by lia. reflexivity.
    + intros k j Hk Hj. destruct (decide (k = 0)) as [->|Hk0].
      * rewrite H3 by lia. rewrite Hcp.
        rewrite decide_True by lia. f_equal. lia.
      * replace (dest - (k + 1) * W + j)
          with (dest - W - (k - 1 + 1) * W + j) by lia.
        rewrite H4 by lia. rewrite Hcp.
        assert (1 <= Z.of_nat yy) as Hy1 by lia.
        assert (W <= Z.of_nat yy * W) as HyW by nia.
        rewrite decide_False by lia. reflexivity.
Qed.

(** The body of the row loop at source row [r]: lines [r * scaley] to
    [(r + 1) * scaley - 1] receive source row [r], each element
    [scalex] times; nothing else changes. *)
Lemma expand_row_spec (r : Z) (buf : list T) :
  0 <= r -> (r + 1) * scaley * W <= Z.of_nat (length buf) ->
  let res := expand_row W n scalex scaley srcwidth (r * W)
               ((r + 1) * scaley * W) buf in
  res.1 = r * scaley * W
  /\ length res.2 = length buf
  /\ (forall p, ~ (r * scaley * W <= p < (r + 1) * scaley * W) ->
        deref res.2 p = deref buf p)
  /\ (forall Y X, r * scaley <= Y < (r + 1) * scaley -> 0 <= X < W ->
        deref res.2 (Y * W + X) = deref buf (r * W + X `div` scalex)).
Proof.
  pose proof W_nonneg as HW0.
  intros Hr Hlen res; subst res.
  set (lo := r * scaley * W) in *.
  set (hi := (r + 1) * scaley * W) in *.
  assert (hi = lo + scaley * W) as Hhi by (subst hi lo; lia).
  assert (W <= scaley * W) as HsW by nia.
  assert (r * W <= lo) as Hrlo by (subst lo; nia).
  assert (0 <= r * W) as HrW by nia.
  assert (forall Y, r * scaley <= Y < (r + 1) * scaley ->
            exists k, 0 <= k < scaley /\ Y * W = hi - (k + 1) * W) as Hrows.
  { intros Y HY. exists ((r + 1) * scaley - 1 - Y). split; [lia|].
    subst hi. lia. }
  assert (Z.of_nat (Z.to_nat srcwidth) * scalex = W) as Hcw
    by (rewrite Z2Nat.id; lia).
  unfold expand_row. destruct (decide (scalex <> 1)) as [Hx|Hx].
  - replace hi with (hi - W + Z.of_nat (Z.to_nat srcwidth) * scalex) by lia.
    destruct (expand_line_spec (Z.to_nat srcwidth) (r * W) (hi - W) buf)
      as (H1 & H2 & H3); [lia | lia | lia|].
    set (r1 := expand_line _ _ _ _ _) in *.
    rewrite H1.
    replace (hi - W + Z.of_nat (Z.to_nat srcwidth) * scalex) with hi in H3
      by lia.
    assert (Z.of_nat (Z.to_nat (scaley - 1)) * W = scaley * W - W) as Hc
      by (rewrite Z2Nat.id; lia).
    destruct (copy_lines_spec (Z.to_nat (scaley - 1)) (hi - W) (hi - W) r1.2)
      as (H4 & H5 & H6 & H7); try lia.
    rewrite Hc in *.
    split; [lia|]. split; [congruence|]. split.
    + intros p Hp. rewrite H6 by lia. rewrite H3.
      rewrite decide_False by lia. reflexivity.
    + intros Y X HY HX. destruct (Hrows Y HY) as (k & Hk & ->).
      destruct (decide (k = 0)) as [->|Hk0].
      * rewrite H6 by lia. rewrite H3.
        rewrite decide_True by lia. do 2 f_equal. f_equal. lia.
      * replace (hi - (k + 1) * W + X)
          with (hi - W - (k - 1 + 1) * W + X) by lia.
        rewrite H7 by lia. rewrite H3.
        rewrite decide_True by lia. do 2 f_equal. f_equal. lia.
  - assert (scalex = 1) as Hx1 by lia.
    assert (Z.of_nat (Z.to_nat scaley) * W = scaley * W) as Hc
      by (rewrite Z2Nat.id; lia).
    destruct (copy_lines_spec (Z.to_nat scaley) (r * W) hi buf)
      as (H4 & H5 & H6 & H7); try lia.
    { rewrite Hc. right.
      destruct (decide (scaley = 1)) as [->|Hs1]; [right; subst lo; lia|].
      destruct (decide (r = 0)) as [->|Hr0]; [right; subst lo; lia|].
      left. subst lo. nia. }
    rewrite Hc in *.
    split; [lia|]. split; [exact H5|]. split.
    + intros p Hp. apply H6. lia.
    + intros Y X HY HX. destruct (Hrows Y HY) as (k & Hk & ->).
      rewrite H7 by lia. rewrite Hx1, Z.div_1_r. reflexivity.
Qed.

(** The row loop with [s] rows left. *)
Lemma ExpandT_spec s : forall (buf : list T),
  Z.of_nat s * scaley * W <= Z.of_nat (length buf) ->
  let res := ExpandT W n scalex scaley srcwidth s ((Z.of_nat s - 1) * W)
               (Z.of_nat s * scaley * W) buf in
  length res = length buf
  /\ (forall p, Z.of_nat s * scaley * W <= p -> deref res p = deref buf p)
  /\ (forall Y X, 0 <= Y < Z.of_nat s * scaley -> 0 <= X < W ->
        deref res (Y * W + X)
        = deref buf (Y `div` scaley * W + X `div` scalex)).
Proof.
  pose proof W_nonneg as HW0.
  induction s as [|s IH]; intros buf Hlen res; subst res.
  - cbn [ExpandT]. split; [reflexivity|]. split; [reflexivity | lia].
  - cbn [ExpandT].
    replace (Z.of_nat (S s) - 1) with (Z.of_nat s) by lia.
    replace (Z.of_nat (S s)) with (Z.of_nat s + 1) in * by lia.
    destruct (expand_row_spec (Z.of_nat s) buf) as (H1 & H2 & H3 & H4);
      [lia | lia|].
    set (r1 := expand_row _ _ _ _ _ _ _ _) in *.
    rewrite H1.
    replace (Z.of_nat s * W - W) with ((Z.of_nat s - 1) * W) by lia.
    assert ((Z.of_nat s + 1) * scaley * W
            = Z.of_nat s * scaley * W + scaley * W) as Hhi by lia.
    assert (0 <= scaley * W) as HsW by nia.
    destruct (IH r1.2) as (H5 & H6 & H7); [lia|].
    split; [congruence|]. split.
    + intros p Hp. rewrite H6 by lia. apply H3. lia.
    + intros Y X HY HX.
      assert (0 <= X `div` scalex <= X) as HXd.
      { split; [apply Z.div_pos; lia|].
        apply Z.div_le_upper_bound; nia. }
      destruct (decide (Y < Z.of_nat s * scaley)) as [Hlow|Hhigh].
      * rewrite H7 by lia.
        assert (0 <= Y `div` scaley < Z.of_nat s) as HYd.
        { split; [apply Z.div_pos; lia|].
          apply Z.div_lt_upper_bound; lia. }
        apply H3.
        assert (Y `div` scaley * W + W <= Z.of_nat s * W) by nia.
        assert (Z.of_nat s * W <= Z.of_nat s * scaley * W) by nia.
        lia.
      * rewrite H6 by nia.
        rewrite H4 by lia.
        rewrite (div_block Y scaley (Z.of_nat s)) by lia.
        reflexivity.
Qed.
End ExpandFacts.

(** The loop as [Expand] starts it. *)
Lemma Expand_core {T : Type} `{Inhabited T} (buf : list T)
    (W Ht scalex scaley w h : Z) :
  1 <= scalex -> 1 <= scaley -> 0 < w -> 0 < h ->
  W = w * scalex -> Ht = h * scaley ->
  length buf = Z.to_nat (W * Ht) ->
  let res := ExpandT W (Z.to_nat W) scalex scaley (W `quot` scalex)
               (Z.to_nat (Ht `quot` scaley)) ((Ht `quot` scaley - 1) * W)
               (Ht * W) buf in
  length res = length buf
  /\ forall x y i j,
       0 <= x < w -> 0 <= y < h -> 0 <= i < scalex -> 0 <= j < scaley ->
       deref res ((y * scaley + j) * W + (x * scalex + i)) = deref buf (y * W + x).
Proof.
  intros Hsx Hsy Hw Hh HW HH Hlen res; subst res.
  assert (W `quot` scalex = w) as -> by (subst W; apply Z.quot_mul; lia).
  assert (Ht `quot` scaley = h) as -> by (subst Ht; apply Z.quot_mul; lia).
  assert (0 < W) as HW0 by nia.
  assert (0 < Ht) as HH0 by nia.
  assert (Z.of_nat (length buf) = W * Ht) as Hlen' by nia.
  replace (h - 1) with (Z.of_nat (Z.to_nat h) - 1) by lia.
  replace (Ht * W) with (Z.of_nat (Z.to_nat h) * scaley * W)
    by (rewrite Z2Nat.id; lia).
  assert (0 <= w) as Hw0 by lia.
  assert (Z.of_nat (Z.to_nat W) = W) as HnW by lia.
  destruct (ExpandT_spec W (Z.to_nat W) scalex scaley w Hsx Hsy
              Hw0 HW HnW (Z.to_nat h) buf) as (H1 & _ & H3).
  { rewrite Z2Nat.id by lia. lia. }
  split; [exact H1|].
  intros x y i j Hx Hy Hi Hj.
  rewrite H3.
  - rewrite (div_block (y * scaley + j) scaley y) by lia.
    rewrite (div_block (x * scalex + i) scalex x) by lia.
    reflexivity.
  - rewrite Z2Nat.id by lia. nia.
  - nia.
Qed.

(** *** Bytes and elements *)

Lemma take1_drop_deref (l : list Z) q :
  0 <= q ->
  take 1 (drop (Z.to_nat q) l) = option_list (deref l q).
Proof.
  intros Hq. unfold deref. rewrite decide_True by lia.
  generalize (Z.to_nat q) as m. intros m. revert l.
  induction m as [|m IH]; intros [|a l]; try reflexivity.
  cbn. apply IH.
Qed.

Lemma as_elems_lookup (k : nat) (l : list Z) (m q : nat) :
  (0 < k)%nat -> length l = (m * k)%nat -> (q < m)%nat ->
  as_elems k l !! q = Some (take k (drop (q * k) l)).
Proof.
  intros Hk Hlen Hq. unfold as_elems.
  rewrite Hlen, Nat.div_mul by lia.
  rewrite sublist_lookup_reshape by lia.
  apply sublist_lookup_Some. nia.
Qed.

Lemma as_elems_length (k : nat) (l : list Z) (m : nat) :
  (0 < k)%nat -> length l = (m * k)%nat -> length (as_elems k l) = m.
Proof.
  intros Hk Hlen. unfold as_elems.
  rewrite length_reshape, length_replicate, Hlen. apply Nat.div_mul. lia.
Qed.

Lemma join_element (k : nat) (ls : list (list Z)) :
  Forall (λ l, length l = k) ls ->
  forall q e, ls !! q = Some e -> take k (drop (q * k) (mjoin ls)) = e.
Proof.
  induction 1 as [|l ls Hl _ IH]; intros q e Hq; [discriminate|].
  change (mjoin (l :: ls)) with (l ++ mjoin ls).
  destruct q as [|q].
  - injection Hq as <-. change (0 * k)%nat with 0%nat. rewrite drop_0.
    rewrite take_app_le by lia. apply take_ge. lia.
  - replace (S q * k)%nat with (length l + q * k)%nat by lia.
    rewrite drop_app_add. now apply IH.
Qed.

Lemma join_same_length (k : nat) (ls : list (list Z)) :
  Forall (λ l, length l = k) ls -> length (mjoin ls) = (length ls * k)%nat.
Proof.
  induction 1 as [|l ls Hl _ IH]; [reflexivity|].
  change (mjoin (l :: ls)) with (l ++ mjoin ls).
  rewrite length_app, IH. simpl. lia.
Qed.

(** Every slot of the result holds an element the buffer already had. *)
Lemma Expand_core_from {T : Type} `{Inhabited T} (buf : list T)
    (W Ht scalex scaley w h : Z) :
  1 <= scalex -> 1 <= scaley -> 0 < w -> 0 < h ->
  W = w * scalex -> Ht = h * scaley ->
  length buf = Z.to_nat (W * Ht) ->
  let res := ExpandT W (Z.to_nat W) scalex scaley (W `quot` scalex)
               (Z.to_nat (Ht `quot` scaley)) ((Ht `quot` scaley - 1) * W)
               (Ht * W) buf in
  forall q e, res !! q = Some e -> exists q', buf !! q' = Some e.
Proof.
  intros Hsx Hsy Hw Hh HW HH Hlen res q e Hq.
  destruct (Expand_core buf W Ht scalex scaley w h Hsx Hsy Hw Hh HW HH Hlen)
    as [Hl Hpix].
  fold res in Hl, Hpix.
  assert (0 < W) as HW0 by nia.
  assert (Z.of_nat q < W * Ht) as Hqlt.
  { apply lookup_lt_Some in Hq. rewrite Hl, Hlen in Hq. lia. }
  set (Y := Z.of_nat q `div` W). set (X := Z.of_nat q `mod` W).
  assert (Z.of_nat q = Y * W + X) as HqYX
    by (subst Y X; rewrite (Z.div_mod (Z.of_nat q) W) at 1 by lia; lia).
  assert (0 <= X < W) as HX by (subst X; apply Z.mod_pos_bound; lia).
  assert (0 <= Y < Ht) as HY.
  { subst Y. split; [apply Z.div_pos; lia|].
    apply Z.div_lt_upper_bound; lia. }
  pose proof (Z.div_mod Y scaley ltac:(lia)) as HYd.
  pose proof (Z.mod_pos_bound Y scaley ltac:(lia)) as HYm.
  pose proof (Z.div_mod X scalex ltac:(lia)) as HXd.
  pose proof (Z.mod_pos_bound X scalex ltac:(lia)) as HXm.
  assert (0 <= Y `div` scaley < h) as Hy.
  { split; [apply Z.div_pos; lia|]. apply Z.div_lt_upper_bound; lia. }
  assert (0 <= X `div` scalex < w) as Hx.
  { split; [apply Z.div_pos; lia|]. apply Z.div_lt_upper_bound; lia. }
  specialize (Hpix (X `div` scalex) (Y `div` scaley) (X `mod` scalex)
                (Y `mod` scaley) Hx Hy HXm HYm).
  replace ((Y `div` scaley * scaley + Y `mod` scaley) * W
           + (X `div` scalex * scalex + X `mod` scalex))
    with (Z.of_nat q) in Hpix by lia.
  unfold deref in Hpix.
  rewrite decide_True in Hpix by lia. rewrite Nat2Z.id in Hpix.
  rewrite decide_True in Hpix by nia.
  eexists. rewrite <- Hpix. exact Hq.
Qed.

(** C6: Expand(1, 1) returns the bitmap as it is.  For scale factors of
    at least 1, on a bitmap whose declared width and height are the
    scaled ones and whose buffer holds [Pitch * Height] bytes with the
    source in the first [w] slots of the first [h] lines, Expand leaves
    the dimensions alone and makes every pixel of the block
    [x*scalex, x*scalex + scalex) x [y*scaley, y*scaley + scaley) equal to
    what slot [(x, y)] held, for pixels of 1, 2 and 4 bytes. *)
Theorem Expand_replicates bm scalex scaley w h :
  1 <= scalex -> 1 <= scaley -> 0 < w -> 0 < h ->
  Width bm = w * scalex -> Height bm = h * scaley ->
  BytesPerPixel bm = 1 \/ BytesPerPixel bm = 2 \/ BytesPerPixel bm = 4 ->
  Pitch bm = Width bm * BytesPerPixel bm ->
  length (Pixels bm) = Z.to_nat (Pitch bm * Height bm) ->
  Expand 1 1 bm = bm
  /\ (let bm' := Expand scalex scaley bm in
      Width bm' = Width bm /\ Height bm' = Height bm
      /\ Pitch bm' = Pitch bm /\ BytesPerPixel bm' = BytesPerPixel bm
      /\ length (Pixels bm') = length (Pixels bm)
      /\ forall x y i j,
           0 <= x < w -> 0 <= y < h -> 0 <= i < scalex -> 0 <= j < scaley ->
           pixel bm' (x * scalex + i) (y * scaley + j) = pixel bm x y).
Proof.
  intros Hsx Hsy Hw Hh HW HH Hbpp Hpitch Hlen.
  split; [unfold Expand; now rewrite decide_True by lia|].
  destruct bm as [W Ht P k px]. cbn [Width Height Pitch BytesPerPixel Pixels] in *.
  unfold Expand. cbn [Width Height Pitch BytesPerPixel Pixels].
  destruct (decide (scalex = 1 /\ scaley = 1)) as [[-> ->]|Hne].
  { cbv zeta. repeat split; try reflexivity.
    intros x y i j Hx Hy Hi Hj. do 2 f_equal; lia. }
  assert (0 < W /\ 0 < Ht) as [HW0 HH0] by nia.
  destruct (decide (k = 1)) as [->|Hk1].
  - (* bytes *)
    rewrite Z.mul_1_r in Hpitch. subst P.
    assert (length px = Z.to_nat (W * Ht)) as Hlen' by lia.
    destruct (Expand_core px W Ht scalex scaley w h Hsx Hsy Hw Hh HW HH Hlen')
      as [Hl Hpix].
    cbv zeta. cbn [with_pixels Width Height Pitch BytesPerPixel Pixels].
    repeat split; try reflexivity; [exact Hl|].
    intros x y i j Hx Hy Hi Hj.
    unfold pixel, with_pixels. cbn [Width Height Pitch BytesPerPixel Pixels].
    rewrite !Z.mul_1_r. change (Z.to_nat 1) with 1%nat.
    assert (0 <= y * scaley + j) by nia.
    assert (0 <= x * scalex + i) by nia.
    assert (0 <= (y * scaley + j) * W) by (apply Z.mul_nonneg_nonneg; lia).
    assert (0 <= y * W) by (apply Z.mul_nonneg_nonneg; lia).
    rewrite !take1_drop_deref by lia.
    now rewrite Hpix.
  - (* two- and four-byte elements *)
    rewrite decide_True by lia.
    assert (0 < k) as Hk0 by lia.
    set (kn := Z.to_nat k).
    set (m := Z.to_nat (W * Ht)).
    assert (length px = (m * kn)%nat) as Hlenk by (subst m kn P; nia).
    assert (P `quot` k = W) as -> by (subst P; apply Z.quot_mul; lia).
    assert (((Ht `quot` scaley - 1) * P) `quot` k
            = (Ht `quot` scaley - 1) * W) as ->.
    { subst P. rewrite Z.mul_assoc. apply Z.quot_mul. lia. }
    assert ((Ht * P) `quot` k = Ht * W) as ->.
    { subst P. rewrite Z.mul_assoc. apply Z.quot_mul. lia. }
    assert (length (as_elems kn px) = Z.to_nat (W * Ht)) as Hel
      by (apply as_elems_length; [subst kn; lia | exact Hlenk]).
    destruct (Expand_core (as_elems kn px) W Ht scalex scaley w h
                Hsx Hsy Hw Hh HW HH Hel) as [Hl Hpix].
    pose proof (Expand_core_from (as_elems kn px) W Ht scalex scaley w h
                  Hsx Hsy Hw Hh HW HH Hel) as Hfrom.
    set (res := ExpandT _ _ _ _ _ _ _ _ _) in *.
    assert (Forall (λ l, length l = kn) res) as Hall.
    { apply Forall_lookup_2. intros q e Hq.
      destruct (Hfrom q e Hq) as [q' Hq'].
      pose proof (lookup_lt_Some _ _ _ Hq') as Hlt. rewrite Hel in Hlt.
      rewrite (as_elems_lookup kn px m q') in Hq' by (subst kn m; lia).
      injection Hq' as <-.
      rewrite length_take, length_drop. subst m kn. nia. }
    assert (of_elems kn px res = mjoin res) as Hof.
    { unfold of_elems. rewrite Hlenk, Nat.div_mul by (subst kn; lia).
      rewrite drop_ge by lia. apply app_nil_r. }
    cbv zeta. cbn [with_pixels Width Height Pitch BytesPerPixel Pixels].
    rewrite Hof.
    repeat split; try reflexivity.
    + rewrite (join_same_length kn) by exact Hall. rewrite Hl, Hel. lia.
    + intros x y i j Hx Hy Hi Hj.
      unfold pixel, with_pixels. cbn [Width Height Pitch BytesPerPixel Pixels].
      fold kn.
      specialize (Hpix x y i j Hx Hy Hi Hj).
      set (q := (y * scaley + j) * W + (x * scalex + i)) in *.
      set (q0 := y * W + x) in *.
      assert (0 <= y * scaley + j < Ht) by nia.
      assert (0 <= x * scalex + i < W) by nia.
      assert (0 <= q < W * Ht) as Hq by (subst q; nia).
      assert (0 <= q0 < W * Ht) as Hq0 by (subst q0; nia).
      unfold deref in Hpix. rewrite !decide_True in Hpix by lia.
      rewrite (as_elems_lookup kn px m (Z.to_nat q0)) in Hpix
        by (subst kn m; lia).
      replace (Z.to_nat (q * k)) with (Z.to_nat q * kn)%nat by (subst kn; nia).
      replace (Z.to_nat (q0 * k)) with (Z.to_nat q0 * kn)%nat
        by (subst kn; nia).
      now apply (join_element kn res Hall).
Qed.

(** ** Planar to chunky *)

Section PlanarToChunky.
Import Planar.

Lemma testbit_sample a bit i :
  0 <= bit -> 0 <= i ->
  Z.testbit (Z.land (Z.shiftr a bit) 1) i = (i =? 0) && Z.testbit a bit.
Proof.
  intros Hbit Hi. rewrite Z.land_spec, Z.shiftr_spec by lia.
  destruct (Z.eqb_spec i 0) as [->|Hne].
  - simpl. now rewrite andb_true_r.
  - replace (Z.testbit 1 i) with false; [now rewrite andb_false_r|].
    destruct i; try lia; reflexivity.
Qed.

Lemma testbit_push acc b i :
  0 <= i ->
  Z.testbit (Z.lor (Z.shiftl acc 1) b) i
  = (if decide (i = 0) then false else Z.testbit acc (i - 1)) || Z.testbit b i.
Proof.
  intros Hi. rewrite Z.lor_spec. f_equal.
  case_decide as H0; [subst; apply Z.shiftl_spec_low; lia|].
  apply Z.shiftl_spec. lia.
Qed.

(** The bits [gather] assembles: plane [i] at bit [i]. *)
Lemma gather_testbit pb bits byte bit n : forall acc i,
  0 <= bit -> 0 <= bits -> 0 <= i -> 0 <= acc < 2 ^ bits ->
  Z.testbit (gather pb bits byte bit n acc) i
  = (i <? bits)
    && (if decide (i < Z.of_nat n) then Z.testbit (plane_byte pb i byte) bit
        else Z.testbit acc (i - Z.of_nat n)).
Proof.
  induction n as [|n IH]; intros acc i Hbit Hbits Hi Hacc.
  - cbn [gather]. rewrite decide_False by lia. rewrite Z.sub_0_r.
    rewrite <- (Z.mod_small acc (2 ^ bits)) at 1 by lia.
    apply Z.testbit_mod_pow2. lia.
  - cbn [gather].
    set (b := Z.land (Z.shiftr (plane_byte pb (Z.of_nat n) byte) bit) 1).
    rewrite IH; try lia; [|apply Z.mod_pos_bound; lia].
    destruct (Z.ltb_spec i bits) as [Hlt|Hge]; [|reflexivity].
    cbn [andb].
    destruct (decide (i < Z.of_nat n)) as [Hin|Hnin].
    + rewrite decide_True by lia. reflexivity.
    + rewrite Z.testbit_mod_pow2 by lia.
      rewrite testbit_push by lia. subst b.
      rewrite testbit_sample by lia.
      destruct (Z.ltb_spec (i - Z.of_nat n) bits) as [_|?]; [|lia].
      cbn [andb].
      destruct (decide (i = Z.of_nat n)) as [->|Hne].
      * rewrite decide_True by lia. rewrite decide_True by lia.
        rewrite Z.sub_diag. reflexivity.
      * rewrite decide_False by lia. rewrite decide_False by lia.
        replace (i - Z.of_nat n =? 0) with false by lia.
        rewrite orb_false_r. f_equal. lia.
Qed.

Lemma gather_bits pb bits byte bit n i :
  0 <= bit -> Z.of_nat n <= bits -> 0 <= i ->
  Z.testbit (gather pb bits byte bit n 0) i
  = (i <? Z.of_nat n) && Z.testbit (plane_byte pb i byte) bit.
Proof.
  intros Hbit Hn Hi.
  rewrite gather_testbit;
    [| lia | lia | lia | split; [lia | apply Z.pow_pos_nonneg; lia]].
  case_decide.
  - replace (i <? bits) with true by lia. replace (i <? Z.of_nat n) with true by lia.
    reflexivity.
  - replace (i <? Z.of_nat n) with false by lia.
    rewrite Z.testbit_0_l. apply andb_false_r.
Qed.

(** The bits of one transposed byte. *)
Lemma foldr_push_testbit (g : Z -> Z) bit (l : list Z) : forall i : nat,
  0 <= bit ->
  Z.testbit
    (foldr (λ k acc, Z.lor (Z.shiftl acc 1) (Z.land (Z.shiftr (g k) bit) 1))
           0 l) (Z.of_nat i)
  = match l !! i with Some k => Z.testbit (g k) bit | None => false end.
Proof.
  induction l as [|k l IH]; intros i Hbit.
  - simpl. apply Z.testbit_0_l.
  - cbn [foldr]. rewrite testbit_push, testbit_sample by lia.
    destruct i as [|i].
    + rewrite decide_True by lia. reflexivity.
    + rewrite decide_False by lia.
      replace (Z.of_nat (S i) - 1) with (Z.of_nat i) by lia.
      rewrite IH by lia.
      destruct (Z.eqb_spec (Z.of_nat (S i)) 0) as [?|_]; [lia|].
      cbn [andb lookup]. apply orb_false_r.
Qed.

Lemma transposed_bits srcbuf src srcstep j i :
  0 <= j <= 7 -> 0 <= i ->
  Z.testbit (transposed srcbuf src srcstep j) i
  = (i <? 8) && Z.testbit (peek srcbuf (src + i * srcstep)) (7 - j).
Proof.
  intros Hj Hi. unfold transposed.
  rewrite <- (Z2Nat.id i) at 1 by lia.
  rewrite (foldr_push_testbit (λ k, peek srcbuf (src + k * srcstep))) by lia.
  destruct (Z.ltb_spec i 8).
  - rewrite lookup_seqZ_lt by lia. rewrite Z2Nat.id by lia. reflexivity.
  - rewrite lookup_seqZ_ge by lia. reflexivity.
Qed.

Section PlanarFacts.
Variable pb : PlanarBitmap.
Hypothesis Hwf : wf_planar pb.
Hypothesis Hplanes : 1 <= NumPlanes pb <= 8.

Local Abbreviation size := (Pitch pb * Height pb).

Lemma planar_size_nonneg : 0 <= Pitch pb /\ 0 <= size.
Proof.
  clear Hplanes.
  destruct Hwf as (HW & HH & HP & _).
  assert (0 <= Pitch pb).
  { rewrite HP. rewrite Z.quot_div_nonneg by lia.
    pose proof (Z.div_pos (Width pb + 15) 16). lia. }
  split; [assumption | nia].
Qed.

Lemma planar_groups_fit : Z.shiftr (Width pb) 3 <= Pitch pb.
Proof.
  clear Hplanes.
  destruct Hwf as (HW & HH & HP & _).
  rewrite Z.shiftr_div_pow2 by lia. change (2 ^ 3) with 8.
  rewrite HP, Z.quot_div_nonneg by lia.
  pose proof (Z.div_mod (Width pb + 15) 16 ltac:(lia)).
  pose proof (Z.mod_pos_bound (Width pb + 15) 16 ltac:(lia)).
  apply Z.div_le_upper_bound; lia.
Qed.

Lemma plane_byte_wf i byte :
  0 <= i < NumPlanes pb ->
  plane_byte pb i byte = peek (PlaneData pb) (size * i + byte).
Proof.
  clear Hplanes.
  intros Hi. destruct Hwf as (_ & _ & _ & _ & _ & Hpl & _).
  rewrite list.Forall_forall in Hpl.
  unfold plane_byte. rewrite (Hpl i); [reflexivity|].
  apply elem_of_seqZ. lia.
Qed.

Lemma unused_plane_zero p :
  size * NumPlanes pb <= p < size * 8 -> peek (PlaneData pb) p = 0.
Proof.
  intros Hp. destruct planar_size_nonneg as [_ Hs].
  destruct Hwf as (_ & _ & _ & _ & Hlen & _ & Hz).
  rewrite Z.max_r in Hlen by lia.
  unfold peek. rewrite decide_True by nia.
  rewrite Forall_lookup in Hz.
  apply list_lookup_total_correct.
  destruct (lookup_lt_is_Some_2 (PlaneData pb) (Z.to_nat p)) as [v Hv];
    [lia|].
  rewrite Hv. f_equal.
  apply (Hz (Z.to_nat p - Z.to_nat (size * NumPlanes pb))%nat).
  rewrite lookup_drop, <- Hv. f_equal. nia.
Qed.

(** One byte of the transpose is the pixel the bit-serial loop builds. *)
Lemma transposed_gather byte j :
  0 <= byte < size -> 0 <= j <= 7 ->
  transposed (PlaneData pb) byte size j
  = gather pb 8 byte (7 - j) (Z.to_nat (NumPlanes pb)) 0.
Proof.
  intros Hbyte Hj. apply Z.bits_inj'. intros i Hi.
  rewrite transposed_bits, gather_bits by lia.
  rewrite Z2Nat.id by lia.
  destruct (Z.ltb_spec i (NumPlanes pb)) as [Hlt|Hge].
  - replace (i <? 8) with true by lia. cbn [andb].
    rewrite plane_byte_wf by lia. do 2 f_equal. lia.
  - cbn [andb]. destruct (Z.ltb_spec i 8) as [Hlt8|Hge8]; [|reflexivity].
    cbn [andb]. rewrite unused_plane_zero; [apply Z.testbit_0_l|].
    nia.
Qed.

(** *** The column loops *)

Lemma serial_pixels_fst bits byte n : forall x out dest,
  (serial_pixels pb bits byte n x out dest).1 = out + Z.of_nat n.
Proof.
  induction n as [|n IH]; intros x out dest; cbn [serial_pixels fst].
  - lia.
  - rewrite IH. lia.
Qed.

Lemma serial_pixels_app bits byte a b : forall x out dest,
  serial_pixels pb bits byte (a + b) x out dest
  = serial_pixels pb bits byte b (x + Z.of_nat a)
      (serial_pixels pb bits byte a x out dest).1
      (serial_pixels pb bits byte a x out dest).2.
Proof.
  induction a as [|a IH]; intros x out dest.
  - cbn [serial_pixels Nat.add fst snd]. now rewrite Z.add_0_r.
  - cbn [serial_pixels Nat.add]. rewrite IH.
    replace (x + Z.of_nat (S a)) with (x + 1 + Z.of_nat a) by lia.
    reflexivity.
Qed.

Lemma serial_pixels_ext bits byte byte' n : forall x out dest,
  (forall c, x <= c < x + Z.of_nat n -> byte c = byte' c) ->
  serial_pixels pb bits byte n x out dest
  = serial_pixels pb bits byte' n x out dest.
Proof.
  induction n as [|n IH]; intros x out dest Hext; [reflexivity|].
  cbn [serial_pixels]. rewrite (Hext x) by lia.
  apply IH. intros c Hc. apply Hext. lia.
Qed.

(** The stores of [rotate8x8] are those of the bit-serial loop over the
    same eight columns. *)
Lemma pokes_serial (t : Z -> Z) byte x0 out0 m : forall j0 dest,
  (forall j, j0 <= j < j0 + Z.of_nat m ->
     t j = gather pb 8 (byte (x0 + j)) (7 - Z.land (x0 + j) 7)
             (Z.to_nat (NumPlanes pb)) 0) ->
  foldl (λ d j, poke d (out0 + j * 1) (t j)) dest (seqZ j0 (Z.of_nat m))
  = (serial_pixels pb 8 byte m (x0 + j0) (out0 + j0) dest).2.
Proof.
  induction m as [|m IH]; intros j0 dest Ht; [reflexivity|].
  rewrite Nat2Z.inj_succ, seqZ_cons by lia.
  cbn [foldl serial_pixels].
  replace (Z.pred (Z.succ (Z.of_nat m))) with (Z.of_nat m) by lia.
  rewrite IH by (intros; apply Ht; lia).
  rewrite (Ht j0) by lia.
  replace (out0 + j0 * 1) with (out0 + j0) by lia.
  replace (x0 + Z.succ j0) with (x0 + j0 + 1) by lia.
  replace (out0 + Z.succ j0) with (out0 + j0 + 1) by lia.
  reflexivity.
Qed.

Lemma group_columns xg j :
  0 <= xg -> 0 <= j < 8 ->
  Z.shiftr (8 * xg + j) 3 = xg /\ Z.land (8 * xg + j) 7 = j.
Proof.
  intros Hxg Hj. split.
  - rewrite Z.shiftr_div_pow2 by lia. change (2 ^ 3) with 8.
    apply (div_block (8 * xg + j) 8 xg); lia.
  - change 7 with (Z.ones 3). rewrite Z.land_ones by lia.
    change (2 ^ 3) with 8. symmetry.
    apply (Z.mod_unique_pos (8 * xg + j) 8 xg j); lia.
Qed.

Lemma fast_groups_serial n : forall inp x out dest,
  0 <= x -> 0 <= inp -> x + Z.of_nat n <= Pitch pb ->
  inp + Pitch pb <= size ->
  fast_groups pb n inp x out dest
  = serial_pixels pb 8 (λ c, inp + Z.shiftr c 3) (8 * n) (8 * x) out dest.
Proof.
  induction n as [|n IH]; intros inp x out dest Hx Hinp Hfit Hrow;
    [reflexivity|].
  cbn [fast_groups].
  replace (8 * S n)%nat with (8 + 8 * n)%nat by lia.
  rewrite serial_pixels_app, serial_pixels_fst.
  rewrite IH by lia.
  replace (8 * (x + 1)) with (8 * x + Z.of_nat 8) by lia.
  replace (out + 8) with (out + Z.of_nat 8) by lia.
  f_equal.
  unfold rotate8x8.
  pose proof (pokes_serial (transposed (PlaneData pb) (inp + x) size)
                (λ c, inp + Z.shiftr c 3) (8 * x) out 8%nat 0 dest) as Hp.
  rewrite !Z.add_0_r in Hp. apply Hp.
  intros j Hj. destruct (group_columns x j) as [-> ->]; [lia | lia|].
  apply transposed_gather; lia.
Qed.

(** *** The row loops *)

Lemma chunky8_rows_serial e n : forall y out dest,
  0 <= y -> y + Z.of_nat n <= Height pb ->
  chunky8_rows pb e n (y * Pitch pb) out dest
  = serial_rows pb 8 e n (y * Pitch pb) out dest.
Proof.
  destruct planar_size_nonneg as [HP Hs].
  pose proof planar_groups_fit as Hfit.
  assert (0 <= Width pb) as HW by (destruct Hwf; assumption).
  assert (0 <= Z.shiftr (Width pb) 3) as Hg by (apply Z.shiftr_nonneg; lia).
  assert (8 * Z.shiftr (Width pb) 3 <= Width pb) as Hg8.
  { rewrite Z.shiftr_div_pow2 by lia. change (2 ^ 3) with 8.
    pose proof (Z.div_mod (Width pb) 8 ltac:(lia)).
    pose proof (Z.mod_pos_bound (Width pb) 8 ltac:(lia)). lia. }
  induction n as [|n IH]; intros y out dest Hy Hn; [reflexivity|].
  cbn [chunky8_rows serial_rows].
  replace (y * Pitch pb + Pitch pb) with ((y + 1) * Pitch pb) by lia.
  rewrite IH by lia.
  set (g := Z.to_nat (Z.shiftr (Width pb) 3)).
  assert (Z.of_nat g = Z.shiftr (Width pb) 3) as HgZ by (subst g; lia).
  rewrite fast_groups_serial by nia.
  replace (Z.to_nat (Width pb))
    with (8 * g + Z.to_nat (Width pb - Z.shiftl (Z.of_nat g) 3))%nat.
  2:{ rewrite Z.shiftl_mul_pow2 by lia. change (2 ^ 3) with 8. lia. }
  rewrite (serial_pixels_app 8 (λ x, y * Pitch pb + Z.shiftr x 3)).
  change (8 * 0) with 0. rewrite Z.add_0_l.
  replace (Z.of_nat (8 * g)) with (Z.shiftl (Z.of_nat g) 3)
    by (rewrite Z.shiftl_mul_pow2 by lia; change (2 ^ 3) with 8; lia).
  rewrite (serial_pixels_ext 8 (λ _, y * Pitch pb + Z.of_nat g)
             (λ x, y * Pitch pb + Z.shiftr x 3)); [reflexivity|].
  intros c Hc. f_equal. symmetry.
  rewrite Z.shiftl_mul_pow2 in Hc by lia. change (2 ^ 3) with 8 in Hc.
  rewrite Z.shiftr_div_pow2 by lia. change (2 ^ 3) with 8.
  apply (div_block c 8 (Z.of_nat g)). lia.
  rewrite Z.shiftr_div_pow2 in HgZ by lia. change (2 ^ 3) with 8 in HgZ.
  pose proof (Z.div_mod (Width pb) 8 ltac:(lia)).
  pose proof (Z.mod_pos_bound (Width pb) 8 ltac:(lia)). lia.
Qed.

(** *** What the bit-serial loops leave in the destination *)

Lemma serial_pixels_deref bits byte n : forall x out dest,
  0 <= out -> out + Z.of_nat n <= Z.of_nat (length dest) ->
  length (serial_pixels pb bits byte n x out dest).2 = length dest
  /\ forall p,
       deref (serial_pixels pb bits byte n x out dest).2 p
       = if decide (out <= p < out + Z.of_nat n)
         then Some (gather pb bits (byte (x + (p - out)))
                      (7 - Z.land (x + (p - out)) 7)
                      (Z.to_nat (NumPlanes pb)) 0)
         else deref dest p.
Proof.
  induction n as [|n IH]; intros x out dest Hout Hlen.
  - cbn [serial_pixels snd]. split; [reflexivity|].
    intros p. rewrite decide_False by lia. reflexivity.
  - cbn [serial_pixels].
    destruct (IH (x + 1) (out + 1)
                (poke dest out
                   (gather pb bits (byte x) (7 - Z.land x 7)
                      (Z.to_nat (NumPlanes pb)) 0))) as [H1 H2];
      [lia | rewrite length_poke; lia|].
    split; [now rewrite H1, length_poke|].
    intros p. rewrite H2, deref_poke.
    destruct (decide (p = out)) as [->|Hne].
    + rewrite decide_False by lia. rewrite decide_True by lia.
      rewrite decide_True by lia.
      replace (x + (out - out)) with x by lia. reflexivity.
    + destruct (decide (out + 1 <= p < out + 1 + Z.of_nat n)) as [Hin|Hnin].
      * rewrite decide_True by lia.
        replace (x + 1 + (p - (out + 1))) with (x + (p - out)) by lia.
        reflexivity.
      * rewrite decide_False by lia. rewrite decide_False by lia.
        reflexivity.
Qed.

Lemma serial_rows_deref bits e n : forall inp out dest,
  0 <= out -> 0 <= e -> 0 <= Width pb ->
  out + Z.of_nat n * (Width pb + e) <= Z.of_nat (length dest) ->
  length (serial_rows pb bits e n inp out dest) = length dest
  /\ (forall p, p < out ->
        deref (serial_rows pb bits e n inp out dest) p = deref dest p)
  /\ (forall r c, 0 <= r < Z.of_nat n -> 0 <= c < Width pb ->
        deref (serial_rows pb bits e n inp out dest)
              (out + r * (Width pb + e) + c)
        = Some (gather pb bits (inp + r * Pitch pb + Z.shiftr c 3)
                  (7 - Z.land c 7) (Z.to_nat (NumPlanes pb)) 0)).
Proof.
  clear Hwf Hplanes.
  induction n as [|n IH]; intros inp out dest Hout He HW Hlen.
  - cbn [serial_rows]. split; [reflexivity|]. split; [reflexivity | lia].
  - cbn [serial_rows]. rewrite serial_pixels_fst.
    assert (Z.of_nat (S n) * (Width pb + e)
            = Width pb + e + Z.of_nat n * (Width pb + e)) as HS by lia.
    rewrite HS in Hlen.
    assert (0 <= Z.of_nat n * (Width pb + e)) as Hrest by nia.
    destruct (serial_pixels_deref bits (λ x, inp + Z.shiftr x 3)
                (Z.to_nat (Width pb)) 0 out dest) as [H1 H2]; [lia | lia|].
    set (d1 := (serial_pixels pb bits _ _ 0 out dest).2) in *.
    rewrite Z2Nat.id by lia.
    destruct (IH (inp + Pitch pb) (out + Width pb + e) d1)
      as (H3 & H4 & H5); [lia | lia | lia | lia|].
    split; [congruence|]. split.
    + intros p Hp. rewrite H4 by lia. rewrite H2.
      rewrite decide_False by lia. reflexivity.
    + intros r c Hr Hc. destruct (decide (r = 0)) as [->|Hr0].
      * rewrite H4 by lia. rewrite H2.
        rewrite decide_True by lia.
        replace (0 + (out + 0 * (Width pb + e) + c - out)) with c by lia.
        do 2 f_equal. lia.
      * replace (out + r * (Width pb + e) + c)
          with (out + Width pb + e + (r - 1) * (Width pb + e) + c) by lia.
        rewrite H5 by lia. do 2 f_equal. lia.
Qed.
End PlanarFacts.

(** The transposed groups and the left-over columns together store what
    the bit-serial loop stores. *)
Lemma ToChunky_is_serial pb dest destextrawidth :
  wf_planar pb -> 1 <= NumPlanes pb <= 8 ->
  ToChunky pb dest destextrawidth = ToChunky_serial pb dest destextrawidth.
Proof.
  intros Hwf Hplanes.
  assert (0 <= Height pb) as HH by (destruct Hwf as (_ & ? & _); assumption).
  unfold ToChunky, ToChunky_serial.
  rewrite decide_False by lia. rewrite decide_True by lia.
  change 0 with (0 * Pitch pb) at 1 3.
  apply chunky8_rows_serial; try assumption; lia.
Qed.

(** The pixel the bit-serial loop stores for [(x, y)], bit by bit. *)
Lemma ToChunky_serial_bits pb dest destextrawidth :
  wf_planar pb -> 1 <= NumPlanes pb <= 8 -> 0 <= destextrawidth ->
  Height pb * (Width pb + destextrawidth) <= Z.of_nat (length dest) ->
  length (ToChunky_serial pb dest destextrawidth) = length dest
  /\ forall x y, 0 <= x < Width pb -> 0 <= y < Height pb ->
       exists v,
         ToChunky_serial pb dest destextrawidth
           !! Z.to_nat (y * (Width pb + destextrawidth) + x) = Some v
         /\ forall i, 0 <= i ->
              Z.testbit v i = (i <? NumPlanes pb) && plane_sample pb i x y.
Proof.
  intros Hwf Hplanes He Hlen.
  assert (0 <= Width pb /\ 0 <= Height pb) as [HW HH]
    by (destruct Hwf as (? & ? & _); split; assumption).
  unfold ToChunky_serial.
  destruct (serial_rows_deref pb 8 destextrawidth (Z.to_nat (Height pb))
              0 0 dest) as (H1 & _ & H3); try lia.
  split; [exact H1|].
  intros x y Hx Hy.
  specialize (H3 y x ltac:(lia) Hx).
  rewrite !Z.add_0_l in H3.
  unfold deref in H3. rewrite decide_True in H3 by nia.
  assert (Z.land x 7 = x `mod` 8) as Hland
    by (change 7 with (Z.ones 3); now rewrite Z.land_ones by lia).
  assert (Z.shiftr x 3 = x `div` 8) as Hshift
    by (now rewrite Z.shiftr_div_pow2 by lia).
  rewrite Hland, Hshift in H3.
  pose proof (Z.mod_pos_bound x 8 ltac:(lia)) as Hmod.
  assert (0 <= x `div` 8) as Hdiv by (apply Z.div_pos; lia).
  eexists. split; [exact H3|].
  intros i Hi. rewrite gather_bits by lia. rewrite Z2Nat.id by lia.
  destruct (Z.ltb_spec i (NumPlanes pb)) as [Hlt|Hge]; [|reflexivity].
  cbn [andb]. rewrite plane_byte_wf by (assumption || lia).
  unfold plane_sample, peek.
  destruct (planar_size_nonneg pb Hwf) as [HP Hs].
  rewrite decide_True by nia.
  do 3 f_equal. lia.
Qed.

(** C7: for a planar bitmap of one to eight planes laid out as the
    constructor leaves it, ToChunky stores for every pixel [(x, y)] the
    value whose bit [i] is, for [i < NumPlanes], bit [7 - x mod 8] of
    plane [i]'s byte at offset [y * Pitch + x / 8], and 0 for every
    higher [i]: plane 0 is the least significant bit.  The result is, slot
    for slot, what the bit-serial loop applied to every column stores:
    the transposed groups of eight columns and the bit-serial handling of
    the columns left over come to the same. *)
Theorem ToChunky_planes pb dest destextrawidth :
  wf_planar pb -> 1 <= NumPlanes pb <= 8 -> 0 <= destextrawidth ->
  Height pb * (Width pb + destextrawidth) <= Z.of_nat (length dest) ->
  ToChunky pb dest destextrawidth = ToChunky_serial pb dest destextrawidth
  /\ length (ToChunky pb dest destextrawidth) = length dest
  /\ forall x y, 0 <= x < Width pb -> 0 <= y < Height pb ->
       exists v,
         ToChunky pb dest destextrawidth
           !! Z.to_nat (y * (Width pb + destextrawidth) + x) = Some v
         /\ forall i, 0 <= i ->
              Z.testbit v i = (i <? NumPlanes pb) && plane_sample pb i x y.
Proof.
  intros Hwf Hplanes He Hlen.
  pose proof (ToChunky_is_serial pb dest destextrawidth Hwf Hplanes) as Heq.
  split; [exact Heq|]. rewrite Heq.
  now apply ToChunky_serial_bits.
Qed.

(** The constructor establishes the layout. *)
Lemma new_wf w h nPlanes pb :
  0 <= w -> 0 <= h -> new w h nPlanes = Some pb -> wf_planar pb.
Proof.
  intros Hw Hh. unfold new.
  destruct (decide (0 <= nPlanes /\ nPlanes < 32)) as [Hn|Hn];
    [|now rewrite option_guard_False].
  rewrite option_guard_True by exact Hn. cbn [mbind option_bind].
  intros Heq. apply (inj Some) in Heq. subst pb.
  unfold wf_planar. cbn [Width Height Pitch NumPlanes PlaneData Planes].
  set (pitch := (w + 15) `quot` 16 * 2).
  assert (0 <= pitch).
  { subst pitch. rewrite Z.quot_div_nonneg by lia.
    pose proof (Z.div_pos (w + 15) 16). lia. }
  repeat split; try lia.
  - now rewrite length_replicate.
  - apply list.Forall_forall. intros i Hi. apply elem_of_seqZ in Hi.
    rewrite list_lookup_fmap, lookup_seqZ_lt by lia.
    rewrite Z2Nat.id, Z.add_0_l by lia. cbn [fmap option_fmap option_map].
    now rewrite decide_True by lia.
  - apply Forall_drop, Forall_replicate. reflexivity.
Qed.

(** A single plane filled by [FillBitplane] deinterleaves to pixels that
    are all 1 when it was set and all 0 when it was cleared. *)
Lemma ToChunky_filled_plane w h (set : bool) pb0 pb dest destextrawidth :
  0 <= w -> 0 <= h ->
  new w h 1 = Some pb0 -> FillBitplane pb0 0 set = Some pb ->
  0 <= destextrawidth ->
  h * (w + destextrawidth) <= Z.of_nat (length dest) ->
  forall x y, 0 <= x < w -> 0 <= y < h ->
    ToChunky pb dest destextrawidth !! Z.to_nat (y * (w + destextrawidth) + x)
    = Some (if set then 1 else 0).
Proof.
  intros Hw Hh Hnew Hfill He Hlen x y Hx Hy.
  pose proof (new_wf w h 1 pb0 Hw Hh Hnew) as Hwf0.
  unfold new in Hnew. rewrite option_guard_True in Hnew by lia.
  cbn [mbind option_bind] in Hnew. apply (inj Some) in Hnew. subst pb0.
  set (pitch := (w + 15) `quot` 16 * 2) in *.
  assert (0 <= pitch /\ 0 <= pitch * h) as [Hp Hs].
  { destruct (planar_size_nonneg _ Hwf0) as [H1 H2]. split; assumption. }
  unfold FillBitplane in Hfill.
  cbn [Width Height Pitch NumPlanes PlaneData Planes] in Hfill.
  rewrite option_guard_True in Hfill by lia.
  rewrite list_lookup_fmap, lookup_seqZ_lt in Hfill by lia.
  cbn [fmap option_fmap option_map mbind option_bind] in Hfill.
  rewrite decide_True in Hfill by lia.
  cbn [mbind option_bind] in Hfill. apply (inj Some) in Hfill. subst pb.
  set (fill := if set then 255 else 0) in *.
  set (planes := (λ i, if decide (i < 1) then Some (pitch * h * i) else None)
                   <$> seqZ 0 32) in *.
  replace (Z.to_nat (pitch * h * (0 + Z.of_nat (Z.to_nat 0)))) with 0%nat
    by lia.
  replace (Z.to_nat (pitch * h * Z.max 1 8)) with (Z.to_nat (pitch * h) * 8)%nat
    by lia.
  set (m := Z.to_nat (pitch * h)).
  assert (list_inserts 0 (replicate m fill) (replicate (m * 8) 0)
          = replicate m fill ++ replicate (m * 7) 0) as Hdata.
  { replace (m * 8)%nat with (m + m * 7)%nat by lia.
    rewrite replicate_add. apply list_inserts_0_r.
    now rewrite !length_replicate. }
  rewrite Hdata.
  set (pb := mkPlanar w h pitch 1 (replicate m fill ++ replicate (m * 7) 0)
               planes).
  assert (wf_planar pb) as Hwf.
  { destruct Hwf0 as (H1 & H2 & H3 & H4 & H5 & H6 & H7).
    cbn [Width Height Pitch NumPlanes PlaneData Planes] in *.
    unfold wf_planar. subst pb.
    cbn [Width Height Pitch NumPlanes PlaneData Planes].
    repeat split; try assumption; try lia.
    - rewrite length_app, !length_replicate. subst m. lia.
    - replace (Z.to_nat (pitch * h * 1)) with (length (replicate m fill))
        by (rewrite length_replicate; subst m; lia).
      rewrite drop_app_length. apply Forall_replicate. reflexivity. }
  rewrite ToChunky_is_serial by (exact Hwf || (simpl; lia)).
  destruct (ToChunky_serial_bits pb dest destextrawidth Hwf) as (_ & Hpix);
    [simpl; lia | lia | simpl; lia|].
  destruct (Hpix x y Hx Hy) as (v & Hv & Hbits).
  clear Hpix Hwf. subst pb.
  cbn [Width NumPlanes] in Hv, Hbits. rewrite Hv. f_equal.
  apply Z.bits_inj'. intros i Hi. rewrite Hbits by exact Hi.
  cbn [NumPlanes].
  pose proof (Z.mod_pos_bound x 8 ltac:(lia)) as Hmod.
  assert (0 <= x `div` 8) as Hdiv by (apply Z.div_pos; lia).
  assert (x `div` 8 < pitch) as Hcol.
  { pose proof (planar_groups_fit _ Hwf0) as Hfit.
    cbn [Width Pitch] in Hfit. rewrite Z.shiftr_div_pow2 in Hfit by lia.
    change (2 ^ 3) with 8 in Hfit.
    destruct (decide (x `div` 8 < w `div` 8)) as [?|Hlast]; [lia|].
    assert (x `div` 8 = w `div` 8) as Heq.
    { assert (x `div` 8 <= w `div` 8) by (apply Z.div_le_mono; lia). lia. }
    subst pitch. rewrite Z.quot_div_nonneg by lia.
    pose proof (Z.div_mod x 8 ltac:(lia)).
    pose proof (Z.div_mod w 8 ltac:(lia)).
    pose proof (Z.mod_pos_bound w 8 ltac:(lia)).
    pose proof (Z.div_mod (w + 15) 16 ltac:(lia)).
    pose proof (Z.mod_pos_bound (w + 15) 16 ltac:(lia)).
    lia. }
  destruct (Z.ltb_spec i 1) as [Hlt|Hge].
  - assert (i = 0) as -> by lia. cbn [andb].
    unfold plane_sample. cbn [Width Height Pitch PlaneData].
    rewrite lookup_total_app_l
      by (rewrite length_replicate; subst m; nia).
    rewrite lookup_total_replicate_2 by (subst m; nia).
    subst fill. destruct set.
    + apply (below_all (λ r, Z.testbit 255 (7 - r) = Z.testbit 1 0) 8);
        [apply (bool_decide_unpack _); vm_compute; exact I | exact Hmod].
    + rewrite Z.testbit_0_l. reflexivity.
  - cbn [andb]. destruct set.
    + destruct i; try lia; reflexivity.
    + now rewrite Z.testbit_0_l.
Qed.
End PlanarToChunky.

(** ** More of planar.cpp *)

Section PlanarMore.
Import Planar.

Lemma serial_rows_planes pb bits dest e :
  wf_planar pb -> 1 <= NumPlanes pb <= bits -> 0 <= e ->
  Height pb * (Width pb + e) <= Z.of_nat (length dest) ->
  length (serial_rows pb bits e (Z.to_nat (Height pb)) 0 0 dest) = length dest
  /\ forall x y, 0 <= x < Width pb -> 0 <= y < Height pb ->
       exists v,
         serial_rows pb bits e (Z.to_nat (Height pb)) 0 0 dest
           !! Z.to_nat (y * (Width pb + e) + x) = Some v
         /\ forall i, 0 <= i ->
              Z.testbit v i = (i <? NumPlanes pb) && plane_sample pb i x y.
Proof.
  intros Hwf Hplanes He Hlen.
  assert (0 <= Width pb /\ 0 <= Height pb) as [HW HH]
    by (destruct Hwf as (? & ? & _); split; assumption).
  destruct (serial_rows_deref pb bits e (Z.to_nat (Height pb))
              0 0 dest) as (H1 & _ & H3); try lia.
  split; [exact H1|].
  intros x y Hx Hy.
  specialize (H3 y x ltac:(lia) Hx).
  rewrite !Z.add_0_l in H3.
  unfold deref in H3. rewrite decide_True in H3 by nia.
  assert (Z.land x 7 = x `mod` 8) as Hland
    by (change 7 with (Z.ones 3); now rewrite Z.land_ones by lia).
  assert (Z.shiftr x 3 = x `div` 8) as Hshift
    by (now rewrite Z.shiftr_div_pow2 by lia).
  rewrite Hland, Hshift in H3.
  pose proof (Z.mod_pos_bound x 8 ltac:(lia)) as Hmod.
  assert (0 <= x `div` 8) as Hdiv by (apply Z.div_pos; lia).
  eexists. split; [exact H3|].
  intros i Hi. rewrite gather_bits by lia. rewrite Z2Nat.id by lia.
  destruct (Z.ltb_spec i (NumPlanes pb)) as [Hlt|Hge]; [|reflexivity].
  cbn [andb]. rewrite plane_byte_wf by (assumption || lia).
  unfold plane_sample, peek.
  destruct (planar_size_nonneg pb Hwf) as [HP Hs].
  rewrite decide_True by nia.
  do 3 f_equal. lia.
Qed.

(** Every branch of [ToChunky] leaves in each pixel cell the value whose
    bit [i] is the sample of plane [i]. *)
Lemma ToChunky_bits pb dest e :
  wf_planar pb -> 1 <= NumPlanes pb -> 0 <= e ->
  Height pb * (Width pb + e) <= Z.of_nat (length dest) ->
  length (ToChunky pb dest e) = length dest
  /\ forall x y, 0 <= x < Width pb -> 0 <= y < Height pb ->
       exists v,
         ToChunky pb dest e !! Z.to_nat (y * (Width pb + e) + x) = Some v
         /\ forall i, 0 <= i ->
              Z.testbit v i = (i <? NumPlanes pb) && plane_sample pb i x y.
Proof.
  intros Hwf Hplanes He Hlen.
  assert (NumPlanes pb < 32) as H32 by (destruct Hwf as (_&_&_&?&_); lia).
  destruct (decide (NumPlanes pb <= 8)) as [H8|H8].
  - rewrite ToChunky_is_serial by (assumption || lia).
    apply serial_rows_planes; (assumption || lia).
  - unfold ToChunky. rewrite decide_False by lia.
    rewrite decide_False by lia.
    case_decide; apply serial_rows_planes; (assumption || lia).
Qed.

Lemma bits_below v n (f : Z -> bool) :
  0 <= n -> (forall i, 0 <= i -> Z.testbit v i = (i <? n) && f i) ->
  0 <= v < 2 ^ n.
Proof.
  intros Hn Hb. assert (v = v `mod` 2 ^ n) as ->.
  { apply Z.bits_inj'. intros i Hi. rewrite Z.testbit_mod_pow2 by lia.
    rewrite Hb by lia. destruct (i <? n); reflexivity. }
  apply Z.mod_pos_bound. apply Z.pow_pos_nonneg; lia.
Qed.

(** X1: with nine or more planes [ToChunky] stores one element for every
    pixel, and bit [i] of the element is the sample of plane [i]; the bits
    from [NumPlanes] up are clear, so the element is below
    [2 ^ NumPlanes]. *)
Theorem ToChunky_wide_planes pb dest destextrawidth :
  wf_planar pb -> 9 <= NumPlanes pb -> 0 <= destextrawidth ->
  Height pb * (Width pb + destextrawidth) <= Z.of_nat (length dest) ->
  length (ToChunky pb dest destextrawidth) = length dest
  /\ forall x y, 0 <= x < Width pb -> 0 <= y < Height pb ->
       exists v,
         ToChunky pb dest destextrawidth
           !! Z.to_nat (y * (Width pb + destextrawidth) + x) = Some v
         /\ 0 <= v < 2 ^ NumPlanes pb
         /\ forall i, 0 <= i ->
              Z.testbit v i = (i <? NumPlanes pb) && plane_sample pb i x y.
Proof.
  intros Hwf Hplanes He Hlen.
  destruct (ToChunky_bits pb dest destextrawidth Hwf) as [H1 H2];
    [lia | exact He | exact Hlen|].
  split; [exact H1|]. intros x y Hx Hy.
  destruct (H2 x y Hx Hy) as (v & Hv & Hbits).
  exists v. split; [exact Hv|]. split; [|exact Hbits].
  apply (bits_below v (NumPlanes pb) (λ i, plane_sample pb i x y));
    [lia | exact Hbits].
Qed.

Lemma serial_rows_frame pb bits e n : forall inp out dest,
  0 <= out -> 0 <= e -> 0 <= Width pb ->
  out + Z.of_nat n * (Width pb + e) <= Z.of_nat (length dest) ->
  forall p,
    (forall r c, 0 <= r < Z.of_nat n -> 0 <= c < Width pb ->
       p <> out + r * (Width pb + e) + c) ->
    deref (serial_rows pb bits e n inp out dest) p = deref dest p.
Proof.
  induction n as [|n IH]; intros inp out dest Hout He HW Hlen p Hp.
  - reflexivity.
  - cbn [serial_rows]. rewrite serial_pixels_fst.
    assert (Z.of_nat (S n) * (Width pb + e)
            = Width pb + e + Z.of_nat n * (Width pb + e)) as HS by lia.
    rewrite HS in Hlen.
    assert (0 <= Z.of_nat n * (Width pb + e)) as Hrest by nia.
    destruct (serial_pixels_deref pb bits (λ x, inp + Z.shiftr x 3)
                (Z.to_nat (Width pb)) 0 out dest) as [H1 H2]; [lia | lia|].
    rewrite Z2Nat.id by lia.
    rewrite IH; [ | lia | lia | lia | rewrite H1; lia | ].
    + rewrite H2. rewrite decide_False; [reflexivity|].
      intros Hin. apply (Hp 0 (p - out)); lia.
    + intros r c Hr Hc Heq. apply (Hp (r + 1) c); lia.
Qed.

(** X2: [ToChunky] writes the pixel cells and nothing else: the
    [destextrawidth] cells after each row and everything after the last row
    keep what they held, whatever the number of planes. *)
Theorem ToChunky_frame pb dest destextrawidth :
  wf_planar pb -> 0 <= destextrawidth ->
  Height pb * (Width pb + destextrawidth) <= Z.of_nat (length dest) ->
  forall k : nat, ~ pixel_cell pb destextrawidth k ->
    ToChunky pb dest destextrawidth !! k = dest !! k.
Proof.
  intros Hwf He Hlen k Hk.
  assert (0 <= Width pb /\ 0 <= Height pb) as [HW HH]
    by (destruct Hwf as (? & ? & _); split; assumption).
  assert (forall bits,
            serial_rows pb bits destextrawidth (Z.to_nat (Height pb)) 0 0 dest
              !! k = dest !! k) as Hrows.
  { intros bits.
    pose proof (serial_rows_frame pb bits destextrawidth
                  (Z.to_nat (Height pb)) 0 0 dest ltac:(lia) He HW
                  ltac:(lia) (Z.of_nat k)) as Hf.
    unfold deref in Hf. rewrite !decide_True, Nat2Z.id in Hf by lia.
    apply Hf. intros r c Hr Hc Heq. apply Hk.
    exists c, r. split; [lia|]. split; [lia|]. nia. }
  destruct (decide (NumPlanes pb <= 0)) as [H0|H0].
  - unfold ToChunky. now rewrite decide_True by lia.
  - destruct (decide (NumPlanes pb <= 8)) as [H8|H8].
    + rewrite ToChunky_is_serial by (assumption || lia). apply Hrows.
    + unfold ToChunky. rewrite !decide_False by lia.
      case_decide; apply Hrows.
Qed.

(** *** FillBitplane *)

Lemma FillBitplane_Some pb plane (set : bool) :
  wf_planar pb -> 0 <= plane < NumPlanes pb ->
  FillBitplane pb plane set
  = Some (mkPlanar (Width pb) (Height pb) (Pitch pb) (NumPlanes pb)
            (list_inserts (Z.to_nat (Pitch pb * Height pb * plane))
               (replicate (Z.to_nat (Pitch pb * Height pb))
                  (if set then 0xFF else 0))
               (PlaneData pb))
            (Planes pb)).
Proof.
  intros Hwf Hp. unfold FillBitplane.
  rewrite option_guard_True by lia. cbn [mbind option_bind].
  destruct Hwf as (_ & _ & _ & _ & _ & Hpl & _).
  rewrite list.Forall_forall in Hpl.
  rewrite (Hpl plane) by (apply elem_of_seqZ; lia).
  reflexivity.
Qed.

Lemma FillBitplane_wf pb pb' plane (set : bool) :
  wf_planar pb -> FillBitplane pb plane set = Some pb' -> wf_planar pb'.
Proof.
  intros Hwf Hfill.
  destruct (decide (0 <= plane < NumPlanes pb)) as [Hp|Hp].
  - rewrite FillBitplane_Some in Hfill by assumption.
    apply (inj Some) in Hfill. subst pb'.
    destruct (planar_size_nonneg pb Hwf) as [HP Hs].
    destruct Hwf as (H1 & H2 & H3 & H4 & H5 & H6 & H7).
    unfold wf_planar. cbn [Width Height Pitch NumPlanes PlaneData Planes].
    repeat split; try assumption; try lia.
    + now rewrite length_inserts.
    + rewrite Forall_lookup in H7 |- *. intros j b Hb.
      rewrite lookup_drop in Hb.
      rewrite list_lookup_inserts_ge in Hb
        by (rewrite length_replicate; nia).
      apply (H7 j). now rewrite lookup_drop.
  - unfold FillBitplane in Hfill.
    rewrite option_guard_False in Hfill by lia. discriminate.
Qed.

Lemma column_byte_fits pb x :
  wf_planar pb -> 0 <= x < Width pb -> 0 <= x `div` 8 < Pitch pb.
Proof.
  intros Hwf Hx. destruct Hwf as (HW & HH & HP & _).
  split; [apply Z.div_pos; lia|].
  rewrite HP, Z.quot_div_nonneg by lia.
  pose proof (Z.div_mod x 8 ltac:(lia)).
  pose proof (Z.mod_pos_bound x 8 ltac:(lia)).
  pose proof (Z.div_mod (Width pb + 15) 16 ltac:(lia)).
  pose proof (Z.mod_pos_bound (Width pb + 15) 16 ltac:(lia)).
  lia.
Qed.

Lemma FillBitplane_sample pb pb' plane (set : bool) i x y :
  wf_planar pb -> FillBitplane pb plane set = Some pb' ->
  0 <= i -> 0 <= x < Width pb -> 0 <= y < Height pb ->
  plane_sample pb' i x y
  = if decide (i = plane) then set else plane_sample pb i x y.
Proof.
  intros Hwf Hfill Hi Hx Hy.
  assert (0 <= plane < NumPlanes pb) as Hp.
  { destruct (decide (0 <= plane < NumPlanes pb)) as [Hp|Hp]; [exact Hp|].
    unfold FillBitplane in Hfill.
    rewrite option_guard_False in Hfill by lia. discriminate. }
  rewrite FillBitplane_Some in Hfill by assumption.
  apply (inj Some) in Hfill. subst pb'.
  destruct (planar_size_nonneg pb Hwf) as [HP Hs].
  pose proof (column_byte_fits pb x Hwf Hx) as Hcol.
  pose proof (Z.mod_pos_bound x 8 ltac:(lia)) as Hmod.
  assert (length (PlaneData pb)
          = Z.to_nat (Pitch pb * Height pb * Z.max (NumPlanes pb) 8)) as Hlen
    by (destruct Hwf as (_ & _ & _ & _ & ? & _); assumption).
  unfold plane_sample. cbn [Width Height Pitch NumPlanes PlaneData Planes].
  set (size := Pitch pb * Height pb) in *.
  assert (0 <= y * Pitch pb + x `div` 8 < size) as Hin by (subst size; nia).
  destruct (decide (i = plane)) as [->|Hne].
  - rewrite list_lookup_total_inserts;
      [| rewrite length_replicate; nia | rewrite Hlen; nia].
    rewrite lookup_total_replicate_2 by nia.
    destruct set.
    + apply (below_all (λ r, Z.testbit 255 (7 - r) = true) 8);
        [apply (bool_decide_unpack _); vm_compute; exact I | exact Hmod].
    + apply Z.testbit_0_l.
  - f_equal. destruct (decide (i < plane)).
    + apply list_lookup_total_inserts_lt. nia.
    + apply list_lookup_total_inserts_ge. rewrite length_replicate. nia.
Qed.

(** X3: [FillBitplane] succeeds exactly for a plane the bitmap has.  It
    keeps the layout, and in the result every sample of that plane is
    [set] while the samples of the other planes are what they were. *)
Theorem FillBitplane_sets_plane pb plane (set : bool) :
  wf_planar pb ->
  (FillBitplane pb plane set = None <-> ~ (0 <= plane < NumPlanes pb))
  /\ forall pb', FillBitplane pb plane set = Some pb' ->
       wf_planar pb'
       /\ Width pb' = Width pb /\ Height pb' = Height pb
       /\ NumPlanes pb' = NumPlanes pb /\ Planes pb' = Planes pb
       /\ forall i x y, 0 <= i -> 0 <= x < Width pb -> 0 <= y < Height pb ->
            plane_sample pb' i x y
            = if decide (i = plane) then set else plane_sample pb i x y.
Proof.
  intros Hwf. split.
  - destruct (decide (0 <= plane < NumPlanes pb)) as [Hp|Hp].
    + rewrite FillBitplane_Some by assumption. split; [discriminate|tauto].
    + unfold FillBitplane. rewrite option_guard_False by lia. tauto.
  - intros pb' Hfill.
    split; [exact (FillBitplane_wf pb pb' plane set Hwf Hfill)|].
    assert (0 <= plane < NumPlanes pb) as Hp.
    { destruct (decide (0 <= plane < NumPlanes pb)) as [Hp|Hp]; [exact Hp|].
      unfold FillBitplane in Hfill.
      rewrite option_guard_False in Hfill by lia. discriminate. }
    pose proof Hfill as Heq. rewrite FillBitplane_Some in Heq by assumption.
    apply (inj Some) in Heq.
    repeat split; try (subst pb'; reflexivity).
    intros i x y Hi Hx Hy.
    now apply (FillBitplane_sample pb pb' plane set i x y).
Qed.

(** X4: filling plane [plane] and converting gives, in every pixel, the
    value the unfilled bitmap gives with bit [plane] set or cleared. *)
Theorem FillBitplane_ToChunky pb pb' plane (set : bool) dest destextrawidth :
  wf_planar pb -> FillBitplane pb plane set = Some pb' ->
  0 <= destextrawidth ->
  Height pb * (Width pb + destextrawidth) <= Z.of_nat (length dest) ->
  forall x y, 0 <= x < Width pb -> 0 <= y < Height pb ->
    exists v,
      ToChunky pb dest destextrawidth
        !! Z.to_nat (y * (Width pb + destextrawidth) + x) = Some v
      /\ ToChunky pb' dest destextrawidth
           !! Z.to_nat (y * (Width pb + destextrawidth) + x)
         = Some (if set then Z.setbit v plane else Z.clearbit v plane).
Proof.
  intros Hwf Hfill He Hlen x y Hx Hy.
  assert (0 <= plane < NumPlanes pb) as Hp.
  { destruct (decide (0 <= plane < NumPlanes pb)) as [Hp|Hp]; [exact Hp|].
    unfold FillBitplane in Hfill.
    rewrite option_guard_False in Hfill by lia. discriminate. }
  pose proof (FillBitplane_wf pb pb' plane set Hwf Hfill) as Hwf'.
  assert (Width pb' = Width pb /\ Height pb' = Height pb
          /\ NumPlanes pb' = NumPlanes pb) as (HW' & HH' & HN').
  { pose proof Hfill as Heq. rewrite FillBitplane_Some in Heq by assumption.
    apply (inj Some) in Heq. subst pb'. repeat split. }
  destruct (ToChunky_bits pb dest destextrawidth Hwf) as [_ H2];
    [lia | exact He | exact Hlen|].
  destruct (ToChunky_bits pb' dest destextrawidth Hwf') as [_ H2'];
    [lia | exact He | rewrite HW', HH'; exact Hlen|].
  rewrite HW', HH', HN' in H2'.
  destruct (H2 x y Hx Hy) as (v & Hv & Hbits).
  destruct (H2' x y Hx Hy) as (v' & Hv' & Hbits').
  exists v. split; [exact Hv|]. rewrite Hv'. f_equal.
  apply Z.bits_inj'. intros i Hi. rewrite Hbits' by exact Hi.
  rewrite (FillBitplane_sample pb pb' plane set i x y) by assumption.
  destruct set.
  - rewrite Z.setbit_eqb by lia. rewrite Hbits by exact Hi.
    destruct (decide (i = plane)) as [->|Hne].
    + rewrite Z.eqb_refl. replace (plane <? NumPlanes pb) with true by lia.
      reflexivity.
    + replace (plane =? i) with false by lia. reflexivity.
  - rewrite Z.clearbit_eqb by lia. rewrite Hbits by exact Hi.
    destruct (decide (i = plane)) as [->|Hne].
    + rewrite Z.eqb_refl. cbn [negb]. now rewrite !andb_false_r.
    + replace (plane =? i) with false by lia. cbn [negb].
      now rewrite andb_true_r.
Qed.

(** *** The constructors *)

Lemma new_Some w h nPlanes :
  0 <= nPlanes < 32 ->
  new w h nPlanes
  = Some (mkPlanar w h ((w + 15) `quot` 16 * 2) nPlanes
            (replicate
               (Z.to_nat ((w + 15) `quot` 16 * 2 * h * Z.max nPlanes 8)) 0)
            ((λ i, if decide (i < nPlanes)
                   then Some ((w + 15) `quot` 16 * 2 * h * i) else None)
               <$> seqZ 0 32)).
Proof.
  intros Hn. unfold new. rewrite option_guard_True by lia. reflexivity.
Qed.

Lemma new_inv w h nPlanes pb :
  new w h nPlanes = Some pb ->
  0 <= nPlanes < 32
  /\ pb = mkPlanar w h ((w + 15) `quot` 16 * 2) nPlanes
            (replicate
               (Z.to_nat ((w + 15) `quot` 16 * 2 * h * Z.max nPlanes 8)) 0)
            ((λ i, if decide (i < nPlanes)
                   then Some ((w + 15) `quot` 16 * 2 * h * i) else None)
               <$> seqZ 0 32).
Proof.
  intros Hnew.
  destruct (decide (0 <= nPlanes < 32)) as [Hn|Hn].
  - split; [exact Hn|]. rewrite new_Some in Hnew by exact Hn.
    apply (inj Some) in Hnew. now subst pb.
  - unfold new in Hnew. rewrite option_guard_False in Hnew by lia.
    discriminate.
Qed.

Lemma new_sample w h nPlanes pb i x y :
  0 <= w -> 0 <= h -> new w h nPlanes = Some pb ->
  0 <= i < nPlanes -> 0 <= x < w -> 0 <= y < h ->
  plane_sample pb i x y = false.
Proof.
  intros Hw Hh Hnew Hi Hx Hy.
  pose proof (new_wf w h nPlanes pb Hw Hh Hnew) as Hwf.
  pose proof (planar_size_nonneg pb Hwf) as [HP Hs].
  apply new_inv in Hnew as [_ ->].
  pose proof (column_byte_fits _ x Hwf Hx) as Hcol.
  cbn [Width Height Pitch] in HP, Hs, Hcol.
  unfold plane_sample. cbn [PlaneData Pitch Height].
  rewrite lookup_total_replicate_2 by nia. apply Z.testbit_0_l.
Qed.

(** X5: the constructor refuses the plane counts outside 0..31.  For
    a count within, and sizes the source's [int] arithmetic holds (the
    sum [w + 15] of planar.cpp 33, and the byte count
    [Pitch * Height * realplanes] of line 38), it gives a bitmap with the
    layout the conversions rely on; its rows are an even number of bytes,
    the least that holds [w] bits; and every sample of every plane is
    clear. *)
Theorem new_layout w h nPlanes :
  0 <= w -> 0 <= h -> w + 15 <= INT_MAX ->
  (~ (0 <= nPlanes < 32) -> new w h nPlanes = None)
  /\ (0 <= nPlanes < 32 ->
      (w + 15) `quot` 16 * 2 * h * Z.max nPlanes 8 <= INT_MAX ->
      exists pb,
        new w h nPlanes = Some pb
        /\ wf_planar pb /\ planes_layout pb
        /\ Width pb = w /\ Height pb = h /\ NumPlanes pb = nPlanes
        /\ Pitch pb `mod` 2 = 0 /\ w <= 8 * Pitch pb < w + 16
        /\ forall i x y, 0 <= i < nPlanes -> 0 <= x < w -> 0 <= y < h ->
             plane_sample pb i x y = false).
Proof.
  intros Hw Hh _. split.
  - intros Hn. unfold new. rewrite option_guard_False by lia. reflexivity.
  - intros Hrange _.
    destruct (new w h nPlanes) as [pb|] eqn:Hnew;
      [|rewrite new_Some in Hnew by exact Hrange; discriminate].
    exists pb. split; [reflexivity|].
    split; [exact (new_wf w h nPlanes pb Hw Hh Hnew)|].
    split; [|split; [|split; [|split; [|split; [|split]]]]];
      try (intros i x y; exact (new_sample w h nPlanes pb i x y Hw Hh Hnew));
      apply new_inv in Hnew as [Hn ->];
      cbn [Width Height Pitch NumPlanes PlaneData Planes];
      try reflexivity.
    + apply Z.mod_mul. lia.
    + rewrite Z.quot_div_nonneg by lia.
      pose proof (Z.div_mod (w + 15) 16 ltac:(lia)).
      pose proof (Z.mod_pos_bound (w + 15) 16 ltac:(lia)). lia.
Qed.

(** X6: converting a bitmap straight from the constructor gives pixel
    value 0 everywhere, for any number of planes from 1 to 31. *)
Theorem new_ToChunky_zero w h nPlanes pb dest destextrawidth :
  0 <= w -> 0 <= h -> 1 <= nPlanes ->
  new w h nPlanes = Some pb -> 0 <= destextrawidth ->
  h * (w + destextrawidth) <= Z.of_nat (length dest) ->
  forall x y, 0 <= x < w -> 0 <= y < h ->
    ToChunky pb dest destextrawidth !! Z.to_nat (y * (w + destextrawidth) + x)
    = Some 0.
Proof.
  intros Hw Hh Hn Hnew He Hlen x y Hx Hy.
  pose proof (new_wf w h nPlanes pb Hw Hh Hnew) as Hwf.
  assert (Width pb = w /\ Height pb = h /\ NumPlanes pb = nPlanes)
    as (HW & HH & HN).
  { pose proof Hnew as Heq. apply new_inv in Heq as [_ ->]. repeat split. }
  destruct (ToChunky_bits pb dest destextrawidth Hwf) as [_ H2];
    [lia | exact He | rewrite HW, HH; exact Hlen|].
  rewrite HW, HH in H2.
  destruct (H2 x y Hx Hy) as (v & Hv & Hbits).
  rewrite Hv. f_equal. apply Z.bits_inj'. intros i Hi.
  rewrite Hbits by exact Hi. rewrite Z.testbit_0_l, HN.
  destruct (Z.ltb_spec i nPlanes) as [Hlt|Hge]; [|reflexivity].
  exact (new_sample w h nPlanes pb i x y Hw Hh Hnew ltac:(lia) Hx Hy).
Qed.

Lemma list_inserts_self {A} (l : list A) (i n : nat) :
  list_inserts i (take n (drop i l)) l = l.
Proof.
  apply list_eq. intros j.
  destruct (decide (j < i)%nat) as [Hlt|Hge].
  { now apply list_lookup_inserts_lt. }
  destruct (decide (i + length (take n (drop i l)) <= j)%nat) as [Hhi|Hin].
  { now apply list_lookup_inserts_ge. }
  assert (j < length l)%nat as Hj.
  { rewrite length_take, length_drop in Hin. lia. }
  rewrite list_lookup_inserts by lia.
  rewrite length_take in Hin.
  rewrite lookup_take_lt by lia. rewrite lookup_drop. f_equal. lia.
Qed.

Lemma layout_lookup pb (k : nat) :
  planes_layout pb -> (k < 32)%nat ->
  Planes pb !! k
  = Some (if decide (Z.of_nat k < NumPlanes pb)
          then Some (Pitch pb * Height pb * Z.of_nat k) else None).
Proof.
  intros Hl Hk. rewrite Hl, list_lookup_fmap, lookup_seqZ_lt by lia.
  now rewrite Z.add_0_l.
Qed.

Lemma copy_planes_fold o (k : nat) :
  planes_layout o -> (k <= 32)%nat ->
  foldl (copy_plane o) (PlaneData o, []) (seqZ 0 (Z.of_nat k))
  = (PlaneData o, take k (Planes o)).
Proof.
  intros Hl. induction k as [|k IH]; intros Hk.
  - reflexivity.
  - rewrite seqZ_S, foldl_snoc, IH by lia. rewrite Z.add_0_l.
    unfold copy_plane. rewrite Nat2Z.id.
    rewrite (layout_lookup o k Hl) by lia.
    rewrite (take_S_r _ _ _ (layout_lookup o k Hl ltac:(lia))).
    cbn [fst snd]. case_decide; [|reflexivity].
    now rewrite list_inserts_self.
Qed.

(** X7: copying a bitmap that has the constructor's layout gives an equal
    bitmap: same dimensions, same bytes in every plane, same plane
    pointers.  Nothing of the fresh storage shows through. *)
Theorem PlanarBitmap_copy_same uninit o :
  wf_planar o -> planes_layout o -> PlanarBitmap_copy uninit o = o.
Proof.
  intros Hwf Hl.
  assert (length (PlaneData o)
          = Z.to_nat (Pitch o * Height o * Z.max (NumPlanes o) 8)) as Hlen
    by (destruct Hwf as (_ & _ & _ & _ & ? & _); assumption).
  assert (list_inserts 0
            (take (Z.to_nat (Pitch o * Height o * Z.max (NumPlanes o) 8))
               (PlaneData o))
            (new_bytes uninit (Pitch o * Height o * Z.max (NumPlanes o) 8))
          = PlaneData o) as Hdata.
  { rewrite take_ge by lia.
    rewrite <- (app_nil_r (PlaneData o)) at 1.
    apply list_inserts_0_l. now rewrite new_bytes_length. }
  unfold PlanarBitmap_copy. cbv zeta. rewrite Hdata.
  change 32 with (Z.of_nat 32).
  rewrite copy_planes_fold by (assumption || lia). cbn [fst snd].
  rewrite take_ge by (rewrite Hl, length_fmap, length_seqZ; lia).
  now destruct o.
Qed.

End PlanarMore.

(** ** More of chunky.cpp: filling and the constructors *)

Lemma Expand_pixels bm scalex scaley w h :
  1 <= scalex -> 1 <= scaley -> 0 < w -> 0 < h ->
  Width bm = w * scalex -> Height bm = h * scaley ->
  BytesPerPixel bm = 1 \/ BytesPerPixel bm = 2 \/ BytesPerPixel bm = 4 ->
  Pitch bm = Width bm * BytesPerPixel bm ->
  length (Pixels bm) = Z.to_nat (Pitch bm * Height bm) ->
  let bm' := Expand scalex scaley bm in
  Width bm' = Width bm /\ Height bm' = Height bm
  /\ Pitch bm' = Pitch bm /\ BytesPerPixel bm' = BytesPerPixel bm
  /\ length (Pixels bm') = length (Pixels bm)
  /\ forall x y i j,
       0 <= x < w -> 0 <= y < h -> 0 <= i < scalex -> 0 <= j < scaley ->
       pixel bm' (x * scalex + i) (y * scaley + j) = pixel bm x y.
Proof.
  intros Hsx Hsy Hw Hh HW HH Hbpp Hpitch Hlen.
  destruct bm as [W Ht P k px]. cbn [Width Height Pitch BytesPerPixel Pixels] in *.
  unfold Expand. cbn [Width Height Pitch BytesPerPixel Pixels].
  destruct (decide (scalex = 1 /\ scaley = 1)) as [[-> ->]|Hne].
  { cbv zeta. repeat split; try reflexivity.
    intros x y i j Hx Hy Hi Hj. do 2 f_equal; lia. }
  assert (0 < W /\ 0 < Ht) as [HW0 HH0] by nia.
  destruct (decide (k = 1)) as [->|Hk1].
  - (* bytes *)
    rewrite Z.mul_1_r in Hpitch. subst P.
    assert (length px = Z.to_nat (W * Ht)) as Hlen' by lia.
    destruct (Expand_core px W Ht scalex scaley w h Hsx Hsy Hw Hh HW HH Hlen')
      as [Hl Hpix].
    cbv zeta. cbn [with_pixels Width Height Pitch BytesPerPixel Pixels].
    repeat split; try reflexivity; [exact Hl|].
    intros x y i j Hx Hy Hi Hj.
    unfold pixel, with_pixels. cbn [Width Height Pitch BytesPerPixel Pixels].
    rewrite !Z.mul_1_r. change (Z.to_nat 1) with 1%nat.
    assert (0 <= y * scaley + j) by nia.
    assert (0 <= x * scalex + i) by nia.
    assert (0 <= (y * scaley + j) * W) by (apply Z.mul_nonneg_nonneg; lia).
    assert (0 <= y * W) by (apply Z.mul_nonneg_nonneg; lia).
    rewrite !take1_drop_deref by lia.
    now rewrite Hpix.
  - (* two- and four-byte elements *)
    rewrite decide_True by lia.
    assert (0 < k) as Hk0 by lia.
    set (kn := Z.to_nat k).
    set (m := Z.to_nat (W * Ht)).
    assert (length px = (m * kn)%nat) as Hlenk by (subst m kn P; nia).
    assert (P `quot` k = W) as -> by (subst P; apply Z.quot_mul; lia).
    assert (((Ht `quot` scaley - 1) * P) `quot` k
            = (Ht `quot` scaley - 1) * W) as ->.
    { subst P. rewrite Z.mul_assoc. apply Z.quot_mul. lia. }
    assert ((Ht * P) `quot` k = Ht * W) as ->.
    { subst P. rewrite Z.mul_assoc. apply Z.quot_mul. lia. }
    assert (length (as_elems kn px) = Z.to_nat (W * Ht)) as Hel
      by (apply as_elems_length; [subst kn; lia | exact Hlenk]).
    destruct (Expand_core (as_elems kn px) W Ht scalex scaley w h
                Hsx Hsy Hw Hh HW HH Hel) as [Hl Hpix].
    pose proof (Expand_core_from (as_elems kn px) W Ht scalex scaley w h
                  Hsx Hsy Hw Hh HW HH Hel) as Hfrom.
    set (res := ExpandT _ _ _ _ _ _ _ _ _) in *.
    assert (Forall (λ l, length l = kn) res) as Hall.
    { apply Forall_lookup_2. intros q e Hq.
      destruct (Hfrom q e Hq) as [q' Hq'].
      pose proof (lookup_lt_Some _ _ _ Hq') as Hlt. rewrite Hel in Hlt.
      rewrite (as_elems_lookup kn px m q') in Hq' by (subst kn m; lia).
      injection Hq' as <-.
      rewrite length_take, length_drop. subst m kn. nia. }
    assert (of_elems kn px res = mjoin res) as Hof.
    { unfold of_elems. rewrite Hlenk, Nat.div_mul by (subst kn; lia).
      rewrite drop_ge by lia. apply app_nil_r. }
    cbv zeta. cbn [with_pixels Width Height Pitch BytesPerPixel Pixels].
    rewrite Hof.
    repeat split; try reflexivity.
    + rewrite (join_same_length kn) by exact Hall. rewrite Hl, Hel. lia.
    + intros x y i j Hx Hy Hi Hj.
      unfold pixel, with_pixels. cbn [Width Height Pitch BytesPerPixel Pixels].
      fold kn.
      specialize (Hpix x y i j Hx Hy Hi Hj).
      set (q := (y * scaley + j) * W + (x * scalex + i)) in *.
      set (q0 := y * W + x) in *.
      assert (0 <= y * scaley + j < Ht) by nia.
      assert (0 <= x * scalex + i < W) by nia.
      assert (0 <= q < W * Ht) as Hq by (subst q; nia).
      assert (0 <= q0 < W * Ht) as Hq0 by (subst q0; nia).
      unfold deref in Hpix. rewrite !decide_True in Hpix by lia.
      rewrite (as_elems_lookup kn px m (Z.to_nat q0)) in Hpix
        by (subst kn m; lia).
      replace (Z.to_nat (q * k)) with (Z.to_nat q * kn)%nat by (subst kn; nia).
      replace (Z.to_nat (q0 * k)) with (Z.to_nat q0 * kn)%nat
        by (subst kn; nia).
      now apply (join_element kn res Hall).
Qed.

(** *** SetSolidColor and the fill constructor *)

Lemma join_replicate_element (k : nat) (e : list Z) (n q : nat) :
  length e = k -> (q < n)%nat ->
  take k (drop (q * k) (mjoin (replicate n e))) = e.
Proof.
  intros He Hq. apply (join_element k (replicate n e)).
  - apply Forall_replicate. exact He.
  - now apply lookup_replicate_2.
Qed.

Lemma inserts_all {A} (l k : list A) :
  length l = length k -> list_inserts 0 l k = l.
Proof.
  intros Hl. rewrite <- (app_nil_r l) at 1. now apply list_inserts_0_l.
Qed.

Lemma fill_elements (k : nat) (e : list Z) (n : nat) (px : list Z) :
  (0 < k)%nat -> length px = (n * k)%nat ->
  of_elems k px (list_inserts 0 (replicate n e) (as_elems k px))
  = mjoin (replicate n e).
Proof.
  intros Hk Hlen.
  rewrite inserts_all
    by (rewrite length_replicate; symmetry; now apply as_elems_length).
  unfold of_elems. rewrite Hlen, Nat.div_mul by lia.
  rewrite drop_ge by lia. apply app_nil_r.
Qed.

Lemma join_singletons (n : nat) (c : Z) :
  mjoin (replicate n [c]) = replicate n c.
Proof.
  induction n as [|n IH]; [reflexivity|].
  change (mjoin (replicate (S n) [c])) with (c :: mjoin (replicate n [c])).
  now rewrite IH.
Qed.

Lemma SetSolidColor_Pixels repr color bm :
  wf_chunky bm -> (forall k v, length (repr k v) = k) ->
  Pixels (SetSolidColor repr color bm)
  = mjoin (replicate (Z.to_nat (Width bm * Height bm))
             (pixel_bytes repr (BytesPerPixel bm)
                (color `mod` 2 ^ (8 * BytesPerPixel bm)))).
Proof.
  intros (HW & HH & Hk & HP & Hlen) Hrepr. unfold SetSolidColor, pixel_bytes.
  destruct (decide (BytesPerPixel bm = 1)) as [H1|H1].
  - rewrite H1 in *. cbn [with_pixels Pixels].
    rewrite join_singletons. apply inserts_all.
    rewrite length_replicate, Hlen, HP. f_equal. lia.
  - destruct (decide (BytesPerPixel bm = 2)) as [H2|H2].
    + rewrite H2 in *. cbn [with_pixels Pixels].
      apply fill_elements; [lia|]. rewrite Hlen, HP. nia.
    + assert (BytesPerPixel bm = 4) as H4 by lia. rewrite H4 in *.
      cbn [with_pixels Pixels].
      apply fill_elements; [lia|]. rewrite Hlen, HP. nia.
Qed.

Lemma filled_pixel repr (bm : ChunkyBitmap) v x y :
  wf_chunky bm -> (forall k v, length (repr k v) = k) ->
  Pixels bm
  = mjoin (replicate (Z.to_nat (Width bm * Height bm))
             (pixel_bytes repr (BytesPerPixel bm) v)) ->
  0 <= x < Width bm -> 0 <= y < Height bm ->
  pixel bm x y = pixel_bytes repr (BytesPerPixel bm) v.
Proof.
  intros (HW & HH & Hk & HP & Hlen) Hrepr Hpx Hx Hy.
  unfold pixel. rewrite Hpx.
  assert (0 <= y * Width bm + x < Width bm * Height bm) as Hq by nia.
  replace (Z.to_nat ((y * Width bm + x) * BytesPerPixel bm))
    with (Z.to_nat (y * Width bm + x) * Z.to_nat (BytesPerPixel bm))%nat
    by nia.
  apply join_replicate_element; [|lia].
  unfold pixel_bytes. case_decide as H1; [now rewrite H1|].
  apply Hrepr.
Qed.

(** X8: [SetSolidColor] leaves the bitmap's dimensions alone and makes
    every pixel the colour, cut to the pixel's width: the buffer is that
    pixel repeated [Width * Height] times. *)
Theorem SetSolidColor_fills repr color bm :
  wf_chunky bm -> (forall k v, length (repr k v) = k) ->
  let bm' := SetSolidColor repr color bm in
  let c := pixel_bytes repr (BytesPerPixel bm)
             (color `mod` 2 ^ (8 * BytesPerPixel bm)) in
  wf_chunky bm'
  /\ Width bm' = Width bm /\ Height bm' = Height bm
  /\ Pitch bm' = Pitch bm /\ BytesPerPixel bm' = BytesPerPixel bm
  /\ Pixels bm' = mjoin (replicate (Z.to_nat (Width bm * Height bm)) c)
  /\ forall x y, 0 <= x < Width bm -> 0 <= y < Height bm ->
       pixel bm' x y = c.
Proof.
  intros Hwf Hrepr bm' c.
  pose proof (SetSolidColor_Pixels repr color bm Hwf Hrepr) as Hpx.
  fold bm' c in Hpx.
  assert (Width bm' = Width bm /\ Height bm' = Height bm
          /\ Pitch bm' = Pitch bm /\ BytesPerPixel bm' = BytesPerPixel bm)
    as (HW' & HH' & HP' & Hk').
  { subst bm'. unfold SetSolidColor. repeat case_decide; repeat split. }
  assert (length c = Z.to_nat (BytesPerPixel bm)) as Hc.
  { subst c. unfold pixel_bytes. case_decide as H1; [now rewrite H1|].
    apply Hrepr. }
  assert (wf_chunky bm') as Hwf'.
  { destruct Hwf as (HW & HH & Hk & HP & Hlen).
    unfold wf_chunky. rewrite HW', HH', HP', Hk', Hpx.
    repeat split; try assumption.
    rewrite (join_same_length (Z.to_nat (BytesPerPixel bm)))
      by (apply Forall_replicate; exact Hc).
    rewrite length_replicate, HP. nia. }
  split; [exact Hwf'|]. repeat split; try assumption.
  intros x y Hx Hy. subst c. rewrite <- Hk'.
  apply (filled_pixel repr bm'); try assumption; rewrite ?HW', ?HH', ?Hk';
    assumption.
Qed.

(** X9: the fill constructor gives a bitmap of the dimensions of [o]
    whose every pixel is the fill colour; none of the fresh storage is
    left as it was, and the pixels of [o] play no part. *)
Theorem ChunkyBitmap_fill_pixels uninit repr o fillcolor :
  wf_chunky o -> (forall k v, length (repr k v) = k) ->
  ChunkyBitmap_fill uninit repr o fillcolor
  = mkChunky (Width o) (Height o) (Pitch o) (BytesPerPixel o)
      (mjoin (replicate (Z.to_nat (Width o * Height o))
                (pixel_bytes repr (BytesPerPixel o)
                   (fillcolor `mod` 2 ^ (8 * BytesPerPixel o))))).
Proof.
  intros Hwf Hrepr. unfold ChunkyBitmap_fill.
  set (bm := mkChunky _ _ _ _ (new_bytes _ _)).
  assert (wf_chunky bm) as Hbm.
  { destruct Hwf as (HW & HH & Hk & HP & Hlen). subst bm. unfold wf_chunky.
    cbn [Width Height Pitch BytesPerPixel Pixels].
    repeat split; try assumption. now rewrite new_bytes_length. }
  pose proof (SetSolidColor_Pixels repr fillcolor bm Hbm Hrepr) as Hpx.
  assert (SetSolidColor repr fillcolor bm
          = with_pixels bm (Pixels (SetSolidColor repr fillcolor bm))) as ->.
  { unfold SetSolidColor. repeat case_decide; reflexivity. }
  rewrite Hpx. reflexivity.
Qed.

(** *** The constructor from a planar bitmap *)

Section ToChunkyAsFacts.
Context {T : Type} `{Inhabited T}.
Variable enc : Z -> T.
Variable pb : Planar.PlanarBitmap.

Lemma serial_pixels_as_fst bits byte n : forall x out (dest : list T),
  (serial_pixels_as enc pb bits byte n x out dest).1 = out + Z.of_nat n.
Proof.
  induction n as [|n IH]; intros x out dest; cbn [serial_pixels_as fst].
  - lia.
  - rewrite IH. lia.
Qed.

Lemma serial_pixels_as_deref bits byte n : forall x out (dest : list T),
  0 <= out -> out + Z.of_nat n <= Z.of_nat (length dest) ->
  length (serial_pixels_as enc pb bits byte n x out dest).2 = length dest
  /\ forall p,
       deref (serial_pixels_as enc pb bits byte n x out dest).2 p
       = if decide (out <= p < out + Z.of_nat n)
         then Some (enc (Planar.gather pb bits (byte (x + (p - out)))
                           (7 - Z.land (x + (p - out)) 7)
                           (Z.to_nat (Planar.NumPlanes pb)) 0))
         else deref dest p.
Proof.
  induction n as [|n IH]; intros x out dest Hout Hlen.
  - cbn [serial_pixels_as snd]. split; [reflexivity|].
    intros p. rewrite decide_False by lia. reflexivity.
  - cbn [serial_pixels_as].
    destruct (IH (x + 1) (out + 1)
                (poke dest out
                   (enc (Planar.gather pb bits (byte x) (7 - Z.land x 7)
                           (Z.to_nat (Planar.NumPlanes pb)) 0))))
      as [H1 H2]; [lia | rewrite length_poke; lia|].
    split; [now rewrite H1, length_poke|].
    intros p. rewrite H2, deref_poke.
    destruct (decide (p = out)) as [->|Hne].
    + rewrite decide_False by lia. rewrite decide_True by lia.
      rewrite decide_True by lia.
      replace (x + (out - out)) with x by lia. reflexivity.
    + destruct (decide (out + 1 <= p < out + 1 + Z.of_nat n)) as [Hin|Hnin].
      * rewrite decide_True by lia.
        replace (x + 1 + (p - (out + 1))) with (x + (p - out)) by lia.
        reflexivity.
      * rewrite decide_False by lia. rewrite decide_False by lia.
        reflexivity.
Qed.

Lemma serial_rows_as_deref bits e n : forall inp out (dest : list T),
  0 <= out -> 0 <= e -> 0 <= Planar.Width pb ->
  out + Z.of_nat n * (Planar.Width pb + e) <= Z.of_nat (length dest) ->
  length (serial_rows_as enc pb bits e n inp out dest) = length dest
  /\ (forall p, p < out ->
        deref (serial_rows_as enc pb bits e n inp out dest) p = deref dest p)
  /\ (forall r c, 0 <= r < Z.of_nat n -> 0 <= c < Planar.Width pb ->
        deref (serial_rows_as enc pb bits e n inp out dest)
              (out + r * (Planar.Width pb + e) + c)
        = Some (enc (Planar.gather pb bits
                       (inp + r * Planar.Pitch pb + Z.shiftr c 3)
                       (7 - Z.land c 7)
                       (Z.to_nat (Planar.NumPlanes pb)) 0))).
Proof.
  induction n as [|n IH]; intros inp out dest Hout He HW Hlen.
  - cbn [serial_rows_as]. split; [reflexivity|]. split; [reflexivity | lia].
  - cbn [serial_rows_as]. rewrite serial_pixels_as_fst.
    assert (Z.of_nat (S n) * (Planar.Width pb + e)
            = Planar.Width pb + e + Z.of_nat n * (Planar.Width pb + e))
      as HS by lia.
    rewrite HS in Hlen.
    assert (0 <= Z.of_nat n * (Planar.Width pb + e)) as Hrest by nia.
    destruct (serial_pixels_as_deref bits (λ x, inp + Z.shiftr x 3)
                (Z.to_nat (Planar.Width pb)) 0 out dest) as [H1 H2];
      [lia | lia|].
    set (d1 := (serial_pixels_as enc pb bits _ _ 0 out dest).2) in *.
    rewrite Z2Nat.id by lia.
    destruct (IH (inp + Planar.Pitch pb) (out + Planar.Width pb + e) d1)
      as (H3 & H4 & H5); [lia | lia | lia | lia|].
    split; [congruence|]. split.
    + intros p Hp. rewrite H4 by lia. rewrite H2.
      rewrite decide_False by lia. reflexivity.
    + intros r c Hr Hc. destruct (decide (r = 0)) as [->|Hr0].
      * rewrite H4 by lia. rewrite H2.
        rewrite decide_True by lia.
        replace (0 + (out + 0 * (Planar.Width pb + e) + c - out)) with c
          by lia.
        do 3 f_equal. lia.
      * replace (out + r * (Planar.Width pb + e) + c)
          with (out + Planar.Width pb + e
                + (r - 1) * (Planar.Width pb + e) + c) by lia.
        rewrite H5 by lia. do 3 f_equal. lia.
Qed.

Lemma poke_Forall (P : T -> Prop) (buf : list T) p v :
  Forall P buf -> P v -> Forall P (poke buf p v).
Proof.
  intros Hb Hv. unfold poke. case_decide; [|exact Hb].
  now apply Forall_insert.
Qed.

Lemma serial_pixels_as_Forall (P : T -> Prop) bits byte n :
  (forall v, P (enc v)) -> forall x out (dest : list T),
  Forall P dest ->
  Forall P (serial_pixels_as enc pb bits byte n x out dest).2.
Proof.
  intros Henc. induction n as [|n IH]; intros x out dest Hd.
  - exact Hd.
  - cbn [serial_pixels_as]. apply IH. now apply poke_Forall.
Qed.

Lemma serial_rows_as_Forall (P : T -> Prop) bits e n :
  (forall v, P (enc v)) -> forall inp out (dest : list T),
  Forall P dest -> Forall P (serial_rows_as enc pb bits e n inp out dest).
Proof.
  intros Henc. induction n as [|n IH]; intros inp out dest Hd.
  - exact Hd.
  - cbn [serial_rows_as]. apply IH. now apply serial_pixels_as_Forall.
Qed.
End ToChunkyAsFacts.

(** With the identity for [enc] the loops are those of [Planar]. *)
Lemma serial_pixels_as_id pb bits byte n : forall x out dest,
  serial_pixels_as id pb bits byte n x out dest
  = Planar.serial_pixels pb bits byte n x out dest.
Proof.
  induction n as [|n IH]; intros x out dest; [reflexivity|].
  cbn [serial_pixels_as Planar.serial_pixels]. apply IH.
Qed.

Lemma serial_rows_as_id pb bits e n : forall inp out dest,
  serial_rows_as id pb bits e n inp out dest
  = Planar.serial_rows pb bits e n inp out dest.
Proof.
  induction n as [|n IH]; intros inp out dest; [reflexivity|].
  cbn [serial_rows_as Planar.serial_rows].
  rewrite serial_pixels_as_id. apply IH.
Qed.

Lemma as_elems_Forall (k : nat) (l : list Z) (m : nat) :
  (0 < k)%nat -> length l = (m * k)%nat ->
  Forall (λ e, length e = k) (as_elems k l).
Proof.
  intros Hk Hl. apply Forall_lookup_2. intros q e Hq.
  pose proof (lookup_lt_Some _ _ _ Hq) as Hlt.
  rewrite (as_elems_length k l m Hk Hl) in Hlt.
  rewrite (as_elems_lookup k l m q Hk Hl Hlt) in Hq.
  apply (inj Some) in Hq. subst e.
  rewrite length_take, length_drop. nia.
Qed.

(** The pixel values the wider branches leave in a byte buffer. *)
Lemma ToChunky_bytes_wide repr pb bytes e (k : nat) (m : nat) bits :
  wf_planar pb -> (forall v, length (repr k v) = k) ->
  1 <= Planar.NumPlanes pb <= bits -> (0 < k)%nat -> 0 <= e ->
  length bytes = (m * k)%nat ->
  Planar.Height pb * (Planar.Width pb + e) <= Z.of_nat m ->
  let res := of_elems k bytes
               (serial_rows_as (repr k) pb bits e
                  (Z.to_nat (Planar.Height pb)) 0 0 (as_elems k bytes)) in
  length res = length bytes
  /\ forall x y, 0 <= x < Planar.Width pb -> 0 <= y < Planar.Height pb ->
       exists v,
         take k (drop (Z.to_nat (y * (Planar.Width pb + e) + x) * k) res)
         = repr k v
         /\ forall i, 0 <= i ->
              Z.testbit v i
              = (i <? Planar.NumPlanes pb) && plane_sample pb i x y.
Proof.
  intros Hwf Hrepr Hplanes Hk He Hlen Hfit res.
  assert (0 <= Planar.Width pb /\ 0 <= Planar.Height pb) as [HW HH]
    by (destruct Hwf as (? & ? & _); split; assumption).
  pose proof (as_elems_length k bytes m Hk Hlen) as Hel.
  destruct (serial_rows_as_deref (repr k) pb bits e
              (Z.to_nat (Planar.Height pb)) 0 0 (as_elems k bytes))
    as (H1 & _ & H3); try lia.
  pose proof (serial_rows_as_Forall (repr k) pb (λ l, length l = k) bits e
                (Z.to_nat (Planar.Height pb)) Hrepr 0 0 (as_elems k bytes)
                (as_elems_Forall k bytes m Hk Hlen)) as Hall.
  set (els := serial_rows_as _ _ _ _ _ _ _ _) in *.
  assert (res = mjoin els) as Hres.
  { subst res. unfold of_elems. rewrite Hlen, Nat.div_mul by lia.
    rewrite drop_ge by lia. apply app_nil_r. }
  split.
  - rewrite Hres, (join_same_length k els Hall), H1, Hel. lia.
  - intros x y Hx Hy.
    specialize (H3 y x ltac:(lia) Hx). rewrite !Z.add_0_l in H3.
    unfold deref in H3. rewrite decide_True in H3 by nia.
    assert (Z.land x 7 = x `mod` 8) as Hland
      by (change 7 with (Z.ones 3); now rewrite Z.land_ones by lia).
    assert (Z.shiftr x 3 = x `div` 8) as Hshift
      by (now rewrite Z.shiftr_div_pow2 by lia).
    rewrite Hland, Hshift in H3.
    pose proof (Z.mod_pos_bound x 8 ltac:(lia)) as Hmod.
    assert (0 <= x `div` 8) as Hdiv by (apply Z.div_pos; lia).
    eexists. split.
    + rewrite Hres. apply (join_element k els Hall). exact H3.
    + intros i Hi. rewrite gather_bits by lia. rewrite Z2Nat.id by lia.
      destruct (Z.ltb_spec i (Planar.NumPlanes pb)) as [Hlt|Hge];
        [|reflexivity].
      cbn [andb]. rewrite plane_byte_wf by (assumption || lia).
      unfold plane_sample, peek.
      destruct (planar_size_nonneg pb Hwf) as [HP Hs].
      rewrite decide_True by nia.
      do 3 f_equal. lia.
Qed.

Lemma ToChunky_bytes_pixels repr pb bytes e (k : Z) (m : nat) :
  wf_planar pb -> (forall k v, length (repr k v) = k) ->
  1 <= Planar.NumPlanes pb -> 0 <= e ->
  k = (if decide (Planar.NumPlanes pb ≤ 8) then 1
       else if decide (Planar.NumPlanes pb ≤ 16) then 2 else 4) ->
  length bytes = (m * Z.to_nat k)%nat ->
  Planar.Height pb * (Planar.Width pb + e) <= Z.of_nat m ->
  length (ToChunky_bytes repr pb bytes e) = length bytes
  /\ forall x y, 0 <= x < Planar.Width pb -> 0 <= y < Planar.Height pb ->
       exists v,
         take (Z.to_nat k)
           (drop (Z.to_nat ((y * (Planar.Width pb + e) + x) * k))
              (ToChunky_bytes repr pb bytes e))
         = pixel_bytes repr k v
         /\ forall i, 0 <= i ->
              Z.testbit v i
              = (i <? Planar.NumPlanes pb) && plane_sample pb i x y.
Proof.
  intros Hwf Hrepr Hplanes He Hk Hlen Hfit.
  assert (0 <= Planar.Width pb /\ 0 <= Planar.Height pb) as [HW HH]
    by (destruct Hwf as (? & ? & _); split; assumption).
  assert (Planar.NumPlanes pb < 32) as H32
    by (destruct Hwf as (_&_&_&?&_); lia).
  unfold ToChunky_bytes, pixel_bytes. rewrite decide_False by lia.
  destruct (decide (Planar.NumPlanes pb <= 8)) as [H8|H8].
  - subst k. change (Z.to_nat 1) with 1%nat in *.
    destruct (ToChunky_bits pb bytes e Hwf) as [H1 H2];
      [lia | exact He | lia |].
    split; [exact H1|]. intros x y Hx Hy.
    destruct (H2 x y Hx Hy) as (v & Hv & Hbits).
    exists v. split; [|exact Hbits].
    rewrite Z.mul_1_r, take1_drop_deref by nia.
    unfold deref. rewrite decide_True by nia. rewrite Hv. reflexivity.
  - destruct (decide (Planar.NumPlanes pb <= 16)) as [H16|H16]; subst k.
    + change (Z.to_nat 2) with 2%nat in *.
      destruct (ToChunky_bytes_wide repr pb bytes e 2 m 16 Hwf (Hrepr 2%nat))
        as [H1 H2]; try lia.
      split; [exact H1|]. intros x y Hx Hy.
      destruct (H2 x y Hx Hy) as (v & Hv & Hbits).
      exists v. split; [|exact Hbits]. rewrite <- Hv. do 2 f_equal. nia.
    + change (Z.to_nat 4) with 4%nat in *.
      destruct (ToChunky_bytes_wide repr pb bytes e 4 m 32 Hwf (Hrepr 4%nat))
        as [H1 H2]; try lia.
      split; [exact H1|]. intros x y Hx Hy.
      destruct (H2 x y Hx Hy) as (v & Hv & Hbits).
      exists v. split; [|exact Hbits]. rewrite <- Hv. do 2 f_equal. nia.
Qed.

(** X10: the constructor from a planar bitmap of one to 31 planes gives
    a bitmap [scalex] by [scaley] times the size, one byte per pixel for
    up to eight planes, two for up to sixteen, four beyond.  Every pixel of
    the block that stands for the planar pixel [(x, y)] has the value whose
    bit [b] is the sample of plane [b] there; nothing of the fresh storage
    is left in the result.  The scaled size has to be one the source
    computes in [int] ([alloc_fits]; with positive sizes it bounds the
    products [Width * scalex] and [Height * scaley] of chunky.cpp 28-29
    as well). *)
Theorem ChunkyBitmap_of_planar_pixels uninit repr planar scalex scaley :
  wf_planar planar -> (forall k v, length (repr k v) = k) ->
  1 <= Planar.NumPlanes planar ->
  0 < Planar.Width planar -> 0 < Planar.Height planar ->
  1 <= scalex -> 1 <= scaley ->
  alloc_fits (Planar.Width planar * scalex) (Planar.Height planar * scaley)
    (if decide (Planar.NumPlanes planar ≤ 8) then 1
     else if decide (Planar.NumPlanes planar ≤ 16) then 2 else 4) ->
  exists bm,
    ChunkyBitmap_of_planar uninit repr planar scalex scaley = Some bm
    /\ wf_chunky bm
    /\ Width bm = Planar.Width planar * scalex
    /\ Height bm = Planar.Height planar * scaley
    /\ BytesPerPixel bm
       = (if decide (Planar.NumPlanes planar ≤ 8) then 1
          else if decide (Planar.NumPlanes planar ≤ 16) then 2 else 4)
    /\ forall x y i j,
         0 <= x < Planar.Width planar -> 0 <= y < Planar.Height planar ->
         0 <= i < scalex -> 0 <= j < scaley ->
         exists v,
           pixel bm (x * scalex + i) (y * scaley + j)
           = pixel_bytes repr (BytesPerPixel bm) v
           /\ forall b, 0 <= b ->
                Z.testbit v b
                = (b <? Planar.NumPlanes planar) && plane_sample planar b x y.
Proof.
  intros Hwf Hrepr Hplanes HW HH Hsx Hsy _.
  set (k := if decide (Planar.NumPlanes planar ≤ 8) then 1
            else if decide (Planar.NumPlanes planar ≤ 16) then 2 else 4).
  assert (k = 1 \/ k = 2 \/ k = 4) as Hk
    by (subst k; repeat case_decide; lia).
  set (W := Planar.Width planar) in *. set (H := Planar.Height planar) in *.
  assert (0 < W * scalex /\ 0 < H * scaley) as [HWb HHb] by nia.
  unfold ChunkyBitmap_of_planar.
  rewrite !option_guard_True by lia. cbn [mbind option_bind].
  fold W H k. rewrite Alloc_Some by lia. cbn [mbind option_bind].
  cbn [with_pixels Width Height Pitch BytesPerPixel Pixels].
  set (bytes0 := new_bytes uninit (W * scalex * k * (H * scaley))).
  set (m := Z.to_nat (W * scalex * (H * scaley))).
  assert (length bytes0 = (m * Z.to_nat k)%nat) as Hlen0.
  { subst bytes0 m. rewrite new_bytes_length. nia. }
  destruct (ToChunky_bytes_pixels repr planar bytes0 (W * scalex - W) k m
              Hwf Hrepr Hplanes) as [Hl1 Hpix1];
    [fold W; nia | reflexivity | exact Hlen0 | fold W H; subst m; nia |].
  fold W H in Hpix1.
  set (bytes1 := ToChunky_bytes repr planar bytes0 (W * scalex - W)) in *.
  set (bm1 := mkChunky (W * scalex) (H * scaley) (W * scalex * k) k bytes1).
  assert (length bytes1 = Z.to_nat (W * scalex * k * (H * scaley))) as Hlen1.
  { rewrite Hl1, Hlen0. subst m. nia. }
  destruct (Expand_pixels bm1 scalex scaley W H Hsx Hsy HW HH)
    as (E1 & E2 & E3 & E4 & E5 & E6);
    [reflexivity | reflexivity | exact Hk | reflexivity | exact Hlen1 |].
  change (with_pixels _ bytes1) with bm1.
  assert ((if decide (scalex ≠ 1 ∨ scaley ≠ 1)
           then Expand scalex scaley bm1 else bm1)
          = Expand scalex scaley bm1) as ->.
  { case_decide as Hs; [reflexivity|].
    unfold Expand. rewrite decide_True by lia. reflexivity. }
  exists (Expand scalex scaley bm1).
  split; [reflexivity|].
  split.
  { unfold wf_chunky. rewrite E1, E2, E3, E4, E5.
    subst bm1. cbn [Width Height Pitch BytesPerPixel Pixels].
    repeat split; try lia. }
  split; [rewrite E1; reflexivity|]. split; [rewrite E2; reflexivity|].
  split; [rewrite E4; reflexivity|].
  intros x y i j Hx Hy Hi Hj.
  rewrite E6 by assumption. rewrite E4.
  subst bm1. unfold pixel. cbn [Width Height Pitch BytesPerPixel Pixels].
  destruct (Hpix1 x y Hx Hy) as (v & Hv & Hbits).
  exists v. split; [|exact Hbits].
  rewrite <- Hv. do 3 f_equal. lia.
Qed.

(** X11: a planar bitmap without planes gives [ToChunky] nothing to
    write, so the constructor's pixels are what the allocation happened to
    hold: the block of planar pixel [(x, y)] repeats the byte found at
    offset [y * Width + x] of the fresh buffer.  The scaled size has to
    be one the source computes in [int] ([alloc_fits]). *)
Theorem ChunkyBitmap_of_planar_no_planes uninit repr planar scalex scaley :
  Planar.NumPlanes planar <= 0 ->
  0 < Planar.Width planar -> 0 < Planar.Height planar ->
  1 <= scalex -> 1 <= scaley ->
  alloc_fits (Planar.Width planar * scalex) (Planar.Height planar * scaley)
    1 ->
  exists bm,
    ChunkyBitmap_of_planar uninit repr planar scalex scaley = Some bm
    /\ Width bm = Planar.Width planar * scalex
    /\ Height bm = Planar.Height planar * scaley
    /\ BytesPerPixel bm = 1
    /\ forall x y i j,
         0 <= x < Planar.Width planar -> 0 <= y < Planar.Height planar ->
         0 <= i < scalex -> 0 <= j < scaley ->
         pixel bm (x * scalex + i) (y * scaley + j)
         = [uninit (Z.to_nat (y * Width bm + x))].
Proof.
  intros Hplanes HW HH Hsx Hsy _.
  set (W := Planar.Width planar) in *. set (H := Planar.Height planar) in *.
  assert (0 < W * scalex /\ 0 < H * scaley) as [HWb HHb] by nia.
  unfold ChunkyBitmap_of_planar.
  rewrite !option_guard_True by lia. cbn [mbind option_bind].
  fold W H.
  rewrite (decide_True (P := Planar.NumPlanes planar ≤ 8)) by lia.
  rewrite Alloc_Some by lia.
  cbn [mbind option_bind].
  cbn [with_pixels Width Height Pitch BytesPerPixel Pixels].
  unfold ToChunky_bytes.
  rewrite (decide_True (P := Planar.NumPlanes planar ≤ 0)) by exact Hplanes.
  set (bytes := new_bytes uninit (W * scalex * 1 * (H * scaley))).
  set (bm1 := mkChunky (W * scalex) (H * scaley) (W * scalex * 1) 1 bytes).
  assert (length bytes = Z.to_nat (W * scalex * 1 * (H * scaley))) as Hlen
    by (subst bytes; apply new_bytes_length).
  destruct (Expand_pixels bm1 scalex scaley W H Hsx Hsy HW HH)
    as (E1 & E2 & E3 & E4 & E5 & E6);
    [reflexivity | reflexivity | left; reflexivity | reflexivity
     | exact Hlen |].
  change (with_pixels _ bytes) with bm1.
  assert ((if decide (scalex ≠ 1 ∨ scaley ≠ 1)
           then Expand scalex scaley bm1 else bm1)
          = Expand scalex scaley bm1) as ->.
  { case_decide as Hs; [reflexivity|].
    unfold Expand. rewrite decide_True by lia. reflexivity. }
  exists (Expand scalex scaley bm1).
  split; [reflexivity|]. split; [exact E1|]. split; [exact E2|].
  split; [exact E4|].
  intros x y i j Hx Hy Hi Hj. rewrite E6 by assumption. rewrite E1.
  subst bm1. unfold pixel. cbn [Width Height Pitch BytesPerPixel Pixels].
  rewrite Z.mul_1_r. change (Z.to_nat 1) with 1%nat.
  assert (0 <= y * (W * scalex) + x) as Hq0 by nia.
  assert (y * (W * scalex) + x < W * scalex * 1 * (H * scaley)) as Hq1.
  { assert ((y + 1) * (W * scalex) <= H * (W * scalex)) by nia.
    assert (H * (W * scalex) <= H * scaley * (W * scalex)) by nia.
    nia. }
  rewrite take1_drop_deref by exact Hq0.
  unfold deref. rewrite decide_True by exact Hq0.
  subst bytes. unfold new_bytes.
  rewrite list_lookup_fmap, lookup_seq_lt by lia. reflexivity.
Qed.

Lemma le_bytes_length k v : length (le_bytes k v) = k.
Proof. unfold le_bytes. now rewrite length_fmap, length_seq. Qed.

(** ** Colours that are in the palette *)

Lemma redmean_zero p r g b :
  wf_color p -> is_byte r -> is_byte g -> is_byte b ->
  redmean_dist p r g b = 0 <-> p = mkColor r g b.
Proof.
  intros (Hpr & Hpg & Hpb) Hr Hg Hb. unfold is_byte in *.
  unfold redmean_dist. cbv zeta.
  assert (0 <= (r + red p) `div` 2 <= 255) as Hmean.
  { split; [apply Z.div_pos; lia|].
    apply Z.div_le_upper_bound; lia. }
  set (m := (r + red p) `div` 2) in *.
  rewrite !Z.pow_2_r.
  split.
  - intros Hd.
    pose proof (Z.square_nonneg (r - red p)) as Hx.
    pose proof (Z.square_nonneg (g - green p)) as Hy.
    pose proof (Z.square_nonneg (b - blue p)) as Hz.
    assert ((r - red p) * (r - red p) = 0) as Hx0 by nia.
    assert ((g - green p) * (g - green p) = 0) as Hy0 by nia.
    assert ((b - blue p) * (b - blue p) = 0) as Hz0 by nia.
    destruct p as [pr pg pb]. cbn [red green blue] in *.
    f_equal; nia.
  - intros ->. cbn [red green blue]. rewrite !Z.sub_diag. lia.
Qed.

Lemma exact_slot_dist pal r g b k :
  wf_palette pal -> is_byte r -> is_byte g -> is_byte b ->
  0 <= k < Z.of_nat (length pal) ->
  color_dist (pal_at pal k) r g b = redmean_dist (pal_at pal k) r g b
  /\ 0 <= redmean_dist (pal_at pal k) r g b
  /\ (redmean_dist (pal_at pal k) r g b = 0 <-> pal_at pal k = mkColor r g b).
Proof.
  intros Hwf Hr Hg Hb Hk.
  pose proof (pal_at_wf pal k Hwf Hk) as Hc.
  destruct (color_dist_exact (pal_at pal k) r g b Hc Hr Hg Hb) as [H1 H2].
  split; [exact H1|]. split; [lia|]. now apply redmean_zero.
Qed.

(** The scan stops at the first slot that holds the wanted colour. *)
Lemma nearest_first_slot pal r g b first num z :
  wf_palette pal -> is_byte r -> is_byte g -> is_byte b ->
  0 <= first -> first_slot pal first (mkColor r g b) z ->
  z < num -> z < Z.of_nat (length pal) ->
  NearestColor pal r g b first num = z.
Proof.
  intros Hwf Hr Hg Hb Hfirst (Hz & Hcol & Hbefore) Hnum Hlen.
  unfold NearestColor.
  apply (scan_exact pal r g b (λ k, redmean_dist (pal_at pal k) r g b));
    [lia | | | | unfold INT_MAX; lia].
  - intros k Hk.
    now destruct (exact_slot_dist pal r g b k Hwf Hr Hg Hb ltac:(lia)).
  - intros k Hk.
    destruct (exact_slot_dist pal r g b k Hwf Hr Hg Hb ltac:(lia))
      as (_ & Hpos & Hiff).
    specialize (Hbefore k Hk).
    destruct (decide (redmean_dist (pal_at pal k) r g b = 0)) as [H0|H0];
      [|lia].
    now apply Hiff in H0.
  - destruct (exact_slot_dist pal r g b z Hwf Hr Hg Hb ltac:(lia))
      as (_ & _ & Hiff).
    now apply Hiff.
Qed.

Lemma least_slot pal first c (n : nat) :
  (forall k, first <= k < first + Z.of_nat n -> pal_at pal k <> c)
  \/ exists z, first_slot pal first c z /\ z < first + Z.of_nat n.
Proof.
  induction n as [|n [IH|(z & Hz & Hlt)]].
  - left. intros k Hk. lia.
  - destruct (decide (pal_at pal (first + Z.of_nat n) = c)) as [Heq|Hne].
    + right. exists (first + Z.of_nat n). split; [|lia].
      split; [lia|]. split; [exact Heq | exact IH].
    + left. intros k Hk.
      destruct (decide (k = first + Z.of_nat n)) as [->|Hk'];
        [exact Hne | apply IH; lia].
  - right. exists z. split; [exact Hz | lia].
Qed.

Lemma first_slot_exists pal first c k :
  first <= k -> pal_at pal k = c ->
  exists z, first_slot pal first c z /\ z <= k.
Proof.
  intros Hk Hc.
  destruct (least_slot pal first c (Z.to_nat (k - first + 1)))
    as [Hnone|(z & Hz & Hlt)].
  - exfalso. apply (Hnone k); [lia | exact Hc].
  - exists z. split; [exact Hz | lia].
Qed.

(** X12: when the wanted colour is among the slots [first .. num - 1],
    [NearestColor] returns the first slot that holds exactly that colour,
    and reads no slot after it. *)
Theorem NearestColor_exact pal r g b first num k :
  wf_palette pal -> is_byte r -> is_byte g -> is_byte b ->
  0 <= first <= k -> k < num -> k < Z.of_nat (length pal) ->
  pal_at pal k = mkColor r g b ->
  let c := NearestColor pal r g b first num in
  first_slot pal first (mkColor r g b) c /\ c <= k
  /\ forall pal' num',
       take (Z.to_nat c + 1) pal' = take (Z.to_nat c + 1) pal -> c < num' ->
       NearestColor pal' r g b first num' = c.
Proof.
  intros Hwf Hr Hg Hb Hfirst Hnum Hlen Hcol c.
  destruct (first_slot_exists pal first (mkColor r g b) k) as (z & Hz & Hzk);
    [lia | exact Hcol|].
  assert (c = z) as ->
    by (apply nearest_first_slot; (assumption || lia)).
  split; [exact Hz|]. split; [exact Hzk|].
  intros pal' num' Hpre Hnum'.
  destruct Hz as (Hz1 & Hz2 & Hz3).
  assert (forall j, 0 <= j <= z -> pal_at pal' j = pal_at pal j) as Hsame.
  { intros j Hj. apply (pal_at_take pal pal' (Z.to_nat z + 1)); auto; lia. }
  assert (Z.to_nat z + 1 <= length pal')%nat as Hlen'.
  { apply (f_equal length) in Hpre. rewrite !length_take in Hpre. lia. }
  unfold NearestColor.
  apply (scan_exact pal' r g b (λ j, redmean_dist (pal_at pal j) r g b));
    [lia | | | | unfold INT_MAX; lia].
  - intros j Hj. rewrite Hsame by lia.
    now destruct (exact_slot_dist pal r g b j Hwf Hr Hg Hb ltac:(lia)).
  - intros j Hj.
    destruct (exact_slot_dist pal r g b j Hwf Hr Hg Hb ltac:(lia))
      as (_ & Hpos & Hiff).
    specialize (Hz3 j Hj).
    destruct (decide (redmean_dist (pal_at pal j) r g b = 0)) as [H0|H0];
      [|lia].
    now apply Hiff in H0.
  - destruct (exact_slot_dist pal r g b z Hwf Hr Hg Hb ltac:(lia))
      as (_ & _ & Hiff).
    now apply Hiff.
Qed.

(** *** Dithering an image whose colours are all in the palette *)

Lemma alter_fix {A} (f : A -> A) (l : list A) (i : nat) :
  (forall x, l !! i = Some x -> f x = x) -> alter f i l = l.
Proof.
  intros Hf. apply list_eq. intros j. rewrite list_lookup_alter.
  case_decide as Hij; [|reflexivity]. subst j.
  destruct (l !! i) as [x|] eqn:Hx; [|reflexivity].
  cbn. now rewrite Hf.
Qed.

Lemma cell_add_zero c : wf_cell c -> cell_add 0 0 0 c = c.
Proof.
  destruct c as [[r g] b]. intros (Hr & Hg & Hb). unfold is_int in *.
  cbn [fst snd] in *. unfold cell_add, iadd. cbn [fst snd].
  rewrite !Z.add_0_r, !wrap32_small by lia. reflexivity.
Qed.

Lemma add_error_zero e y xx :
  Forall (Forall wf_cell) e -> add_error e y xx 0 0 0 = e.
Proof.
  intros He. unfold add_error. case_decide; [|reflexivity].
  apply alter_fix. intros row Hrow. apply alter_fix. intros c Hc.
  apply cell_add_zero.
  rewrite Forall_lookup in He. specialize (He _ _ Hrow).
  rewrite Forall_lookup in He. exact (He _ _ Hc).
Qed.

Lemma diffuse_targets_zero W x ts : forall e,
  Forall (Forall wf_cell) e -> diffuse_targets W x 0 0 0 ts e = e.
Proof.
  induction ts as [|t ts IH]; intros e He; cbn [diffuse_targets].
  - reflexivity.
  - destruct (Z.lor t.1 t.2 =? 0); [reflexivity|].
    case_decide; [rewrite add_error_zero by exact He|]; now apply IH.
Qed.

(** A pixel that got exactly the colour it wanted passes nothing on,
    whatever the kernel. *)
Lemma diffuse_kernel_zero W x k : forall e,
  Forall (Forall wf_cell) e -> diffuse_kernel W x 0 0 0 k e = e.
Proof.
  induction k as [|d k IH]; intros e He; cbn [diffuse_kernel].
  - reflexivity.
  - destruct (weight d =? 0); [reflexivity|].
    change (imul 0 (weight d)) with (wrap32 (0 * weight d)).
    rewrite Z.mul_0_l. change (wrap32 0) with 0.
    rewrite diffuse_targets_zero by exact He. now apply IH.
Qed.

Lemma no_error_wf W : Forall (Forall wf_cell) (no_error W).
Proof.
  apply Forall_replicate, Forall_replicate.
  unfold wf_cell, is_int. cbn. lia.
Qed.

Lemma no_error_at W (x : nat) : (x < Z.to_nat W)%nat ->
  err_at (no_error W) 0 x = (0, 0, 0).
Proof.
  intros Hx. unfold err_at, no_error.
  rewrite lookup_total_replicate_2 by lia.
  now rewrite lookup_total_replicate_2 by lia.
Qed.

Lemma no_error_rotate W : rotate_error (no_error W) = no_error W.
Proof.
  unfold no_error. cbn [replicate rotate_error].
  now rewrite length_replicate.
Qed.

Lemma pixel_nearest_first pal inp i k :
  wf_palette pal -> 0 <= k < Z.of_nat (length pal) ->
  pal_at pal k = pixel_color inp i ->
  first_slot pal 0 (pixel_color inp i) (pixel_nearest pal inp i)
  /\ pixel_nearest pal inp i <= k.
Proof.
  intros Hwf Hk Hcol.
  pose proof (pal_at_wf pal k Hwf Hk) as (Hr & Hg & Hb).
  rewrite Hcol in Hr, Hg, Hb. cbn [pixel_color red green blue] in Hr, Hg, Hb.
  destruct (first_slot_exists pal 0 (pixel_color inp i) k) as (z & Hz & Hzk);
    [lia | exact Hcol|].
  assert (pixel_nearest pal inp i = z) as ->; [|split; assumption].
  unfold pixel_nearest.
  apply nearest_first_slot; try assumption; lia.
Qed.

Lemma diffuse_pixel_exact pal kernel W inp (i dest : nat) x out k :
  wf_palette pal -> 0 <= x < W ->
  0 <= k < Z.of_nat (length pal) -> pal_at pal k = pixel_color inp i ->
  diffuse_pixel pal kernel W inp (4 * i) dest x (out, no_error W)
  = (<[(dest + Z.to_nat x)%nat := u8 (pixel_nearest pal inp i)]> out,
     no_error W).
Proof.
  intros Hwf Hx Hk Hcol.
  pose proof (pal_at_wf pal k Hwf Hk) as (Hr & Hg & Hb).
  rewrite Hcol in Hr, Hg, Hb. cbn [pixel_color red green blue] in Hr, Hg, Hb.
  destruct (pixel_nearest_first pal inp i k Hwf Hk Hcol)
    as ((_ & Hc & _) & _).
  unfold is_byte in *.
  unfold diffuse_pixel, wanted. cbn [snd fst].
  rewrite no_error_at by lia. cbn [fst snd].
  change (idiv 0 65536) with 0. unfold iadd.
  rewrite !Z.add_0_r, !wrap32_small by lia.
  rewrite !clamp_inside by lia.
  change (NearestColor pal (inp !!! (4 * i)%nat) (inp !!! (4 * i + 1)%nat)
            (inp !!! (4 * i + 2)%nat) 0 (Z.of_nat (length pal)))
    with (pixel_nearest pal inp i).
  rewrite Hc. cbn [pixel_color red green blue]. unfold isub.
  rewrite !Z.sub_diag. change (wrap32 0) with 0.
  now rewrite diffuse_kernel_zero by apply no_error_wf.
Qed.

Lemma diffuse_row_exact pal kernel W inp (dest : nat) n : forall x out,
  wf_palette pal -> 0 <= x -> x + Z.of_nat n <= W ->
  (dest + Z.to_nat x + n <= length out)%nat ->
  (forall i, (dest + Z.to_nat x <= i < dest + Z.to_nat x + n)%nat ->
     exists k, 0 <= k < Z.of_nat (length pal)
       /\ pal_at pal k = pixel_color inp i) ->
  let res := diffuse_row pal kernel W inp n (4 * (dest + Z.to_nat x)) dest x
               (out, no_error W) in
  res.2 = no_error W /\ length res.1 = length out
  /\ forall i,
       res.1 !! i
       = if decide (dest + Z.to_nat x <= i < dest + Z.to_nat x + n)%nat
         then Some (u8 (pixel_nearest pal inp i)) else out !! i.
Proof.
  induction n as [|n IH]; intros x out Hwf Hx HxW Hlen Hexact res;
    subst res; cbn [diffuse_row].
  - cbn [fst snd]. repeat split. intros i. now rewrite decide_False by lia.
  - destruct (Hexact (dest + Z.to_nat x)%nat ltac:(lia)) as (k & Hk & Hcol).
    rewrite (diffuse_pixel_exact pal kernel W inp _ dest x out k)
      by (assumption || lia).
    replace (4 * (dest + Z.to_nat x) + 4)%nat
      with (4 * (dest + Z.to_nat (x + 1)))%nat by lia.
    destruct (IH (x + 1)
                (<[(dest + Z.to_nat x)%nat
                   := u8 (pixel_nearest pal inp (dest + Z.to_nat x))]> out)
                Hwf) as (H1 & H2 & H3);
      [lia | lia | rewrite length_insert; lia | |].
    { intros i Hi. apply Hexact. lia. }
    split; [exact H1|]. split; [now rewrite H2, length_insert|].
    intros i. rewrite H3.
    destruct (decide (i = dest + Z.to_nat x)%nat) as [->|Hne].
    + rewrite decide_False by lia. rewrite decide_True by lia.
      apply list_lookup_insert_eq. lia.
    + rewrite list_lookup_insert_ne by lia.
      destruct (decide (dest + Z.to_nat (x + 1) <= i
                        < dest + Z.to_nat (x + 1) + n)%nat).
      * now rewrite decide_True by lia.
      * now rewrite decide_False by lia.
Qed.

Lemma diffuse_image_exact pal kernel W inp n : forall (dest : nat) out,
  wf_palette pal -> 0 <= W ->
  (dest + n * Z.to_nat W <= length out)%nat ->
  (forall i, (dest <= i < dest + n * Z.to_nat W)%nat ->
     exists k, 0 <= k < Z.of_nat (length pal)
       /\ pal_at pal k = pixel_color inp i) ->
  let res := diffuse_image pal kernel W inp n (4 * dest) dest
               (out, no_error W) in
  length res.1 = length out
  /\ forall i,
       res.1 !! i
       = if decide (dest <= i < dest + n * Z.to_nat W)%nat
         then Some (u8 (pixel_nearest pal inp i)) else out !! i.
Proof.
  induction n as [|n IH]; intros dest out Hwf HW Hlen Hexact res;
    subst res; cbn [diffuse_image].
  - cbn [fst]. split; [reflexivity|].
    intros i. now rewrite decide_False by lia.
  - pose proof (diffuse_row_exact pal kernel W inp dest (Z.to_nat W) 0 out
                  Hwf ltac:(lia) ltac:(lia)) as Hrow.
    change (Z.to_nat 0) with 0%nat in Hrow. rewrite Nat.add_0_r in Hrow.
    destruct Hrow as (R1 & R2 & R3); [lia | |].
    { intros i Hi. apply Hexact. lia. }
    set (st1 := diffuse_row pal kernel W inp (Z.to_nat W) (4 * dest) dest 0
                  (out, no_error W)) in *.
    rewrite R1, no_error_rotate.
    replace (4 * dest + 4 * Z.to_nat W)%nat
      with (4 * (dest + Z.to_nat W))%nat by lia.
    destruct (IH (dest + Z.to_nat W)%nat st1.1 Hwf HW) as (H1 & H2);
      [rewrite R2; lia | |].
    { intros i Hi. apply Hexact. lia. }
    split; [now rewrite H1|].
    intros i. rewrite H2, R3.
    destruct (decide (dest + Z.to_nat W <= i
                      < dest + Z.to_nat W + n * Z.to_nat W)%nat).
    + now rewrite decide_True by lia.
    + destruct (decide (dest <= i < dest + Z.to_nat W)%nat).
      * now rewrite decide_True by lia.
      * now rewrite decide_False by lia.
Qed.

(** In every dither mode the output is what quantising each pixel on its
    own gives, when all the colours are in the palette. *)
Lemma RGBtoPalette_exact_lookup uninit bm pal dithermode :
  0 < Width bm -> 0 < Height bm -> BytesPerPixel bm = 4 ->
  wf_palette pal ->
  (forall i, (i < Z.to_nat (Width bm * Height bm))%nat ->
     exists k, 0 <= k < Z.of_nat (length pal)
       /\ pal_at pal k = pixel_color (Pixels bm) i) ->
  exists out,
    RGBtoPalette uninit bm pal dithermode = Some out
    /\ Width out = Width bm /\ Height out = Height bm
    /\ Pitch out = Width bm /\ BytesPerPixel out = 1
    /\ length (Pixels out) = Z.to_nat (Width bm * Height bm)
    /\ forall i, (i < Z.to_nat (Width bm * Height bm))%nat ->
         Pixels out !! i = Some (u8 (pixel_nearest pal (Pixels bm) i)).
Proof.
  intros HW HH Hbpp Hwf Hexact.
  unfold RGBtoPalette.
  rewrite Alloc_Some by lia. cbn [mbind option_bind Width Height].
  assert (length (new_bytes uninit (Width bm * 1 * Height bm))
          = Z.to_nat (Width bm * Height bm)) as Hlen.
  { rewrite new_bytes_length. f_equal. lia. }
  case_decide.
  - unfold RGB2P_BasicQuantize. cbn [Width Height BytesPerPixel Pixels].
    rewrite !option_guard_True by auto. cbn [mbind option_bind].
    eexists. split; [reflexivity|].
    cbn [Pixels with_pixels Width Height Pitch BytesPerPixel].
    rewrite BasicQuantize_loop_length.
    repeat split; try reflexivity; try lia.
    intros i Hi. change 0%nat with (4 * 0)%nat at 1.
    rewrite BasicQuantize_loop_lookup by (rewrite Hlen; lia).
    rewrite decide_True by lia. repeat f_equal. lia.
  - unfold RGB2P_ErrorDiffusion. cbn [Width Height BytesPerPixel Pixels].
    rewrite !option_guard_True by auto. cbn [mbind option_bind].
    eexists. split; [reflexivity|].
    cbn [Pixels with_pixels Width Height Pitch BytesPerPixel].
    match goal with
    | |- context [diffuse_image pal ?k ?W ?inp ?n 0 0 (?o, _)] =>
        pose proof (diffuse_image_exact pal k W inp n 0 o Hwf ltac:(lia))
          as Himg
    end.
    change (4 * 0)%nat with 0%nat in Himg. fold (no_error (Width bm)).
    destruct Himg as [H1 H2]; [rewrite Hlen; nia | |].
    { intros i Hi. apply Hexact. nia. }
    repeat split; try reflexivity; try lia;
      try exact (eq_trans H1 Hlen).
    intros i Hi. rewrite H2. rewrite decide_True by nia. reflexivity.
Qed.

(** X13: when every pixel's colour is in the palette, [RGBtoPalette]
    finds for each pixel the first slot holding exactly its colour, in
    every dither mode: no error is diffused, so dithering changes nothing.
    The byte stored is the slot's low eight bits: the slot itself when it
    is below 256. *)
Theorem RGBtoPalette_exact_colors uninit bm pal dithermode :
  0 < Width bm -> 0 < Height bm -> BytesPerPixel bm = 4 ->
  wf_palette pal ->
  (forall i, (i < Z.to_nat (Width bm * Height bm))%nat ->
     exists k, 0 <= k < Z.of_nat (length pal)
       /\ pal_at pal k = pixel_color (Pixels bm) i) ->
  exists out,
    RGBtoPalette uninit bm pal dithermode = Some out
    /\ Width out = Width bm /\ Height out = Height bm
    /\ BytesPerPixel out = 1
    /\ length (Pixels out) = Z.to_nat (Width bm * Height bm)
    /\ forall i, (i < Z.to_nat (Width bm * Height bm))%nat ->
         exists z,
           Pixels out !! i = Some (u8 z)
           /\ 0 <= z < Z.of_nat (length pal)
           /\ first_slot pal 0 (pixel_color (Pixels bm) i) z.
Proof.
  intros HW HH Hbpp Hwf Hexact.
  destruct (RGBtoPalette_exact_lookup uninit bm pal dithermode
              HW HH Hbpp Hwf Hexact)
    as (out & Hout & H1 & H2 & _ & H3 & H4 & H5).
  exists out. split; [exact Hout|]. repeat split; try assumption.
  intros i Hi. exists (pixel_nearest pal (Pixels bm) i).
  split; [now apply H5|].
  destruct (Hexact i Hi) as (k & Hk & Hcol).
  destruct (pixel_nearest_first pal (Pixels bm) i k Hwf Hk Hcol)
    as (Hfirst & Hle).
  split; [|exact Hfirst]. destruct Hfirst as (? & _). lia.
Qed.

(** *** From palette indices to RGB and back *)

Lemma pixel4_color px i c : pixel4 px i = rgba c -> pixel_color px i = c.
Proof.
  unfold pixel4, rgba. intros Hp.
  assert (forall j v, [red c; green c; blue c; 255] !! j = Some v ->
            px !!! (4 * i + j)%nat = v) as Hat.
  { intros j v Hj. rewrite <- Hp in Hj.
    apply lookup_take_Some in Hj as [Hj _]. rewrite lookup_drop in Hj.
    now apply list_lookup_total_correct. }
  unfold pixel_color. destruct c as [r g b]. cbn [red green blue] in *.
  rewrite <- (Nat.add_0_r (4 * i)) at 1.
  now rewrite (Hat 0%nat r), (Hat 1%nat g), (Hat 2%nat b).
Qed.

Lemma HAM_round_trip uninit step (minpal : nat) mask bm pal dithermode :
  (forall c s, Z.land s mask = 0 -> step pal c s = pal_at pal s) ->
  0 < Width bm -> 0 < Height bm -> BytesPerPixel bm = 1 ->
  Pitch bm = Width bm ->
  length (Pixels bm) = Z.to_nat (Width bm * Height bm) ->
  wf_palette pal -> (minpal <= length pal)%nat ->
  Forall (λ s, Z.land s mask = 0 /\ 0 <= s < Z.of_nat minpal /\ s < 256
               /\ forall k, 0 <= k < s -> pal_at pal k <> pal_at pal s)
         (Pixels bm) ->
  exists rgb,
    HAMtoRGB uninit step minpal bm pal = Some rgb
    /\ RGBtoPalette uninit rgb pal dithermode = Some bm.
Proof.
  intros Hbase HW HH Hbpp Hpitch Hlen Hwf Hpal Hsrc.
  destruct (HAMtoRGB_pixels uninit step minpal bm pal HW HH Hbpp Hlen Hpal)
    as (rgb & Hrgb & RW & RH & Rbpp & Rpx).
  exists rgb. split; [exact Hrgb|].
  set (src := Pixels bm) in *.
  set (n := Z.to_nat (Width bm * Height bm)) in *.
  destruct (HAM_pixels_of_running (step pal) (pal_at pal 0) mask pal src
              (Hbase)) as (_ & _ & Hpix).
  rewrite <- Rpx in Hpix.
  assert (forall i, (i < n)%nat ->
            exists s, src !! i = Some s /\ 0 <= s < Z.of_nat (length pal)
              /\ s < 256
              /\ pixel_color (Pixels rgb) i = pal_at pal s
              /\ forall k, 0 <= k < s -> pal_at pal k <> pal_at pal s)
    as Hcol.
  { intros i Hi.
    destruct (lookup_lt_is_Some_2 src i) as [s Hs]; [lia|].
    pose proof (proj1 (Forall_lookup _ _) Hsrc i s Hs)
      as (_ & Hrange & H256 & Hdup).
    exists s. split; [exact Hs|]. split; [lia|]. split; [exact H256|].
    split; [|exact Hdup].
    apply pixel4_color. rewrite Hpix; [| | lia].
    - now rewrite (list_lookup_total_correct _ _ _ Hs).
    - eapply list.Forall_impl; [exact Hsrc|]. intros ? (? & _). assumption. }
  destruct (RGBtoPalette_exact_lookup uninit rgb pal dithermode)
    as (out & Hout & OW & OH & OP & Obpp & Olen & Opx);
    [lia | lia | exact Rbpp | exact Hwf | |].
  { intros i Hi. rewrite RW, RH in Hi. fold n in Hi.
    destruct (Hcol i Hi) as (s & _ & Hs & _ & Hc & _).
    exists s. split; [exact Hs | now symmetry]. }
  rewrite Hout. f_equal.
  rewrite RW, RH in *. fold n in Olen, Opx.
  assert (Pixels out = src) as Hsame.
  { apply list_eq. intros i.
    destruct (decide (i < n)%nat) as [Hi|Hi].
    - rewrite Opx by exact Hi.
      destruct (Hcol i Hi) as (s & Hs & Hrange & H256 & Hc & Hdup).
      rewrite Hs. f_equal.
      destruct (pixel_nearest_first pal (Pixels rgb) i s Hwf Hrange
                  (eq_sym Hc)) as ((Hz0 & Hzc & _) & Hzs).
      set (z := pixel_nearest pal (Pixels rgb) i) in *.
      assert (z = s) as ->.
      { destruct (decide (z = s)) as [?|Hne]; [assumption|].
        exfalso. apply (Hdup z); [lia|]. now rewrite Hzc. }
      apply u8_small. unfold is_byte. lia.
    - rewrite !lookup_ge_None_2 by lia. reflexivity. }
  destruct out as [oW oH oP ob opx], bm as [bW bH bP bb bpx].
  cbn [Width Height Pitch BytesPerPixel Pixels] in *.
  subst src. congruence.
Qed.

Lemma land_low_zero s lim mask :
  Forall (λ v, Z.land v mask = 0) (seqZ 0 lim) ->
  0 <= s < lim -> Z.land s mask = 0.
Proof. intros Hall Hs. exact (below_all _ lim Hall s Hs). Qed.

(** X14: a picture made of base colours only survives the trip through
    RGB: decoding it as HAM6 (codes below 16) or HAM8 (codes below 64) and
    mapping the result back to the palette returns the picture, in every
    dither mode, provided no earlier palette slot holds the colour of a
    code that is used, and the size of the four-byte picture in between
    is one the constructor can compute in [int] ([alloc_fits]). *)
Theorem HAM_palette_round_trip uninit bm pal dithermode :
  0 < Width bm -> 0 < Height bm -> BytesPerPixel bm = 1 ->
  Pitch bm = Width bm ->
  length (Pixels bm) = Z.to_nat (Width bm * Height bm) ->
  alloc_fits (Width bm) (Height bm) 4 ->
  wf_palette pal ->
  Forall (λ s, forall k, 0 <= k < s -> pal_at pal k <> pal_at pal s)
         (Pixels bm) ->
  ((16 <= length pal)%nat -> Forall (λ s, 0 <= s < 16) (Pixels bm) ->
   exists rgb,
     HAM6toRGB uninit bm pal = Some rgb
     /\ RGBtoPalette uninit rgb pal dithermode = Some bm)
  /\ ((64 <= length pal)%nat -> Forall (λ s, 0 <= s < 64) (Pixels bm) ->
      exists rgb,
        HAM8toRGB uninit bm pal = Some rgb
        /\ RGBtoPalette uninit rgb pal dithermode = Some bm).
Proof.
  intros HW HH Hbpp Hpitch Hlen _ Hwf Hdup. split.
  - intros Hpal Hcodes.
    apply (HAM_round_trip uninit ham6_pixel 16 0xF0); try assumption.
    + intros c s. apply ham6_base.
    + rewrite Forall_lookup in Hdup, Hcodes |- *. intros i s Hs.
      pose proof (Hcodes i s Hs) as Hrange.
      split; [|split; [lia | split; [lia | exact (Hdup i s Hs)]]].
      apply (land_low_zero s 16); [|exact Hrange].
      apply (bool_decide_unpack _). vm_compute. exact I.
  - intros Hpal Hcodes.
    apply (HAM_round_trip uninit ham8_pixel 64 0xC0); try assumption.
    + intros c s. apply ham8_base.
    + rewrite Forall_lookup in Hdup, Hcodes |- *. intros i s Hs.
      pose proof (Hcodes i s Hs) as Hrange.
      split; [|split; [lia | split; [lia | exact (Hdup i s Hs)]]].
      apply (land_low_zero s 64); [|exact Hrange].
      apply (bool_decide_unpack _). vm_compute. exact I.
Qed.

(** *** More of Hold-And-Modify *)

(** Each output pixel is the loop body applied to the pixel before it,
    the first one to palette slot 0. *)
Lemma HAM_prev_step uninit step (minpal : nat) mask bm pal :
  (forall c s, Z.land s mask = 0 -> step pal c s = pal_at pal s) ->
  0 < Width bm -> 0 < Height bm -> BytesPerPixel bm = 1 ->
  length (Pixels bm) = Z.to_nat (Width bm * Height bm) ->
  (minpal <= length pal)%nat ->
  exists out,
    HAMtoRGB uninit step minpal bm pal = Some out
    /\ forall i, (i < Z.to_nat (Width bm * Height bm))%nat ->
         exists c,
           match i with
           | O => rgba (pal_at pal 0)
           | S j => pixel4 (Pixels out) j
           end = rgba c
           /\ pixel4 (Pixels out) i = rgba (step pal c (Pixels bm !!! i)).
Proof.
  intros Hbase HW HH Hbpp Hlen Hpal.
  destruct (HAMtoRGB_pixels uninit step minpal bm pal HW HH Hbpp Hlen Hpal)
    as (out & Hout & _ & _ & _ & Hpx).
  exists out. split; [exact Hout|].
  set (src := Pixels bm) in *.
  destruct (HAM_pixels_of_running (step pal) (pal_at pal 0) mask pal src
              Hbase) as (_ & Hpix & _).
  rewrite <- Hpx in Hpix.
  intros i Hi.
  exists (foldl (step pal) (pal_at pal 0) (take i src)). split.
  - destruct i as [|j]; [reflexivity|]. apply Hpix. lia.
  - rewrite Hpix by lia.
    destruct (lookup_lt_is_Some_2 src i) as [s Hs]; [lia|].
    rewrite (take_S_r _ _ _ Hs), foldl_app. cbn [foldl].
    now rewrite (list_lookup_total_correct _ _ _ Hs).
Qed.

Lemma rgba_inj c r g b : rgba c = [r; g; b; 0xFF] -> c = mkColor r g b.
Proof. destruct c. unfold rgba. cbn. intros [= -> -> ->]. reflexivity. Qed.

Lemma ham8_intensity s :
  let v := Z.land s 0x3F in
  let lvl := Z.lor (Z.shiftl v 2) (Z.shiftr v 4) in
  u8 lvl = lvl /\ is_byte lvl /\ Z.shiftr lvl 2 = v /\ Z.land lvl 3 = Z.shiftr v 4.
Proof.
  intros v lvl. subst lvl.
  apply (below_all
           (λ v, u8 (Z.lor (Z.shiftl v 2) (Z.shiftr v 4))
                 = Z.lor (Z.shiftl v 2) (Z.shiftr v 4)
                 /\ 0 <= Z.lor (Z.shiftl v 2) (Z.shiftr v 4) < 256
                 /\ Z.shiftr (Z.lor (Z.shiftl v 2) (Z.shiftr v 4)) 2 = v
                 /\ Z.land (Z.lor (Z.shiftl v 2) (Z.shiftr v 4)) 3
                    = Z.shiftr v 4) 64).
  - apply (bool_decide_unpack _). vm_compute. exact I.
  - subst v. change 0x3F with (Z.ones 6). rewrite Z.land_ones by lia.
    apply Z.mod_pos_bound. lia.
Qed.

(** X15: in HAM8 a byte whose top two bits are 01, 10 or 11 replaces
    the blue, red or green channel of the pixel before it (the colour of
    slot 0 for the first pixel) and keeps the other two.  The new level has
    the byte's low six bits as its top six bits and repeats their top two
    bits below.  The size of the four-byte output has to fit [int]
    ([alloc_fits]). *)
Theorem HAM8_modify_one_channel uninit bm pal :
  0 < Width bm -> 0 < Height bm -> BytesPerPixel bm = 1 ->
  length (Pixels bm) = Z.to_nat (Width bm * Height bm) ->
  alloc_fits (Width bm) (Height bm) 4 ->
  (64 <= length pal)%nat ->
  let src := Pixels bm in
  let n := Z.to_nat (Width bm * Height bm) in
  exists out,
    HAM8toRGB uninit bm pal = Some out
    /\ forall i r g b, (i < n)%nat ->
         let s := src !!! i in
         let v := Z.land s 0x3F in
         let lvl := Z.lor (Z.shiftl v 2) (Z.shiftr v 4) in
         match i with
         | O => rgba (pal_at pal 0)
         | S j => pixel4 (Pixels out) j
         end = [r; g; b; 0xFF] ->
         is_byte lvl /\ Z.shiftr lvl 2 = v /\ Z.land lvl 3 = Z.shiftr v 4
         /\ (Z.land s 0xC0 = 0x40 -> pixel4 (Pixels out) i = [r; g; lvl; 0xFF])
         /\ (Z.land s 0xC0 = 0x80 -> pixel4 (Pixels out) i = [lvl; g; b; 0xFF])
         /\ (Z.land s 0xC0 = 0xC0 -> pixel4 (Pixels out) i = [r; lvl; b; 0xFF]).
Proof.
  intros HW HH Hbpp Hlen _ Hpal src n.
  destruct (HAM_prev_step uninit ham8_pixel 64 0xC0 bm pal (ham8_base pal)
              HW HH Hbpp Hlen Hpal) as (out & Hout & Hstep).
  exists out. split; [exact Hout|].
  intros i r g b Hi s v lvl Hprev.
  destruct (Hstep i Hi) as (c & Hc & Hpix).
  rewrite Hc in Hprev. apply rgba_inj in Hprev. subst c.
  destruct (ham8_intensity s) as (Hu & Hbyte & Htop & Hlow).
  fold v lvl in Hu, Hbyte, Htop, Hlow.
  split; [exact Hbyte|]. split; [exact Htop|]. split; [exact Hlow|].
  fold src s in Hpix. rewrite Hpix.
  unfold ham8_pixel. fold v. cbv zeta. fold lvl. rewrite Hu.
  repeat split; intros ->; reflexivity.
Qed.

(** X16: the HAM6 decoder knows the codes 0x00..0x3F only.  A byte with
    bit 6 or bit 7 set changes nothing: its pixel repeats the pixel before
    it, or the colour of slot 0 when it is the first.  The size of the
    four-byte output has to fit [int] ([alloc_fits]). *)
Theorem HAM6_high_codes_hold uninit bm pal :
  0 < Width bm -> 0 < Height bm -> BytesPerPixel bm = 1 ->
  length (Pixels bm) = Z.to_nat (Width bm * Height bm) ->
  alloc_fits (Width bm) (Height bm) 4 ->
  (16 <= length pal)%nat ->
  let src := Pixels bm in
  let n := Z.to_nat (Width bm * Height bm) in
  exists out,
    HAM6toRGB uninit bm pal = Some out
    /\ forall i, (i < n)%nat -> 0x40 <= src !!! i < 0x100 ->
         pixel4 (Pixels out) i
         = match i with
           | O => rgba (pal_at pal 0)
           | S j => pixel4 (Pixels out) j
           end.
Proof.
  intros HW HH Hbpp Hlen _ Hpal src n.
  destruct (HAM_prev_step uninit ham6_pixel 16 0xF0 bm pal (ham6_base pal)
              HW HH Hbpp Hlen Hpal) as (out & Hout & Hstep).
  exists out. split; [exact Hout|].
  intros i Hi Hs.
  destruct (Hstep i Hi) as (c & Hc & Hpix).
  rewrite Hc, Hpix. f_equal. fold src.
  assert (Forall (λ s, forall c, ham6_pixel pal c s = c) (seqZ 0x40 0xC0))
    as Hall.
  { apply Forall_seqZ. intros s' Hs' c'. unfold ham6_pixel.
    assert (Forall (λ x, Z.land x 0xF0 <> 0x00 /\ Z.land x 0xF0 <> 0x10
                        /\ Z.land x 0xF0 <> 0x20 /\ Z.land x 0xF0 <> 0x30)
                   (seqZ 0x40 0xC0)) as Hmode
      by (apply (bool_decide_unpack _); vm_compute; exact I).
    rewrite list.Forall_forall in Hmode.
    destruct (Hmode s') as (H0 & H1 & H2 & H3); [apply elem_of_seqZ; lia|].
    cbv zeta.
    rewrite (proj2 (Z.eqb_neq _ _) H0), (proj2 (Z.eqb_neq _ _) H1),
      (proj2 (Z.eqb_neq _ _) H2), (proj2 (Z.eqb_neq _ _) H3).
    reflexivity. }
  rewrite list.Forall_forall in Hall. apply Hall. apply elem_of_seqZ. lia.
Qed.

(** ** The command line *)

Lemma find_last_of_None c s : find_last_of c s = None <-> (c ∉ s).
Proof.
  induction s as [|a s IH]; cbn [find_last_of].
  - split; [intros _; apply not_elem_of_nil | reflexivity].
  - rewrite not_elem_of_cons.
    destruct (find_last_of c s) as [i|].
    + split; [discriminate|]. intros [_ Hs]. apply IH in Hs. discriminate.
    + destruct (decide (a = c)) as [->|Hne].
      * split; [discriminate | intros [? _]; congruence].
      * split; [intros _|reflexivity]. split; [congruence | now apply IH].
Qed.

Lemma find_last_of_app c stem ext :
  c ∉ ext -> find_last_of c (stem ++ c :: ext) = Some (length stem).
Proof.
  intros Hext. induction stem as [|a stem IH].
  - cbn [app find_last_of length].
    rewrite (proj2 (find_last_of_None c ext) Hext).
    now rewrite decide_True by reflexivity.
  - cbn [app find_last_of length]. now rewrite IH.
Qed.

Lemma find_last_of_Some c s i :
  find_last_of c s = Some i ->
  exists ext, s = take i s ++ c :: ext /\ (c ∉ ext) /\ length (take i s) = i.
Proof.
  revert i. induction s as [|a s IH]; intros i; cbn [find_last_of].
  - discriminate.
  - destruct (find_last_of c s) as [j|] eqn:Hs.
    + intros Hi. apply (inj Some) in Hi. subst i.
      destruct (IH j eq_refl) as (ext & Heq & Hext & Hlen).
      exists ext. cbn [take app length]. rewrite Hlen.
      repeat split; [|exact Hext]. now rewrite <- Heq.
    + destruct (decide (a = c)) as [->|Hne]; [|discriminate].
      intros Hi. apply (inj Some) in Hi. subst i.
      exists s. cbn [take app length]. repeat split.
      now apply find_last_of_None.
Qed.

Lemma default_outname_no_dot s :
  "."%char ∉ s -> default_outname s = s ++ gif_ext.
Proof.
  intros Hs. unfold default_outname.
  now rewrite (proj2 (find_last_of_None _ s) Hs).
Qed.

Lemma default_outname_ext stem ext :
  "."%char ∉ ext ->
  default_outname (stem ++ "."%char :: ext)
  = if bool_decide ((1 ≤ length ext ≤ 4)%nat ∧ head ext ≠ Some " "%char)
    then stem ++ gif_ext
    else (stem ++ "."%char :: ext) ++ gif_ext.
Proof.
  intros Hext. unfold default_outname.
  rewrite find_last_of_app by exact Hext.
  rewrite take_app_length.
  assert ((stem ++ "."%char :: ext) !! (length stem + 1)%nat = head ext)
    as ->.
  { rewrite lookup_app_r by lia.
    replace (length stem + 1 - length stem)%nat with 1%nat by lia.
    now destruct ext. }
  rewrite length_app. cbn [length].
  replace (length stem + S (length ext) - length stem - 1)%nat
    with (length ext) by lia.
  rewrite (bool_decide_ext
             ((0 < length ext)%nat ∧ (length ext ≤ 4)%nat
              ∧ head ext ≠ Some " "%char)
             ((1 ≤ length ext ≤ 4)%nat ∧ head ext ≠ Some " "%char))
    by (split; intros; repeat split; tauto || lia).
  now case_bool_decide.
Qed.

Lemma default_outname_stem s :
  exists stem, default_outname s = stem ++ gif_ext /\ stem `prefix_of` s.
Proof.
  destruct (find_last_of "."%char s) as [i|] eqn:Hfind.
  - destruct (find_last_of_Some _ s i Hfind) as (ext & Heq & Hext & _).
    pose proof (default_outname_ext (take i s) ext Hext) as Hd.
    rewrite <- Heq in Hd. rewrite Hd.
    case_bool_decide.
    + exists (take i s). split; [reflexivity|]. apply prefix_take.
    + exists s. split; reflexivity.
  - exists s. split; [|reflexivity].
    apply default_outname_no_dot. now apply find_last_of_None.
Qed.

(** X17: the output name made from the input name: an extension of one to
    four characters that does not start with a space is replaced by
    [.gif]; a name without a dot, or whose last extension is empty, longer
    than four characters or starts with a space, gets [.gif] appended. *)
Theorem default_outname_spec s :
  ("."%char ∉ s -> default_outname s = s ++ gif_ext)
  /\ (forall stem ext, s = stem ++ "."%char :: ext -> "."%char ∉ ext ->
        ((1 ≤ length ext ≤ 4)%nat -> head ext ≠ Some " "%char ->
         default_outname s = stem ++ gif_ext)
        /\ ((length ext = 0 ∨ 4 < length ext)%nat \/ head ext = Some " "%char ->
            default_outname s = s ++ gif_ext))
  /\ exists stem, default_outname s = stem ++ gif_ext /\ stem `prefix_of` s.
Proof.
  split; [apply default_outname_no_dot|]. split.
  - intros stem ext -> Hext. rewrite default_outname_ext by exact Hext.
    split.
    + intros Hlen Hhead. now rewrite bool_decide_eq_true_2.
    + intros Hbad. rewrite bool_decide_eq_false_2; [reflexivity|].
      intros [Hlen Hhead]. destruct Hbad as [Hbad|Hbad]; [lia | congruence].
  - apply default_outname_stem.
Qed.

Lemma default_outname_gif stem :
  default_outname (stem ++ gif_ext) = stem ++ gif_ext.
Proof.
  unfold gif_ext at 1.
  rewrite default_outname_ext.
  - rewrite bool_decide_eq_true_2; [reflexivity|].
    split; [cbn; lia | cbn; discriminate].
  - rewrite !not_elem_of_cons. repeat split; try discriminate.
    apply not_elem_of_nil.
Qed.

(** X18: the output name always ends in [.gif]; it is the input name
    itself exactly when the input name already ends in [.gif]; and making
    an output name from an output name changes nothing. *)
Theorem default_outname_fixed s :
  gif_ext `suffix_of` default_outname s
  /\ (default_outname s = s <-> gif_ext `suffix_of` s)
  /\ default_outname (default_outname s) = default_outname s.
Proof.
  destruct (default_outname_stem s) as (stem & Hstem & _).
  split; [|split].
  - rewrite Hstem. now exists stem.
  - split.
    + intros Heq. rewrite <- Heq, Hstem. now exists stem.
    + intros [stem' ->]. apply default_outname_gif.
  - rewrite Hstem. apply default_outname_gif.
Qed.

(** X19: the program returns 0 exactly when it is given one or two
    arguments and the first names a file that opens.  It then reads that
    file; with two arguments the second is the output name as it stands,
    with one the output name is made from the input name, ends in [.gif]
    and is the input file itself when that is a [.gif]. *)
Theorem tmain_spec can_open argv :
  (exit_code (tmain can_open argv) = 0
   <-> (length argv = 2%nat \/ length argv = 3%nat)
       /\ can_open (argv !!! 1%nat) = true)
  /\ (forall prog infile outname,
        argv = [prog; infile; outname] -> can_open infile = true ->
        tmain can_open argv = Convert infile outname)
  /\ (forall prog infile,
        argv = [prog; infile] -> can_open infile = true ->
        exists outname,
          tmain can_open argv = Convert infile outname
          /\ gif_ext `suffix_of` outname
          /\ (outname = infile <-> gif_ext `suffix_of` infile))
  /\ (forall name, tmain can_open argv = CannotOpen name ->
        name = argv !!! 1%nat /\ can_open name = false)
  /\ (tmain can_open argv = Usage
      <-> (length argv < 2)%nat \/ (3 < length argv)%nat).
Proof.
  unfold tmain.
  split; [|split; [|split; [|split]]].
  - case_decide as Hargc; [cbn; split; [discriminate | lia]|].
    destruct (can_open (argv !!! 1%nat)) eqn:Hopen; cbn [negb].
    + case_decide; cbn; split; intros; (reflexivity || (split; [lia|reflexivity])).
    + cbn. split; [discriminate | intros [_ ?]; discriminate].
  - intros prog infile outname -> Hopen. cbn [length].
    rewrite decide_False by lia.
    change ([prog; infile; outname] !!! 1%nat) with infile.
    rewrite Hopen. cbn [negb]. now rewrite decide_True by reflexivity.
  - intros prog infile -> Hopen. cbn [length].
    rewrite decide_False by lia.
    change ([prog; infile] !!! 1%nat) with infile.
    rewrite Hopen. cbn [negb]. rewrite decide_False by lia.
    exists (default_outname infile). split; [reflexivity|].
    destruct (default_outname_stem infile) as (stem & Hstem & _).
    split.
    + rewrite Hstem. now exists stem.
    + split.
      * intros Heq. rewrite <- Heq, Hstem. now exists stem.
      * intros [stem' ->]. apply default_outname_gif.
  - intros name. case_decide; [discriminate|].
    destruct (can_open (argv !!! 1%nat)) eqn:Hopen; cbn [negb].
    + case_decide; discriminate.
    + intros [= <-]. split; [reflexivity | exact Hopen].
  - case_decide as Hargc; [split; [lia | reflexivity]|].
    destruct (can_open (argv !!! 1%nat)); cbn [negb].
    + case_decide; split; (discriminate || lia).
    + split; (discriminate || lia).
Qed.

(** ** Who owns the pixel buffer *)

Lemma object_at_set a this o m :
  object_at a (set_object this o m)
  = if decide (a = this)
    then (if decide (this < length (objects m))%nat then Some o else None)
    else object_at a m.
Proof.
  unfold object_at, set_object. cbn [objects].
  destruct (decide (a = this)) as [->|Hne].
  - case_decide as Hlt.
    + now rewrite list_lookup_insert_eq by exact Hlt.
    + rewrite list_insert_ge by lia. now rewrite lookup_ge_None_2 by lia.
  - now rewrite list_lookup_insert_ne by congruence.
Qed.

Lemma object_at_length a o m :
  object_at a m = Some o -> (a < length (objects m))%nat.
Proof.
  unfold object_at. intros Ho. apply lookup_lt_is_Some.
  destruct (objects m !! a); [eauto | discriminate].
Qed.

Lemma block_at_length p b m :
  block_at p m = Some b -> (p < length (blocks m))%nat.
Proof.
  unfold block_at. intros Hb. apply lookup_lt_is_Some.
  destruct (blocks m !! p); [eauto | discriminate].
Qed.

Lemma delete_array_Some p m :
  is_Some (block_at p m) ->
  exists m', delete_array p m = Some m'
    /\ objects m' = objects m
    /\ forall q, block_at q m' = if decide (q = p) then None else block_at q m.
Proof.
  intros [b Hb]. unfold delete_array. rewrite Hb. cbn [mbind option_bind].
  eexists. split; [reflexivity|]. split; [reflexivity|].
  intros q. unfold block_at. cbn [blocks].
  destruct (decide (q = p)) as [->|Hne].
  - rewrite list_lookup_insert_eq by (eapply block_at_length; eassumption).
    reflexivity.
  - now rewrite list_lookup_insert_ne by congruence.
Qed.

(** Releasing the buffer of an object that holds a live block or none. *)
Lemma delete_pixels_Some o m :
  (forall p, oPixels o = Some p -> is_Some (block_at p m)) ->
  exists m', delete_pixels o m = Some m'
    /\ objects m' = objects m
    /\ forall q, block_at q m'
         = if decide (oPixels o = Some q) then None else block_at q m.
Proof.
  intros Hlive. unfold delete_pixels. destruct (oPixels o) as [p|].
  - destruct (delete_array_Some p m (Hlive p eq_refl)) as (m' & H1 & H2 & H3).
    exists m'. split; [exact H1|]. split; [exact H2|].
    intros q. rewrite H3.
    destruct (decide (q = p)) as [->|Hne].
    + now rewrite decide_True.
    + now rewrite decide_False by congruence.
  - exists m. split; [reflexivity|]. split; [reflexivity|].
    intros q. now rewrite decide_False by discriminate.
Qed.

(** What the move assignment leaves, object by object and block by
    block. *)
Lemma move_assign_moves this o m t src :
  well_owned m -> object_at this m = Some t -> object_at o m = Some src ->
  o <> this ->
  exists m',
    move_assign this o m = Some m'
    /\ (forall a, object_at a m'
          = if decide (a = o) then Some (mkObject 0 0 0 0 None)
            else if decide (a = this) then Some src
            else object_at a m)
    /\ (forall q, block_at q m'
          = if decide (oPixels t = Some q) then None else block_at q m).
Proof.
  intros (Hlive & _ & _) Ht Hsrc Hne.
  unfold move_assign. rewrite Ht, Hsrc. cbn [mbind option_bind].
  rewrite decide_True by exact Hne.
  destruct (delete_pixels_Some t m) as (m1 & H1 & H2 & H3).
  { intros p Hp. apply (Hlive p this). now exists t. }
  rewrite H1. cbn [mbind option_bind].
  pose proof (object_at_length _ _ _ Ht) as Hlt.
  pose proof (object_at_length _ _ _ Hsrc) as Hlo.
  assert (forall a, object_at a m1 = object_at a m) as Hobj
    by (intros a; unfold object_at; now rewrite H2).
  unfold Clear. rewrite object_at_set, decide_False by exact Hne.
  rewrite Hobj, Hsrc. cbn [mbind option_bind].
  eexists. split; [reflexivity|]. split.
  - intros a. rewrite object_at_set.
    destruct (decide (a = o)) as [->|Hao].
    + rewrite decide_True; [reflexivity|].
      unfold set_object. cbn [objects]. rewrite length_insert, H2. exact Hlo.
    + rewrite object_at_set.
      destruct (decide (a = this)) as [->|Hat].
      * rewrite decide_True by (rewrite H2; exact Hlt).
        now destruct src.
      * apply Hobj.
  - intros q. rewrite <- H3. reflexivity.
Qed.

(** X20: move assignment between two different objects of a well-owned
    memory is defined, frees the buffer the target held, hands the target
    the fields and the buffer of the source with every byte as it was,
    leaves the source empty with a null pointer, and keeps the memory
    well owned: nothing is freed twice, nothing leaks.  Assigning an
    object to itself changes nothing. *)
Theorem move_assign_owned this o m t src :
  well_owned m -> object_at this m = Some t -> object_at o m = Some src ->
  exists m',
    move_assign this o m = Some m'
    /\ well_owned m'
    /\ (o = this -> m' = m)
    /\ (o <> this ->
        bitmap_at this m' = bitmap_at o m
        /\ object_at o m' = Some (mkObject 0 0 0 0 None)
        /\ (forall p, oPixels t = Some p -> block_at p m' = None)
        /\ (forall a, a <> this -> a <> o -> bitmap_at a m' = bitmap_at a m)).
Proof.
  intros Hown Ht Hsrc.
  destruct (decide (o = this)) as [->|Hne].
  { exists m. unfold move_assign. rewrite Ht. cbn [mbind option_bind].
    rewrite decide_False by tauto.
    split; [reflexivity|]. split; [exact Hown|]. split; [reflexivity|].
    tauto. }
  destruct (move_assign_moves this o m t src Hown Ht Hsrc Hne)
    as (m' & Hm' & Hobj & Hblk).
  exists m'. split; [exact Hm'|].
  destruct Hown as (Hlive & Huniq & Hleak).
  assert (forall q, oPixels src = Some q -> oPixels t <> Some q) as Hdiff.
  { intros q Hq Htq. apply Hne.
    apply (Huniq q); [now exists src | now exists t]. }
  split; [|split; [tauto|]].
  - (* the memory stays well owned *)
    assert (forall p a, owner m' p a ->
              (a = this /\ oPixels src = Some p)
              \/ (a <> this /\ a <> o /\ owner m p a)) as Hown'.
    { intros p a (x & Hx & Hp). rewrite Hobj in Hx.
      destruct (decide (a = o)) as [->|Hao];
        [apply (inj Some) in Hx; subst x; discriminate|].
      destruct (decide (a = this)) as [->|Hat].
      - apply (inj Some) in Hx. subst x. now left.
      - right. repeat split; try assumption. now exists x. }
    split; [|split].
    + intros p a Ha. rewrite Hblk.
      destruct (Hown' p a Ha) as [[-> Hp]|(Hat & Hao & Hm)].
      * rewrite decide_False by (now apply Hdiff).
        apply (Hlive p o). now exists src.
      * rewrite decide_False.
        -- now apply (Hlive p a).
        -- intros Htp. apply Hat. apply (Huniq p); [exact Hm | now exists t].
    + intros p a b Ha Hb.
      destruct (Hown' p a Ha) as [[-> Hpa]|(Hat & Hao & Hma)];
        destruct (Hown' p b Hb) as [[-> Hpb]|(Hbt & Hbo & Hmb)].
      * reflexivity.
      * exfalso. apply Hbo. apply (Huniq p); [exact Hmb | now exists src].
      * exfalso. apply Hao. apply (Huniq p); [exact Hma | now exists src].
      * now apply (Huniq p).
    + intros p Hp. rewrite Hblk in Hp.
      destruct (decide (oPixels t = Some p)) as [Htp|Htp];
        [destruct Hp; discriminate|].
      destruct (Hleak p Hp) as (a & x & Hx & Hxp).
      destruct (decide (a = o)) as [->|Hao].
      * exists this, src. rewrite Hobj.
        rewrite decide_False by congruence. rewrite decide_True by reflexivity.
        split; [reflexivity|]. congruence.
      * destruct (decide (a = this)) as [->|Hat]; [congruence|].
        exists a, x. rewrite Hobj.
        rewrite decide_False by exact Hao. rewrite decide_False by exact Hat.
        split; assumption.
  - intros _. split; [|split; [|split]].
    + unfold bitmap_at. rewrite Hobj, Hsrc.
      rewrite decide_False by congruence. rewrite decide_True by reflexivity.
      cbn [mbind option_bind].
      destruct (oPixels src) as [q|] eqn:Hq; [|reflexivity].
      rewrite Hblk. rewrite decide_False by (now apply Hdiff). reflexivity.
    + rewrite Hobj. now rewrite decide_True.
    + intros p Hp. rewrite Hblk. now rewrite decide_True.
    + intros a Hat Hao. unfold bitmap_at. rewrite Hobj.
      rewrite decide_False by exact Hao. rewrite decide_False by exact Hat.
      destruct (object_at a m) as [x|] eqn:Hx; [|reflexivity].
      cbn [mbind option_bind].
      destruct (oPixels x) as [q|] eqn:Hq; [|reflexivity].
      rewrite Hblk. rewrite decide_False; [reflexivity|].
      intros Htq. apply Hat. apply (Huniq q); [now exists x | now exists t].
Qed.

Lemma object_at_app_l a x m bl :
  (a < length (objects m))%nat ->
  object_at a (mkMemory (objects m ++ [x]) bl) = object_at a m.
Proof.
  intros Ha. unfold object_at. cbn [objects].
  now rewrite lookup_app_l by exact Ha.
Qed.

Lemma object_at_app_new x m bl :
  object_at (length (objects m)) (mkMemory (objects m ++ [x]) bl) = x.
Proof.
  unfold object_at. cbn [objects].
  rewrite lookup_app_r by lia. rewrite Nat.sub_diag. now destruct x.
Qed.

Lemma object_at_app_ge a x m bl :
  (length (objects m) < a)%nat ->
  object_at a (mkMemory (objects m ++ [x]) bl) = None.
Proof.
  intros Ha. unfold object_at. cbn [objects].
  rewrite lookup_ge_None_2; [reflexivity|]. rewrite length_app. cbn. lia.
Qed.

Lemma object_at_ge a m :
  (length (objects m) <= a)%nat -> object_at a m = None.
Proof.
  intros Ha. unfold object_at. now rewrite lookup_ge_None_2 by exact Ha.
Qed.

(** X21: the move constructor makes a new object that takes over the
    fields and the buffer of the source, every byte as it was, and leaves
    the source empty with a null pointer.  No block is allocated or freed,
    every other object is untouched, and the memory stays well owned. *)
Theorem move_construct_owned o m src :
  well_owned m -> object_at o m = Some src ->
  exists this m',
    move_construct o m = Some (this, m')
    /\ well_owned m'
    /\ object_at this m = None
    /\ bitmap_at this m' = bitmap_at o m
    /\ object_at o m' = Some (mkObject 0 0 0 0 None)
    /\ blocks m' = blocks m
    /\ (forall a, a <> this -> a <> o -> object_at a m' = object_at a m).
Proof.
  intros (Hlive & Huniq & Hleak) Hsrc.
  pose proof (object_at_length _ _ _ Hsrc) as Hlo.
  set (this := length (objects m)).
  assert (o <> this) as Hne by (subst this; lia).
  unfold move_construct. rewrite Hsrc. cbn [mbind option_bind].
  unfold Clear. rewrite object_at_app_l by exact Hlo.
  rewrite Hsrc. cbn [mbind option_bind]. fold this.
  set (new := mkObject (oWidth src) (oHeight src) (oPitch src)
                (oBytesPerPixel src) (oPixels src)).
  assert (new = src) as Hnew by (subst new; now destruct src).
  set (m1 := mkMemory (objects m ++ [Some new]) (blocks m)).
  set (m' := set_object o (mkObject 0 0 0 0 None) m1).
  assert (forall a, object_at a m'
            = if decide (a = o) then Some (mkObject 0 0 0 0 None)
              else if decide (a = this) then Some src
              else object_at a m) as Hobj.
  { intros a. subst m'. rewrite object_at_set.
    destruct (decide (a = o)) as [->|Hao].
    - rewrite decide_True; [reflexivity|].
      subst m1. cbn [objects]. rewrite length_app. lia.
    - destruct (decide (a = this)) as [->|Hat].
      + subst m1 this. rewrite object_at_app_new. now rewrite Hnew.
      + subst m1. destruct (decide (a < length (objects m))%nat).
        * now apply object_at_app_l.
        * rewrite object_at_app_ge by (subst this; lia).
          symmetry. apply object_at_ge. lia. }
  assert (forall q, block_at q m' = block_at q m) as Hblk by reflexivity.
  exists this, m'. split; [reflexivity|].
  assert (object_at this m = None) as Hfresh
    by (apply object_at_ge; subst this; lia).
  assert (forall p a, owner m' p a ->
            (a = this /\ oPixels src = Some p)
            \/ (a <> this /\ a <> o /\ owner m p a)) as Hown'.
  { intros p a (x & Hx & Hp). rewrite Hobj in Hx.
    destruct (decide (a = o)) as [->|Hao];
      [apply (inj Some) in Hx; subst x; discriminate|].
    destruct (decide (a = this)) as [->|Hat].
    - apply (inj Some) in Hx. subst x. now left.
    - right. repeat split; try assumption. now exists x. }
  split; [|split; [exact Hfresh|split; [|split; [|split; [reflexivity|]]]]].
  - split; [|split].
    + intros p a Ha. rewrite Hblk.
      destruct (Hown' p a Ha) as [[-> Hp]|(Hat & Hao & Hm)].
      * apply (Hlive p o). now exists src.
      * now apply (Hlive p a).
    + intros p a b Ha Hb.
      destruct (Hown' p a Ha) as [[-> Hpa]|(Hat & Hao & Hma)];
        destruct (Hown' p b Hb) as [[-> Hpb]|(Hbt & Hbo & Hmb)].
      * reflexivity.
      * exfalso. apply Hbo. apply (Huniq p); [exact Hmb | now exists src].
      * exfalso. apply Hao. apply (Huniq p); [exact Hma | now exists src].
      * now apply (Huniq p).
    + intros p Hp. rewrite Hblk in Hp.
      destruct (Hleak p Hp) as (a & x & Hx & Hxp).
      destruct (decide (a = o)) as [->|Hao].
      * exists this, src. rewrite Hobj.
        rewrite decide_False by congruence. rewrite decide_True by reflexivity.
        split; [reflexivity|]. congruence.
      * assert (a <> this) as Hat by congruence.
        exists a, x. rewrite Hobj.
        rewrite decide_False by exact Hao. rewrite decide_False by exact Hat.
        split; assumption.
  - unfold bitmap_at. rewrite Hobj, Hsrc.
    rewrite decide_False by congruence. rewrite decide_True by reflexivity.
    reflexivity.
  - rewrite Hobj. now rewrite decide_True.
  - intros a Hat Hao. rewrite Hobj.
    rewrite decide_False by exact Hao. now rewrite decide_False by exact Hat.
Qed.

(** X22: destroying an object of a well-owned memory is defined and ends
    the object; the block it held is freed and no other block is; the other
    objects keep their bitmaps; the memory stays well owned.  Destroying
    the object a second time is not defined. *)
Theorem destroy_owned this m t :
  well_owned m -> object_at this m = Some t ->
  exists m',
    destroy this m = Some m'
    /\ well_owned m'
    /\ object_at this m' = None
    /\ destroy this m' = None
    /\ (forall q, block_at q m'
          = if decide (oPixels t = Some q) then None else block_at q m)
    /\ (forall a, a <> this -> bitmap_at a m' = bitmap_at a m).
Proof.
  intros (Hlive & Huniq & Hleak) Ht.
  pose proof (object_at_length _ _ _ Ht) as Hlt.
  destruct (delete_pixels_Some t m) as (m1 & H1 & H2 & H3).
  { intros p Hp. apply (Hlive p this). now exists t. }
  unfold destroy at 1. rewrite Ht. cbn [mbind option_bind].
  rewrite H1. cbn [mbind option_bind].
  set (m' := mkMemory (<[this := None]> (objects m1)) (blocks m1)).
  assert (forall a, object_at a m'
            = if decide (a = this) then None else object_at a m) as Hobj.
  { intros a. subst m'. unfold object_at. cbn [objects]. rewrite H2.
    destruct (decide (a = this)) as [->|Hat].
    - now rewrite list_lookup_insert_eq by exact Hlt.
    - now rewrite list_lookup_insert_ne by congruence. }
  assert (forall q, block_at q m'
            = if decide (oPixels t = Some q) then None else block_at q m)
    as Hblk by exact H3.
  exists m'. split; [reflexivity|].
  assert (forall p a, owner m' p a -> a <> this /\ owner m p a) as Hown'.
  { intros p a (x & Hx & Hp). rewrite Hobj in Hx.
    destruct (decide (a = this)) as [->|Hat]; [discriminate|].
    split; [exact Hat | now exists x]. }
  split; [|split; [|split; [|split; [exact Hblk|]]]].
  - split; [|split].
    + intros p a Ha. destruct (Hown' p a Ha) as [Hat Hm].
      rewrite Hblk. rewrite decide_False; [now apply (Hlive p a)|].
      intros Htp. apply Hat. apply (Huniq p); [exact Hm | now exists t].
    + intros p a b Ha Hb.
      destruct (Hown' p a Ha) as [_ Hma], (Hown' p b Hb) as [_ Hmb].
      now apply (Huniq p).
    + intros p Hp. rewrite Hblk in Hp.
      destruct (decide (oPixels t = Some p)) as [Htp|Htp];
        [destruct Hp; discriminate|].
      destruct (Hleak p Hp) as (a & x & Hx & Hxp).
      assert (a <> this) as Hat by congruence.
      exists a, x. rewrite Hobj. rewrite decide_False by exact Hat.
      split; assumption.
  - rewrite Hobj. now rewrite decide_True.
  - unfold destroy. rewrite Hobj. now rewrite decide_True.
  - intros a Hat. unfold bitmap_at. rewrite Hobj.
    rewrite decide_False by exact Hat.
    destruct (object_at a m) as [x|] eqn:Hx; [|reflexivity].
    cbn [mbind option_bind].
    destruct (oPixels x) as [q|] eqn:Hq; [|reflexivity].
    rewrite Hblk. rewrite decide_False; [reflexivity|].
    intros Htq. apply Hat. apply (Huniq q); [now exists x | now exists t].
Qed.

(** X23: [Clear] always leaves the object empty with a null pointer.
    With [release] set it frees the block the object held and the memory stays
    well owned.  Without, nothing is freed: a block the object held stays
    allocated and no object holds it any more. *)
Theorem Clear_owned this (release : bool) m t :
  well_owned m -> object_at this m = Some t ->
  exists m',
    Clear this release m = Some m'
    /\ object_at this m' = Some (mkObject 0 0 0 0 None)
    /\ (forall a, a <> this -> object_at a m' = object_at a m)
    /\ (release = true ->
        well_owned m'
        /\ forall q, block_at q m'
             = if decide (oPixels t = Some q) then None else block_at q m)
    /\ (release = false ->
        blocks m' = blocks m
        /\ forall p, oPixels t = Some p ->
             is_Some (block_at p m') /\ forall a, ~ owner m' p a).
Proof.
  intros (Hlive & Huniq & Hleak) Ht.
  pose proof (object_at_length _ _ _ Ht) as Hlt.
  unfold Clear. rewrite Ht. cbn [mbind option_bind].
  destruct release.
  - destruct (delete_pixels_Some t m) as (m1 & H1 & H2 & H3).
    { intros p Hp. apply (Hlive p this). now exists t. }
    rewrite H1. cbn [mbind option_bind].
    set (m' := set_object this (mkObject 0 0 0 0 None) m1).
    assert (forall a, object_at a m'
              = if decide (a = this) then Some (mkObject 0 0 0 0 None)
                else object_at a m) as Hobj.
    { intros a. subst m'. rewrite object_at_set.
      destruct (decide (a = this)) as [->|Hat].
      - now rewrite decide_True by (rewrite H2; exact Hlt).
      - unfold object_at. now rewrite H2. }
    assert (forall q, block_at q m'
              = if decide (oPixels t = Some q) then None else block_at q m)
      as Hblk by exact H3.
    exists m'. split; [reflexivity|].
    split; [rewrite Hobj; now rewrite decide_True|].
    split; [intros a Hat; rewrite Hobj; now rewrite decide_False|].
    split; [|discriminate]. intros _. split; [|exact Hblk].
    assert (forall p a, owner m' p a -> a <> this /\ owner m p a) as Hown'.
    { intros p a (x & Hx & Hp). rewrite Hobj in Hx.
      destruct (decide (a = this)) as [->|Hat];
        [apply (inj Some) in Hx; subst x; discriminate|].
      split; [exact Hat | now exists x]. }
    split; [|split].
    + intros p a Ha. destruct (Hown' p a Ha) as [Hat Hm].
      rewrite Hblk. rewrite decide_False; [now apply (Hlive p a)|].
      intros Htp. apply Hat. apply (Huniq p); [exact Hm | now exists t].
    + intros p a b Ha Hb.
      destruct (Hown' p a Ha) as [_ Hma], (Hown' p b Hb) as [_ Hmb].
      now apply (Huniq p).
    + intros p Hp. rewrite Hblk in Hp.
      destruct (decide (oPixels t = Some p)) as [Htp|Htp];
        [destruct Hp; discriminate|].
      destruct (Hleak p Hp) as (a & x & Hx & Hxp).
      assert (a <> this) as Hat by congruence.
      exists a, x. rewrite Hobj. rewrite decide_False by exact Hat.
      split; assumption.
  - set (m' := set_object this (mkObject 0 0 0 0 None) m).
    assert (forall a, object_at a m'
              = if decide (a = this) then Some (mkObject 0 0 0 0 None)
                else object_at a m) as Hobj.
    { intros a. subst m'. rewrite object_at_set.
      destruct (decide (a = this)) as [->|Hat]; [|reflexivity].
      now rewrite decide_True by exact Hlt. }
    exists m'. split; [reflexivity|].
    split; [rewrite Hobj; now rewrite decide_True|].
    split; [intros a Hat; rewrite Hobj; now rewrite decide_False|].
    split; [discriminate|]. intros _. split; [reflexivity|].
    intros p Hp. split.
    + apply (Hlive p this). now exists t.
    + intros a (x & Hx & Hxp). rewrite Hobj in Hx.
      destruct (decide (a = this)) as [->|Hat];
        [apply (inj Some) in Hx; subst x; discriminate|].
      apply Hat. apply (Huniq p); [now exists x | now exists t].
Qed.

(** X24: constructing a bitmap in a well-owned memory makes a new object
    with a new block of its own: the object stands for the bitmap [Alloc]
    describes, everything that was there is untouched, and the memory stays
    well owned.  The empty memory is well owned.  The sizes are those the
    constructor can compute in [int] and ask [new] for ([alloc_fits]):
    a negative byte count, as for [ChunkyBitmap(-1, 1, 1)], makes [new]
    throw and no object. *)
Theorem construct_owned uninit w h bpp m bm :
  well_owned m -> alloc_fits w h bpp -> Alloc uninit w h bpp = Some bm ->
  well_owned (mkMemory [] [])
  /\ exists this m',
       construct uninit w h bpp m = Some (this, m')
       /\ well_owned m'
       /\ object_at this m = None
       /\ bitmap_at this m' = Some bm
       /\ (forall a, a <> this -> bitmap_at a m' = bitmap_at a m)
       /\ (forall q b, block_at q m = Some b -> block_at q m' = Some b).
Proof.
  intros (Hlive & Huniq & Hleak) _ Halloc. split.
  { split; [|split].
    - intros p a (x & Hx & _). discriminate.
    - intros p a b (x & Hx & _). discriminate.
    - intros p [b Hb]. discriminate. }
  unfold construct. rewrite Halloc. cbn [mbind option_bind].
  set (this := length (objects m)). set (p0 := length (blocks m)).
  set (new := mkObject (Width bm) (Height bm) (Pitch bm) (BytesPerPixel bm)
                (Some p0)).
  set (m' := mkMemory (objects m ++ [Some new])
               (blocks m ++ [Some (Pixels bm)])).
  assert (forall a, object_at a m'
            = if decide (a = this) then Some new else object_at a m) as Hobj.
  { intros a. subst m'. destruct (decide (a = this)) as [->|Hat].
    - subst this. apply object_at_app_new.
    - destruct (decide (a < length (objects m))%nat).
      + now apply object_at_app_l.
      + rewrite object_at_app_ge by (subst this; lia).
        symmetry. apply object_at_ge. lia. }
  assert (forall q, block_at q m'
            = if decide (q = p0) then Some (Pixels bm) else block_at q m)
    as Hblk.
  { intros q. subst m'. unfold block_at. cbn [blocks].
    destruct (decide (q = p0)) as [->|Hq].
    - subst p0. rewrite lookup_app_r by lia. now rewrite Nat.sub_diag.
    - destruct (decide (q < length (blocks m))%nat).
      + now rewrite lookup_app_l by lia.
      + rewrite !lookup_ge_None_2; [reflexivity | lia |].
        rewrite length_app. cbn. subst p0. lia. }
  assert (forall q, is_Some (block_at q m) -> q <> p0) as Hold.
  { intros q [b Hb]. apply block_at_length in Hb. subst p0. lia. }
  assert (object_at this m = None) as Hfresh
    by (apply object_at_ge; subst this; lia).
  assert (forall p a, owner m' p a ->
            (a = this /\ p = p0) \/ (a <> this /\ owner m p a)) as Hown'.
  { intros p a (x & Hx & Hp). rewrite Hobj in Hx.
    destruct (decide (a = this)) as [->|Hat].
    - apply (inj Some) in Hx. subst x. cbn in Hp. left. split; congruence.
    - right. split; [exact Hat | now exists x]. }
  exists this, m'. split; [reflexivity|].
  split; [|split; [exact Hfresh|split; [|split]]].
  - split; [|split].
    + intros p a Ha. rewrite Hblk.
      destruct (Hown' p a Ha) as [[-> ->]|(Hat & Hm)].
      * rewrite decide_True by reflexivity. eauto.
      * pose proof (Hlive p a Hm) as Hl.
        now rewrite decide_False by (apply Hold; exact Hl).
    + intros p a b Ha Hb.
      destruct (Hown' p a Ha) as [[-> Hpa]|(Hat & Hma)];
        destruct (Hown' p b Hb) as [[-> Hpb]|(Hbt & Hmb)].
      * reflexivity.
      * exfalso. subst p.
        apply (Hold p0); [now apply (Hlive p0 b) | reflexivity].
      * exfalso. subst p.
        apply (Hold p0); [now apply (Hlive p0 a) | reflexivity].
      * now apply (Huniq p).
    + intros p Hp. rewrite Hblk in Hp.
      destruct (decide (p = p0)) as [->|Hne].
      * exists this, new. rewrite Hobj. rewrite decide_True by reflexivity.
        split; reflexivity.
      * destruct (Hleak p Hp) as (a & x & Hx & Hxp).
        assert (a <> this) as Hat by congruence.
        exists a, x. rewrite Hobj. rewrite decide_False by exact Hat.
        split; assumption.
  - unfold bitmap_at. rewrite Hobj. rewrite decide_True by reflexivity.
    cbn [mbind option_bind]. subst new. cbn [oPixels].
    rewrite Hblk. rewrite decide_True by reflexivity.
    cbn [mbind option_bind oWidth oHeight oPitch oBytesPerPixel].
    now destruct bm.
  - intros a Hat. unfold bitmap_at. rewrite Hobj.
    rewrite decide_False by exact Hat.
    destruct (object_at a m) as [x|] eqn:Hx; [|reflexivity].
    cbn [mbind option_bind].
    destruct (oPixels x) as [q|] eqn:Hq; [|reflexivity].
    rewrite Hblk. rewrite decide_False; [reflexivity|].
    apply Hold. apply (Hlive q a). now exists x.
  - intros q b Hb. rewrite Hblk. rewrite decide_False; [exact Hb|].
    apply Hold. eauto.
Qed.

Lemma two_bitmaps_owned : well_owned two_bitmaps.
Proof.
  split; [|split].
  - intros p this (x & Hx & Hp).
    destruct this as [|[|this]]; cbn in Hx; try discriminate;
      apply (inj Some) in Hx; subst x; cbn in Hp;
      apply (inj Some) in Hp; subst p; cbn; eauto.
  - intros p a b (x & Hx & Hp) (y & Hy & Hq).
    destruct a as [|[|a]]; cbn in Hx; try discriminate;
      apply (inj Some) in Hx; subst x; cbn in Hp;
      apply (inj Some) in Hp; subst p;
      destruct b as [|[|b]]; cbn in Hy; try discriminate;
      apply (inj Some) in Hy; subst y; cbn in Hq;
      try discriminate; reflexivity.
  - intros p [b Hb].
    destruct p as [|[|p]]; cbn in Hb; try discriminate.
    + exists 0%nat. eexists. split; reflexivity.
    + exists 1%nat. eexists. split; reflexivity.
Qed.

(** ** The accumulated error stays small *)

Lemma filter_length_split {A} (P Q R : A -> Prop)
    `{!forall t, Decision (P t)} `{!forall t, Decision (Q t)}
    `{!forall t, Decision (R t)} (l : list A) :
  (forall t, Q t <-> P t \/ R t) -> (forall t, P t -> R t -> False) ->
  length (filter Q l) = (length (filter P l) + length (filter R l))%nat.
Proof.
  intros HQ Hdis. induction l as [|t l IH]; [reflexivity|].
  rewrite !filter_cons.
  destruct (decide (P t)) as [HP|HP], (decide (R t)) as [HR|HR].
  - destruct (Hdis t HP HR).
  - rewrite decide_True by (apply HQ; tauto). cbn [length]. lia.
  - rewrite decide_True by (apply HQ; tauto). cbn [length]. lia.
  - rewrite decide_False by (rewrite HQ; tauto). exact IH.
Qed.

Lemma filter_length_mono {A} (P Q : A -> Prop)
    `{!forall t, Decision (P t)} `{!forall t, Decision (Q t)} (l : list A) :
  (forall t, P t -> Q t) ->
  (length (filter P l) <= length (filter Q l))%nat.
Proof.
  intros HPQ. induction l as [|t l IH]; [reflexivity|].
  rewrite !filter_cons.
  destruct (decide (P t)) as [HP|HP].
  - rewrite decide_True by auto. cbn [length]. lia.
  - case_decide; cbn [length]; lia.
Qed.

Lemma received_step k ρ x' x :
  received k ρ x' (x + 1) = received k ρ x' x + weight_to k (x' - x) ρ.
Proof.
  unfold received, weight_to.
  induction (kernel_entries k) as [|d ds IH]; [reflexivity|].
  cbn [foldr]. rewrite IH.
  rewrite (filter_length_split (served ρ x' x) (served ρ x' (x + 1))
             (λ t, t = (x' - x, ρ))).
  - lia.
  - intros [tx ty]. unfold served. cbn [fst snd]. split.
    + intros [H|[H1 H2]]; [tauto|].
      destruct (decide (x' - tx < x)); [tauto|].
      right. f_equal; lia.
    + intros [[H|[H1 H2]]|Heq]; [tauto | right; lia |].
      injection Heq as -> ->. right. lia.
  - intros [tx ty]. unfold served. cbn [fst snd].
    intros Hs Heq. injection Heq as -> ->. lia.
Qed.

Lemma entries_tame k :
  tame_kernel k -> Forall (λ d, 0 <= weight d) (kernel_entries k).
Proof.
  intros Hk. induction Hk as [|d k Hw Hk IH]; [constructor|].
  cbn [kernel_entries]. destruct (weight d =? 0); [constructor|].
  now constructor.
Qed.

Lemma weighted_count_nonneg (f : Diffuser -> nat) (ds : list Diffuser) :
  Forall (λ d, 0 <= weight d) ds ->
  0 <= foldr (λ d acc, weight d * Z.of_nat (f d) + acc) 0 ds.
Proof.
  induction 1 as [|d ds Hd Hds IH]; cbn [foldr]; [lia|]. nia.
Qed.

Lemma weighted_count_mono (f g : Diffuser -> nat) (ds : list Diffuser) :
  Forall (λ d, 0 <= weight d /\ (f d <= g d)%nat) ds ->
  foldr (λ d acc, weight d * Z.of_nat (f d) + acc) 0 ds
  <= foldr (λ d acc, weight d * Z.of_nat (g d) + acc) 0 ds.
Proof.
  induction 1 as [|d ds [Hd Hfg] Hds IH]; cbn [foldr]; [lia|]. nia.
Qed.

Lemma received_nonneg k ρ x' x : tame_kernel k -> 0 <= received k ρ x' x.
Proof.
  intros Hk. unfold received.
  apply (weighted_count_nonneg
           (λ d, length (filter (served ρ x' x) (entry_targets d)))).
  exact (entries_tame k Hk).
Qed.

Lemma weight_to_nonneg k dx dy : tame_kernel k -> 0 <= weight_to k dx dy.
Proof.
  intros Hk. unfold weight_to.
  apply (weighted_count_nonneg
           (λ d, length (filter (λ t, t = (dx, dy)) (entry_targets d)))).
  exact (entries_tame k Hk).
Qed.

Lemma received_le_total k ρ x' x :
  tame_kernel k -> received k ρ x' x <= kernel_total k.
Proof.
  intros Hk. unfold received, kernel_total.
  apply (weighted_count_mono
           (λ d, length (filter (served ρ x' x) (entry_targets d)))
           (λ d, length (entry_targets d))).
  eapply list.Forall_impl; [exact (entries_tame k Hk)|].
  intros d Hw. split; [exact Hw|]. apply length_filter.
Qed.

(** What has reached row [ρ + 1] by the end of a row has reached row [ρ]
    when the next row starts. *)
Lemma received_rotate k ρ x' x :
  tame_kernel k -> received k (ρ + 1) x' x <= received k ρ x' 0.
Proof.
  intros Hk. unfold received.
  apply (weighted_count_mono
           (λ d, length (filter (served (ρ + 1) x' x) (entry_targets d)))
           (λ d, length (filter (served ρ x' 0) (entry_targets d)))).
  eapply list.Forall_impl; [exact (entries_tame k Hk)|].
  intros d Hw. split; [exact Hw|].
  apply filter_length_mono. intros t. unfold served. lia.
Qed.

Lemma builtin_kernels_tame : Forall tame_kernel ErrorDiffusionKernels.
Proof.
  unfold tame_kernel. apply (bool_decide_unpack _). vm_compute. exact I.
Qed.

Lemma builtin_kernel_total k :
  k ∈ ErrorDiffusionKernels -> kernel_total k <= 65536.
Proof.
  intros Hk.
  assert (Forall (λ k, kernel_total k <= 65536) ErrorDiffusionKernels) as Hall
    by (repeat constructor; vm_compute; discriminate).
  rewrite list.Forall_forall in Hall. now apply Hall.
Qed.

Lemma no_error_bounded k W : tame_kernel k -> bounded_error k W 0 (no_error W).
Proof.
  intros Hk ρ x' Hρ Hx'.
  pose proof (received_nonneg k (Z.of_nat ρ) (Z.of_nat x') 0 Hk).
  unfold err_at, no_error.
  rewrite lookup_total_replicate_2 by lia.
  rewrite lookup_total_replicate_2 by lia.
  unfold cell_within. cbn [fst snd]. lia.
Qed.

Lemma rotate_error_bounded k W e :
  tame_kernel k -> wf_error W e -> bounded_error k W W e ->
  bounded_error k W 0 (rotate_error e).
Proof.
  intros Hk [Hlen Hrows] Hb ρ x' Hρ Hx'.
  destruct e as [|e0 [|e1 [|e2 [|? ?]]]]; try discriminate.
  apply Forall_cons_1 in Hrows as [[Hl0 _] _].
  cbn [rotate_error].
  destruct ρ as [|[|[|ρ]]]; [| | |lia].
  - pose proof (Hb 1%nat x' ltac:(lia) Hx') as (H1 & H2 & H3).
    pose proof (received_rotate k 0 (Z.of_nat x') W Hk) as Hrot.
    change (Z.of_nat 1) with (0 + 1) in H1, H2, H3.
    change (Z.of_nat 0) with 0.
    change (err_at [e1; e2; replicate (length e0) (0, 0, 0)] 0 x')
      with (err_at [e0; e1; e2] 1 x').
    unfold cell_within. lia.
  - pose proof (Hb 2%nat x' ltac:(lia) Hx') as (H1 & H2 & H3).
    pose proof (received_rotate k 1 (Z.of_nat x') W Hk) as Hrot.
    change (Z.of_nat 2) with (1 + 1) in H1, H2, H3.
    change (Z.of_nat 1) with 1.
    change (err_at [e1; e2; replicate (length e0) (0, 0, 0)] 1 x')
      with (err_at [e0; e1; e2] 2 x').
    unfold cell_within. lia.
  - pose proof (received_nonneg k 2 (Z.of_nat x') 0 Hk) as Hpos.
    change (Z.of_nat 2) with 2.
    change (err_at [e1; e2; replicate (length e0) (0, 0, 0)] 2 x')
      with (replicate (length e0) (0, 0, 0) !!! x').
    rewrite lookup_total_replicate_2 by lia.
    unfold cell_within. cbn [fst snd]. lia.
Qed.

(** One pixel: the residual is at most 255 a channel, and what a cell
    gets is the residual times the weight sent its way, added without
    wrapping. *)
Lemma diffuse_pixel_bounded pal kernel W inp src dest x out e :
  wf_palette pal -> pal <> [] -> wf_kernel kernel -> tame_kernel kernel ->
  kernel_total kernel <= 65536 ->
  Forall is_byte inp -> 0 <= x < W -> W <= 2147483520 ->
  wf_error W e -> bounded_error kernel W x e ->
  let a := err_at e 0 (Z.to_nat x) in
  let r := clamp (inp !!! src + a.1.1 `quot` 65536) 0 255 in
  let g := clamp (inp !!! (src + 1)%nat + a.1.2 `quot` 65536) 0 255 in
  let b := clamp (inp !!! (src + 2)%nat + a.2 `quot` 65536) 0 255 in
  let p := pal_at pal (NearestColor pal r g b 0 (Z.of_nat (length pal))) in
  let st' := diffuse_pixel pal kernel W inp src dest x (out, e) in
  wf_error W st'.2
  /\ bounded_error kernel W (x + 1) st'.2
  /\ forall ρ x' : nat, (ρ < 3)%nat -> (x' < Z.to_nat W)%nat ->
       let w := weight_to kernel (Z.of_nat x' - x) (Z.of_nat ρ) in
       let c := err_at e ρ x' in
       err_at st'.2 ρ x'
       = (c.1.1 + (r - red p) * w, c.1.2 + (g - green p) * w,
          c.2 + (b - blue p) * w).
Proof.
  intros Hpal Hne Hk Htame Htotal Hinp Hx HW Hwf Hb a r g b p st'.
  assert (wf_cell a) as (Ha1 & Ha2 & Ha3)
    by (apply (wf_error_cell W); [exact Hwf | lia | lia]).
  assert (0 <= r <= 255 /\ 0 <= g <= 255 /\ 0 <= b <= 255) as (Hr & Hg & Hbb)
    by (repeat split; apply clamp_range; lia).
  assert (wf_color p) as (Hpr & Hpg & Hpb).
  { apply pal_at_wf; [exact Hpal|].
    apply NearestColor_range. destruct pal; [contradiction | simpl; lia]. }
  unfold is_byte in Hpr, Hpg, Hpb.
  assert (st' = (<[(dest + Z.to_nat x)%nat
                   := u8 (NearestColor pal r g b 0 (Z.of_nat (length pal)))]>
                   out,
                 diffuse_kernel W x (r - red p) (g - green p) (b - blue p)
                   kernel e)) as Hst.
  { subst st'. unfold diffuse_pixel, wanted. cbn [snd fst]. fold a.
    rewrite !channel_sum by (assumption || now apply bytes_lookup_total).
    fold r g b p. unfold isub. rewrite !wrap32_small by lia. reflexivity. }
  rewrite Hst. cbn [snd].
  assert (forall ρ x' : nat, (ρ < 3)%nat -> (x' < Z.to_nat W)%nat ->
            let w := weight_to kernel (Z.of_nat x' - x) (Z.of_nat ρ) in
            let c := err_at e ρ x' in
            err_at (diffuse_kernel W x (r - red p) (g - green p)
                      (b - blue p) kernel e) ρ x'
            = (c.1.1 + (r - red p) * w, c.1.2 + (g - green p) * w,
               c.2 + (b - blue p) * w)
            /\ cell_within
                 (255 * received kernel (Z.of_nat ρ) (Z.of_nat x') (x + 1))
                 (c.1.1 + (r - red p) * w, c.1.2 + (g - green p) * w,
                  c.2 + (b - blue p) * w)) as Hcell.
  { intros ρ x' Hρ Hx' w c.
    destruct (diffuse_kernel_at W x Hx HW ρ x' Hρ Hx' (r - red p)
                (g - green p) (b - blue p) kernel e Hwf Hk) as [_ Hat].
    cbv zeta in Hat. fold w c in Hat.
    pose proof (Hb ρ x' Hρ Hx') as (B1 & B2 & B3). fold c in B1, B2, B3.
    pose proof (received_step kernel (Z.of_nat ρ) (Z.of_nat x') x) as Hstep.
    fold w in Hstep.
    pose proof (weight_to_nonneg kernel (Z.of_nat x' - x) (Z.of_nat ρ) Htame)
      as Hw0. fold w in Hw0.
    pose proof (received_le_total kernel (Z.of_nat ρ) (Z.of_nat x') (x + 1)
                  Htame) as Hle.
    set (R := received kernel (Z.of_nat ρ) (Z.of_nat x') x) in *.
    set (R' := received kernel (Z.of_nat ρ) (Z.of_nat x') (x + 1)) in *.
    assert (-255 * w <= (r - red p) * w <= 255 * w) as Cr by nia.
    assert (-255 * w <= (g - green p) * w <= 255 * w) as Cg by nia.
    assert (-255 * w <= (b - blue p) * w <= 255 * w) as Cb by nia.
    split.
    - rewrite Hat. unfold cell_plus. cbn [fst snd].
      rewrite !wrap32_small by lia. reflexivity.
    - unfold cell_within. cbn [fst snd]. lia. }
  split; [|split].
  - now apply (diffuse_kernel_at W x Hx HW 0 0 ltac:(lia) ltac:(lia)).
  - intros ρ x' Hρ Hx'. destruct (Hcell ρ x' Hρ Hx') as [-> Hin]. exact Hin.
  - intros ρ x' Hρ Hx'. now destruct (Hcell ρ x' Hρ Hx') as [-> _].
Qed.

Lemma diffuse_row_bounded pal kernel W inp n : forall src dest x st,
  wf_palette pal -> pal <> [] -> wf_kernel kernel -> tame_kernel kernel ->
  kernel_total kernel <= 65536 ->
  Forall is_byte inp -> 0 <= x -> x + Z.of_nat n <= W -> W <= 2147483520 ->
  wf_error W st.2 -> bounded_error kernel W x st.2 ->
  wf_error W (diffuse_row pal kernel W inp n src dest x st).2
  /\ bounded_error kernel W (x + Z.of_nat n)
       (diffuse_row pal kernel W inp n src dest x st).2.
Proof.
  induction n as [|n IH];
    intros src dest x st Hpal Hne Hk Htame Htot Hinp Hx Hn HW Hwf Hb;
    cbn [diffuse_row].
  - rewrite Z.add_0_r. split; assumption.
  - destruct st as [out e]. cbn [snd] in Hwf, Hb.
    destruct (diffuse_pixel_bounded pal kernel W inp src dest x out e)
      as (Hwf1 & Hb1 & _); try assumption; try lia.
    replace (x + Z.of_nat (S n)) with (x + 1 + Z.of_nat n) by lia.
    apply IH; try assumption; lia.
Qed.

Lemma diffuse_image_bounded pal kernel W inp n : forall src dest st,
  wf_palette pal -> pal <> [] -> wf_kernel kernel -> tame_kernel kernel ->
  kernel_total kernel <= 65536 ->
  Forall is_byte inp -> 0 <= W <= 2147483520 ->
  wf_error W st.2 -> bounded_error kernel W 0 st.2 ->
  wf_error W (diffuse_image pal kernel W inp n src dest st).2
  /\ bounded_error kernel W 0 (diffuse_image pal kernel W inp n src dest st).2.
Proof.
  induction n as [|n IH];
    intros src dest st Hpal Hne Hk Htame Htot Hinp HW Hwf Hb;
    cbn [diffuse_image].
  - split; assumption.
  - destruct (diffuse_row_bounded pal kernel W inp (Z.to_nat W) src dest 0 st)
      as [Hwf1 Hb1]; try assumption; try lia.
    rewrite Z.add_0_l, Z2Nat.id in Hb1 by lia.
    apply IH; try assumption; cbn [snd].
    + now apply rotate_error_wf.
    + now apply rotate_error_bounded.
Qed.

(** X25: the [int] accumulators of the error diffusion never overflow.
    With any of the built-in kernels, after any number of finished rows and
    any number of pixels of the next one, every channel of every cell of
    the error window is within 255 * 65536 of zero, and the update the next
    pixel makes to a cell is the exact sum: the cell plus the residual
    times the weight sent to it, the residual being at most 255. *)
Theorem ErrorDiffusion_no_overflow pal kernel W inp out (rows n : nat) :
  kernel ∈ ErrorDiffusionKernels ->
  wf_palette pal -> pal <> [] -> Forall is_byte inp ->
  0 < W <= 2147483520 -> Z.of_nat n < W ->
  let src := (4 * (rows * Z.to_nat W))%nat in
  let dest := (rows * Z.to_nat W)%nat in
  let st := diffuse_row pal kernel W inp n src dest 0
              (diffuse_image pal kernel W inp rows 0 0 (out, no_error W)) in
  let x := Z.of_nat n in
  let a := err_at st.2 0 n in
  let r := clamp (inp !!! (src + 4 * n)%nat + a.1.1 `quot` 65536) 0 255 in
  let g := clamp (inp !!! (src + 4 * n + 1)%nat + a.1.2 `quot` 65536) 0 255 in
  let b := clamp (inp !!! (src + 4 * n + 2)%nat + a.2 `quot` 65536) 0 255 in
  let p := pal_at pal (NearestColor pal r g b 0 (Z.of_nat (length pal))) in
  let st' := diffuse_pixel pal kernel W inp (src + 4 * n) dest x st in
  (forall ρ x' : nat, (ρ < 3)%nat -> (x' < Z.to_nat W)%nat ->
     cell_within (255 * 65536) (err_at st.2 ρ x')
     /\ cell_within (255 * 65536) (err_at st'.2 ρ x'))
  /\ (-255 <= r - red p <= 255 /\ -255 <= g - green p <= 255
      /\ -255 <= b - blue p <= 255)
  /\ forall ρ x' : nat, (ρ < 3)%nat -> (x' < Z.to_nat W)%nat ->
       let w := weight_to kernel (Z.of_nat x' - x) (Z.of_nat ρ) in
       let c := err_at st.2 ρ x' in
       0 <= w <= 65536
       /\ err_at st'.2 ρ x'
          = (c.1.1 + (r - red p) * w, c.1.2 + (g - green p) * w,
             c.2 + (b - blue p) * w).
Proof.
  intros Hin Hpal Hne Hinp HW Hn src dest st x a r g b p st'.
  assert (wf_kernel kernel) as Hk
    by (pose proof builtin_kernels_wf as H;
        rewrite list.Forall_forall in H; now apply H).
  assert (tame_kernel kernel) as Htame
    by (pose proof builtin_kernels_tame as H;
        rewrite list.Forall_forall in H; now apply H).
  pose proof (builtin_kernel_total kernel Hin) as Htot.
  destruct (diffuse_image_bounded pal kernel W inp rows 0 0
              (out, no_error W)) as [Hwf0 Hb0]; try assumption; try lia.
  { cbn [snd]. apply initial_error_wf. }
  { cbn [snd]. now apply no_error_bounded. }
  destruct (diffuse_row_bounded pal kernel W inp n src dest 0
              (diffuse_image pal kernel W inp rows 0 0 (out, no_error W)))
    as [Hwf Hb]; try assumption; try lia.
  fold st in Hwf, Hb. rewrite Z.add_0_l in Hb. fold x in Hb.
  destruct st as [o e] eqn:Est. cbn [snd] in *.
  destruct (diffuse_pixel_bounded pal kernel W inp (src + 4 * n)%nat dest x
              o e) as (Hwf' & Hb' & Hexact); try assumption; try lia.
  replace (Z.to_nat x) with n in Hexact by lia.
  fold a r g b p in Hexact. fold st' in Hwf', Hb', Hexact.
  assert (forall B R c, cell_within (255 * R) c -> R <= B ->
            cell_within (255 * B) c) as Hweaken.
  { intros B R c (H1 & H2 & H3) HR. unfold cell_within. lia. }
  split; [|split].
  - intros ρ x' Hρ Hx'. split.
    + apply (Hweaken 65536 _ _ (Hb ρ x' Hρ Hx')).
      pose proof (received_le_total kernel (Z.of_nat ρ) (Z.of_nat x') x Htame).
      lia.
    + apply (Hweaken 65536 _ _ (Hb' ρ x' Hρ Hx')).
      pose proof (received_le_total kernel (Z.of_nat ρ) (Z.of_nat x') (x + 1)
                    Htame).
      lia.
  - assert (0 <= r <= 255 /\ 0 <= g <= 255 /\ 0 <= b <= 255)
      as (Hr & Hg & Hbb) by (repeat split; apply clamp_range; lia).
    assert (wf_color p) as (Hpr & Hpg & Hpb).
    { apply pal_at_wf; [exact Hpal|].
      apply NearestColor_range. destruct pal; [contradiction | simpl; lia]. }
    unfold is_byte in Hpr, Hpg, Hpb. lia.
  - intros ρ x' Hρ Hx'. cbv zeta. split; [|now apply Hexact].
    pose proof (weight_to_nonneg kernel (Z.of_nat x' - x) (Z.of_nat ρ) Htame)
      as Hw0.
    pose proof (received_step kernel (Z.of_nat ρ) (Z.of_nat x') x) as Hstep.
    pose proof (received_nonneg kernel (Z.of_nat ρ) (Z.of_nat x') x Htame).
    pose proof (received_le_total kernel (Z.of_nat ρ) (Z.of_nat x') (x + 1)
                  Htame).
    lia.
Qed.

(** ** The palette mapping works in raster order *)

Lemma diffuse_row_app pal kernel W inp a b : forall src dest x st,
  diffuse_row pal kernel W inp (a + b) src dest x st
  = diffuse_row pal kernel W inp b (src + 4 * a)%nat dest (x + Z.of_nat a)
      (diffuse_row pal kernel W inp a src dest x st).
Proof.
  induction a as [|a IH]; intros src dest x st.
  - cbn [Nat.add diffuse_row]. f_equal; lia.
  - cbn [Nat.add diffuse_row]. rewrite IH. f_equal; lia.
Qed.

Lemma diffuse_image_app pal kernel W inp a b : forall src dest st,
  diffuse_image pal kernel W inp (a + b) src dest st
  = diffuse_image pal kernel W inp b (src + 4 * (a * Z.to_nat W))%nat
      (dest + a * Z.to_nat W)%nat
      (diffuse_image pal kernel W inp a src dest st).
Proof.
  induction a as [|a IH]; intros src dest st.
  - cbn [Nat.add diffuse_image]. f_equal; lia.
  - cbn [Nat.add diffuse_image]. rewrite IH. f_equal; lia.
Qed.

(** A pixel step looks at three bytes of the input and at the error
    window; the output buffer only receives. *)
Lemma diffuse_pixel_same pal kernel W inp1 inp2 src dest x out1 out2 e :
  inp1 !!! src = inp2 !!! src ->
  inp1 !!! (src + 1)%nat = inp2 !!! (src + 1)%nat ->
  inp1 !!! (src + 2)%nat = inp2 !!! (src + 2)%nat ->
  exists v e',
    diffuse_pixel pal kernel W inp1 src dest x (out1, e)
    = (<[(dest + Z.to_nat x)%nat := v]> out1, e')
    /\ diffuse_pixel pal kernel W inp2 src dest x (out2, e)
       = (<[(dest + Z.to_nat x)%nat := v]> out2, e').
Proof.
  intros H0 H1 H2. unfold diffuse_pixel, wanted. cbn [fst snd].
  rewrite H0, H1, H2. eexists _, _. split; reflexivity.
Qed.

Lemma diffuse_row_two pal kernel W inp1 inp2 dest n :
  forall x out1 out2 e,
  0 <= x -> length out1 = length out2 ->
  (dest + Z.to_nat x + n <= length out1)%nat ->
  (forall j, (4 * (dest + Z.to_nat x) <= j < 4 * (dest + Z.to_nat x + n))%nat ->
     inp1 !!! j = inp2 !!! j) ->
  let r1 := diffuse_row pal kernel W inp1 n (4 * (dest + Z.to_nat x)) dest x
              (out1, e) in
  let r2 := diffuse_row pal kernel W inp2 n (4 * (dest + Z.to_nat x)) dest x
              (out2, e) in
  r1.2 = r2.2
  /\ length r1.1 = length out1 /\ length r2.1 = length out2
  /\ forall i,
       if decide (dest + Z.to_nat x <= i < dest + Z.to_nat x + n)%nat
       then r1.1 !! i = r2.1 !! i
       else r1.1 !! i = out1 !! i /\ r2.1 !! i = out2 !! i.
Proof.
  induction n as [|n IH]; intros x out1 out2 e Hx Hlen Hfit Hsame r1 r2;
    subst r1 r2; cbn [diffuse_row].
  - cbn [fst snd]. repeat split. intros i. rewrite decide_False by lia.
    split; reflexivity.
  - set (q := (dest + Z.to_nat x)%nat) in *.
    destruct (diffuse_pixel_same pal kernel W inp1 inp2 (4 * q) dest x
                out1 out2 e) as (v & e' & -> & ->);
      [apply Hsame; lia | apply Hsame; lia | apply Hsame; lia|].
    fold q.
    replace (4 * q + 4)%nat with (4 * (dest + Z.to_nat (x + 1)))%nat
      by (subst q; lia).
    destruct (IH (x + 1) (<[q := v]> out1) (<[q := v]> out2) e')
      as (E & L1 & L2 & Hout);
      [lia | now rewrite !length_insert | rewrite length_insert; lia | |].
    { intros j Hj. apply Hsame. lia. }
    split; [exact E|]. rewrite length_insert in L1, L2.
    split; [exact L1|]. split; [exact L2|].
    intros i. specialize (Hout i).
    destruct (decide (i = q)) as [->|Hne].
    + rewrite decide_True by lia. rewrite decide_False in Hout by lia.
      destruct Hout as [-> ->].
      rewrite !list_lookup_insert_eq by lia. reflexivity.
    + destruct (decide (dest + Z.to_nat (x + 1) <= i
                        < dest + Z.to_nat (x + 1) + n)%nat).
      * rewrite decide_True by lia. exact Hout.
      * rewrite decide_False by lia.
        rewrite !list_lookup_insert_ne in Hout by congruence. exact Hout.
Qed.

Lemma diffuse_image_two pal kernel W inp1 inp2 n :
  forall (dest : nat) out1 out2 e,
  0 <= W -> length out1 = length out2 ->
  (dest + n * Z.to_nat W <= length out1)%nat ->
  (forall j, (4 * dest <= j < 4 * (dest + n * Z.to_nat W))%nat ->
     inp1 !!! j = inp2 !!! j) ->
  let r1 := diffuse_image pal kernel W inp1 n (4 * dest) dest (out1, e) in
  let r2 := diffuse_image pal kernel W inp2 n (4 * dest) dest (out2, e) in
  r1.2 = r2.2
  /\ length r1.1 = length out1 /\ length r2.1 = length out2
  /\ forall i,
       if decide (dest <= i < dest + n * Z.to_nat W)%nat
       then r1.1 !! i = r2.1 !! i
       else r1.1 !! i = out1 !! i /\ r2.1 !! i = out2 !! i.
Proof.
  induction n as [|n IH]; intros dest out1 out2 e HW Hlen Hfit Hsame r1 r2;
    subst r1 r2; cbn [diffuse_image].
  - cbn [fst snd]. repeat split. intros i. rewrite decide_False by lia.
    split; reflexivity.
  - pose proof (diffuse_row_two pal kernel W inp1 inp2 dest (Z.to_nat W) 0
                  out1 out2 e ltac:(lia) Hlen) as Hrow.
    change (Z.to_nat 0) with 0%nat in Hrow. rewrite Nat.add_0_r in Hrow.
    destruct Hrow as (E & L1 & L2 & Hout); [lia | |].
    { intros j Hj. apply Hsame. lia. }
    set (s1 := diffuse_row pal kernel W inp1 (Z.to_nat W) (4 * dest) dest 0
                 (out1, e)) in *.
    set (s2 := diffuse_row pal kernel W inp2 (Z.to_nat W) (4 * dest) dest 0
                 (out2, e)) in *.
    rewrite E.
    replace (4 * dest + 4 * Z.to_nat W)%nat
      with (4 * (dest + Z.to_nat W))%nat by lia.
    destruct (IH (dest + Z.to_nat W)%nat s1.1 s2.1 (rotate_error s2.2) HW)
      as (E' & L1' & L2' & Hout'); [congruence | rewrite L1; lia | |].
    { intros j Hj. apply Hsame. lia. }
    split; [exact E'|]. split; [congruence|]. split; [congruence|].
    intros i. specialize (Hout i). specialize (Hout' i).
    destruct (decide (dest + Z.to_nat W <= i
                      < dest + Z.to_nat W + n * Z.to_nat W)%nat).
    + rewrite decide_True by lia. exact Hout'.
    + destruct Hout' as [-> ->].
      destruct (decide (dest <= i < dest + Z.to_nat W)%nat).
      * rewrite decide_True by lia. exact Hout.
      * rewrite decide_False by lia. exact Hout.
Qed.

(** Once [k] pixels are done, nothing that follows touches their output,
    and nothing that follows was looked at to make it. *)
Lemma diffuse_image_prefix pal kernel W inp1 inp2 (H k : nat) out1 out2 :
  0 < W -> length out1 = length out2 ->
  (H * Z.to_nat W <= length out1)%nat -> (k <= H * Z.to_nat W)%nat ->
  same_pixels k inp1 inp2 ->
  forall i, (i < k)%nat ->
    (diffuse_image pal kernel W inp1 H 0 0 (out1, no_error W)).1 !! i
    = (diffuse_image pal kernel W inp2 H 0 0 (out2, no_error W)).1 !! i.
Proof.
  intros HW Hlen Hfit Hk Hsame i Hi.
  set (w := Z.to_nat W) in *. assert (0 < w)%nat as Hw by (subst w; lia).
  destruct (decide (k = H * w)%nat) as [->|Hlt].
  { pose proof (diffuse_image_two pal kernel W inp1 inp2 H 0 out1 out2
                  (no_error W) ltac:(lia) Hlen) as Himg.
    change (4 * 0)%nat with 0%nat in Himg. fold w in Himg.
    destruct Himg as (_ & _ & _ & Hout); [lia | |].
    { intros j Hj. apply Hsame. lia. }
    specialize (Hout i). rewrite decide_True in Hout by lia. exact Hout. }
  (* [k = r * w + c]: [r] whole rows, then [c] pixels of the next *)
  set (r := (k / w)%nat). set (c := (k mod w)%nat).
  assert (k = r * w + c)%nat as Hkrc
    by (subst r c; rewrite (Nat.div_mod_eq k w) at 1; lia).
  assert (c < w)%nat as Hc by (subst c; apply Nat.mod_upper_bound; lia).
  assert (r < H)%nat as Hr by nia.
  replace H with (r + S (H - r - 1))%nat by lia.
  rewrite !diffuse_image_app. rewrite !Nat.add_0_l. fold w.
  pose proof (diffuse_image_two pal kernel W inp1 inp2 r 0 out1 out2
                (no_error W) ltac:(lia) Hlen) as Himg.
  change (4 * 0)%nat with 0%nat in Himg. fold w in Himg.
  destruct Himg as (E1 & L1 & L1' & Hout1); [nia | |].
  { intros j Hj. apply Hsame. lia. }
  set (a1 := diffuse_image pal kernel W inp1 r 0 0 (out1, no_error W)) in *.
  set (a2 := diffuse_image pal kernel W inp2 r 0 0 (out2, no_error W)) in *.
  cbn [diffuse_image]. fold w.
  assert (forall inp st,
            diffuse_row pal kernel W inp w (4 * (r * w)) (r * w) 0 st
            = diffuse_row pal kernel W inp (w - c) (4 * (r * w) + 4 * c)
                (r * w) (0 + Z.of_nat c)
                (diffuse_row pal kernel W inp c (4 * (r * w)) (r * w) 0 st))
    as Hsplit.
  { intros inp st. rewrite <- diffuse_row_app. f_equal. lia. }
  rewrite !Hsplit.
  destruct a1 as [o1 e1], a2 as [o2 e2]. cbn [fst snd] in *. subst e2.
  pose proof (diffuse_row_two pal kernel W inp1 inp2 (r * w) c 0 o1 o2 e1
                ltac:(lia)) as Hrow.
  change (Z.to_nat 0) with 0%nat in Hrow. rewrite Nat.add_0_r in Hrow.
  destruct Hrow as (E2 & L2 & L2' & Hout2); [congruence | nia | |].
  { intros j Hj. apply Hsame. lia. }
  set (b1 := diffuse_row pal kernel W inp1 c (4 * (r * w)) (r * w) 0
               (o1, e1)) in *.
  set (b2 := diffuse_row pal kernel W inp2 c (4 * (r * w)) (r * w) 0
               (o2, e1)) in *.
  (* the pixels done so far agree *)
  assert (b1.1 !! i = b2.1 !! i) as Hdone.
  { specialize (Hout2 i). specialize (Hout1 i).
    destruct (decide (r * w <= i < r * w + c)%nat); [exact Hout2|].
    destruct Hout2 as [-> ->]. rewrite decide_True in Hout1 by lia.
    exact Hout1. }
  (* the rest of the row and the rows after it write further on *)
  assert (forall inp b, (length b.1 = length out1) ->
            (diffuse_image pal kernel W inp (H - r - 1)
               (4 * (r * w) + 4 * w) (r * w + w)
               ((diffuse_row pal kernel W inp (w - c) (4 * (r * w) + 4 * c)
                   (r * w) (0 + Z.of_nat c) b).1,
                rotate_error
                  (diffuse_row pal kernel W inp (w - c) (4 * (r * w) + 4 * c)
                     (r * w) (0 + Z.of_nat c) b).2)).1 !! i
            = b.1 !! i) as Hrest.
  { intros inp [o e] Hlo. cbn [fst] in Hlo.
    pose proof (diffuse_row_two pal kernel W inp inp (r * w) (w - c)
                  (Z.of_nat c) o o e ltac:(lia) eq_refl) as Hrow.
    rewrite Nat2Z.id in Hrow.
    destruct Hrow as (_ & L3 & _ & Hout3); [nia | reflexivity |].
    replace (4 * (r * w + c))%nat with (4 * (r * w) + 4 * c)%nat in *
      by lia.
    rewrite Z.add_0_l.
    set (s := diffuse_row pal kernel W inp (w - c) (4 * (r * w) + 4 * c)
                (r * w) (Z.of_nat c) (o, e)) in *.
    pose proof (diffuse_image_two pal kernel W inp inp (H - r - 1)
                  (r * w + w) s.1 s.1 (rotate_error s.2) ltac:(lia) eq_refl)
      as Himg.
    fold w in Himg.
    destruct Himg as (_ & _ & _ & Hout4); [rewrite L3; nia | reflexivity |].
    replace (4 * (r * w + w))%nat with (4 * (r * w) + 4 * w)%nat in *
      by lia.
    specialize (Hout4 i). rewrite decide_False in Hout4 by lia.
    destruct Hout4 as [-> _].
    specialize (Hout3 i). rewrite decide_False in Hout3 by lia.
    now destruct Hout3 as [-> _]. }
  rewrite (Hrest inp1 b1) by congruence.
  rewrite (Hrest inp2 b2) by congruence.
  exact Hdone.
Qed.

Lemma diffuse_image_length pal kernel W inp H out :
  0 <= W -> (H * Z.to_nat W <= length out)%nat ->
  length (diffuse_image pal kernel W inp H 0 0 (out, no_error W)).1
  = length out.
Proof.
  intros HW Hfit.
  pose proof (diffuse_image_two pal kernel W inp inp H 0 out out
                (no_error W) HW eq_refl) as Himg.
  change (4 * 0)%nat with 0%nat in Himg.
  destruct Himg as (_ & L & _); [lia | reflexivity | exact L].
Qed.

Lemma pixel_nearest_same pal inp1 inp2 (k i : nat) :
  same_pixels k inp1 inp2 -> (i < k)%nat ->
  pixel_nearest pal inp1 i = pixel_nearest pal inp2 i.
Proof.
  intros Hsame Hi. unfold pixel_nearest.
  now rewrite !Hsame by lia.
Qed.

(** X26: the palette mapping works through the picture in raster order
    and never looks ahead: two pictures of the same size that show the same
    first [k] pixels get the same first [k] output bytes, in every dither
    mode, whatever comes after and whatever the fresh output buffers held.
    When all pixels are the same the results are equal.  The palette has
    an entry (the dithering loop reads the entry it chose), and both
    pictures have the four bytes of each of their pixels. *)
Theorem RGBtoPalette_raster_order uninit1 uninit2 bm1 bm2 pal dithermode
    (k : nat) :
  pal <> [] ->
  0 < Width bm1 -> 0 < Height bm1 -> BytesPerPixel bm1 = 4 ->
  Width bm2 = Width bm1 -> Height bm2 = Height bm1 -> BytesPerPixel bm2 = 4 ->
  length (Pixels bm1) = Z.to_nat (Width bm1 * Height bm1 * 4) ->
  length (Pixels bm2) = Z.to_nat (Width bm1 * Height bm1 * 4) ->
  (k <= Z.to_nat (Width bm1 * Height bm1))%nat ->
  same_pixels k (Pixels bm1) (Pixels bm2) ->
  exists out1 out2,
    RGBtoPalette uninit1 bm1 pal dithermode = Some out1
    /\ RGBtoPalette uninit2 bm2 pal dithermode = Some out2
    /\ (forall i, (i < k)%nat -> Pixels out1 !! i = Pixels out2 !! i)
    /\ (k = Z.to_nat (Width bm1 * Height bm1) -> out1 = out2).
Proof.
  intros _ HW HH Hbpp HW2 HH2 Hbpp2 _ _ Hk Hsame.
  set (n := Z.to_nat (Width bm1 * Height bm1)) in *.
  unfold RGBtoPalette. rewrite HW2, HH2.
  rewrite !Alloc_Some by lia. cbn [mbind option_bind Width Height].
  assert (forall u, length (new_bytes u (Width bm1 * 1 * Height bm1)) = n)
    as Hlen.
  { intros u. rewrite new_bytes_length. subst n. f_equal. lia. }
  set (o1 := new_bytes uninit1 (Width bm1 * 1 * Height bm1)).
  set (o2 := new_bytes uninit2 (Width bm1 * 1 * Height bm1)).
  assert (forall p1 p2 : list Z,
            length p1 = n -> length p2 = n ->
            (forall i, (i < k)%nat -> p1 !! i = p2 !! i) ->
            k = n -> p1 = p2) as Hall.
  { intros p1 p2 L1 L2 Hpre ->. apply list_eq. intros i.
    destruct (decide (i < n)%nat); [now apply Hpre|].
    now rewrite !lookup_ge_None_2 by lia. }
  case_decide.
  - unfold RGB2P_BasicQuantize. cbn [Width Height BytesPerPixel Pixels].
    rewrite HW2, HH2.
    rewrite !option_guard_True by auto. cbn [mbind option_bind].
    eexists _, _. split; [reflexivity|]. split; [reflexivity|].
    cbn [Pixels with_pixels Width Height Pitch BytesPerPixel]. fold n o1 o2.
    assert (forall i, (i < k)%nat ->
              BasicQuantize_loop pal (Pixels bm1) n 0 0 o1 !! i
              = BasicQuantize_loop pal (Pixels bm2) n 0 0 o2 !! i) as Hpre.
    { intros i Hi. change 0%nat with (4 * 0)%nat at 1 3.
      rewrite !BasicQuantize_loop_lookup by (subst o1 o2; rewrite Hlen; lia).
      rewrite !decide_True by lia. do 2 f_equal.
      apply (pixel_nearest_same pal _ _ k); [exact Hsame | lia]. }
    split; [exact Hpre|].
    intros Hkn. f_equal. apply Hall; try assumption.
    + rewrite BasicQuantize_loop_length. apply Hlen.
    + rewrite BasicQuantize_loop_length. apply Hlen.
  - unfold RGB2P_ErrorDiffusion. cbn [Width Height BytesPerPixel Pixels].
    rewrite HW2, HH2.
    rewrite !option_guard_True by auto. cbn [mbind option_bind].
    eexists _, _. split; [reflexivity|]. split; [reflexivity|].
    cbn [Pixels with_pixels Width Height Pitch BytesPerPixel]. fold o1 o2.
    fold (no_error (Width bm1)).
    set (kernel := ErrorDiffusionKernels !!! Z.to_nat (dithermode - 1)).
    assert (Z.to_nat (Height bm1) * Z.to_nat (Width bm1) = n)%nat as Hn
      by (subst n; nia).
    assert (forall i, (i < k)%nat ->
              (diffuse_image pal kernel (Width bm1) (Pixels bm1)
                 (Z.to_nat (Height bm1)) 0 0 (o1, no_error (Width bm1))).1
                !! i
              = (diffuse_image pal kernel (Width bm1) (Pixels bm2)
                   (Z.to_nat (Height bm1)) 0 0 (o2, no_error (Width bm1))).1
                  !! i) as Hpre.
    { apply diffuse_image_prefix; try assumption.
      - subst o1 o2. now rewrite !Hlen.
      - subst o1. rewrite Hlen. lia.
      - lia. }
    split; [exact Hpre|].
    intros Hkn. f_equal. apply Hall; try assumption.
    + rewrite diffuse_image_length; [subst o1; apply Hlen | lia |].
      subst o1. rewrite Hlen. lia.
    + rewrite diffuse_image_length; [subst o2; apply Hlen | lia |].
      subst o2. rewrite Hlen. lia.
Qed.

(** ** Error diffusion, pixel by pixel *)

Section Reached.
Variables (pal : list ColorRegister) (kernel : list Diffuser) (W : Z).
Variables (inp out : list Z).

Let w := Z.to_nat W.
Let state := reached pal kernel W inp out.

Lemma reached_start : state 0%nat 0%nat = (out, no_error W).
Proof. reflexivity. Qed.





End Reached.



(** * Worked inputs *)

(** ** Sample runs *)

(** The two-pixel image of the documentation, black and white palette,
    Floyd-Steinberg: both pixels map to black. *)
Example floyd_steinberg_two_pixels :
  Pixels <$> RGBtoPalette (λ _, 0)
               (mkChunky 2 1 8 4 [10; 10; 10; 255; 0; 0; 0; 255])
               [mkColor 0 0 0; mkColor 255 255 255] 1
  = Some [0; 0].
Proof. reflexivity. Qed.

(** A grey ramp does get dithered. *)
Example floyd_steinberg_ramp :
  Pixels <$> RGBtoPalette (λ _, 0)
               (mkChunky 3 2 12 4
                  [100; 100; 100; 255; 130; 130; 130; 255; 200; 200; 200; 255;
                   100; 100; 100; 255; 130; 130; 130; 255; 200; 200; 200; 255])
               [mkColor 0 0 0; mkColor 255 255 255] 1
  = Some [0; 1; 1; 0; 1; 0].
Proof. vm_compute. reflexivity. Qed.

(** Accumulated error that pushes a channel past 255 is cut off before
    the search: 200 + 100 is looked up as 255, white matches it exactly,
    and nothing is left to diffuse. *)
Example clamp_before_diffuse :
  let e := [[(6553600, 6553600, 6553600); (0, 0, 0)];
            [(0, 0, 0); (0, 0, 0)]; [(0, 0, 0); (0, 0, 0)]] in
  diffuse_pixel [mkColor 0 0 0; mkColor 255 255 255] FloydSteinberg 2
    [200; 200; 200; 255; 0; 0; 0; 255] 0 0 0 ([9; 9], e)
  = ([1; 9], e).
Proof. vm_compute. reflexivity. Qed.

(** A 2x1 image of 2-byte pixels doubled both ways. *)
Example expand_two_by_two :
  Pixels (Expand 2 2
            (mkChunky 4 2 8 2
               [1; 11; 2; 12; 90; 91; 92; 93; 94; 95; 96; 97; 98; 99; 100; 101]))
  = [1; 11; 1; 11; 2; 12; 2; 12; 1; 11; 1; 11; 2; 12; 2; 12].
Proof. vm_compute. reflexivity. Qed.

(** One plane filled with ones comes out as pixels of value 1, filled
    with zeros as pixels of value 0. *)
Example filled_plane_ones :
  (pb ← Planar.new 10 2 1;
   pb ← Planar.FillBitplane pb 0 true;
   Some (Planar.ToChunky pb (replicate 20 99) 0))
  = Some (replicate 20 1).
Proof. vm_compute. reflexivity. Qed.

Example filled_plane_zeros :
  (pb ← Planar.new 10 2 1;
   pb ← Planar.FillBitplane pb 0 false;
   Some (Planar.ToChunky pb (replicate 20 99) 0))
  = Some (replicate 20 0).
Proof. vm_compute. reflexivity. Qed.

(** Two planes, plane 0 all ones and plane 1 all zeros: plane 0 is the
    low bit. *)
Example two_planes_low_bit :
  (pb ← Planar.new 10 2 2;
   pb ← Planar.FillBitplane pb 0 true;
   Some (Planar.ToChunky pb (replicate 20 99) 0))
  = Some (replicate 20 1).
Proof. vm_compute. reflexivity. Qed.

(** HAM6: a base colour, then modify blue, then modify red. *)
Example ham6_three_pixels :
  Pixels <$> HAM6toRGB (λ _, 0) (mkChunky 3 1 3 1 [0x05; 0x1A; 0x2F])
               ((λ i, mkColor i (2 * i) (3 * i)) <$> seqZ 0 16)
  = Some [5; 10; 15; 255; 5; 10; 170; 255; 255; 10; 170; 255].
Proof. vm_compute. reflexivity. Qed.

(** ** Where the claims as stated fail *)

(** C4 as stated fails on a palette of 257 entries: the nearest colour of
    a white pixel is entry 256, and the byte stored for it is 0. *)
Lemma RGBtoPalette_undithered_wide_palette :
  let pal := replicate 256 (mkColor 0 0 0) ++ [mkColor 255 255 255] in
  let bm := mkChunky 1 1 4 4 [255; 255; 255; 255] in
  pixel_nearest pal (Pixels bm) 0 = 256
  /\ exists out,
       RGBtoPalette (λ _, 0) bm pal 0 = Some out
       /\ Pixels out = [0]
       /\ Pixels out !! 0%nat <> Some (pixel_nearest pal (Pixels bm) 0).
Proof.
  split; [vm_compute; reflexivity|].
  eexists. split; [vm_compute; reflexivity|].
  split; [reflexivity|]. vm_compute. discriminate.
Qed.

(** C5 as stated fails on the empty palette: the one byte written is 0,
    and no byte lies in [0, 0). *)
Lemma RGBtoPalette_empty_palette :
  let bm := mkChunky 1 1 4 4 [255; 255; 255; 255] in
  exists out,
    RGBtoPalette (λ _, 0) bm [] 0 = Some out
    /\ Pixels out = [0]
    /\ ~ Forall (λ v, 0 <= v < Z.of_nat (length (@nil ColorRegister)))
                (Pixels out).
Proof.
  eexists. split; [vm_compute; reflexivity|].
  split; [reflexivity|].
  cbn [Pixels]. intros Hall. apply Forall_cons_1 in Hall as [Hv _].
  simpl in Hv. lia.
Qed.

(** ** The theorems at concrete inputs *)

(** Closes a decidable side condition by evaluation. *)
Ltac by_decide := apply (bool_decide_unpack _); vm_compute; exact I.

Lemma NearestColor_nearest_witness :
  let pal := [mkColor 0 0 0; mkColor 255 255 255; mkColor 10 10 10] in
  let r := 10 in
  let g := 10 in
  let b := 10 in
  let first := 0 in
  let num := 3 in
  let D k := redmean_dist (pal_at pal k) r g b in
  let c := NearestColor pal r g b first num in
  first <= c < num
  /\ (forall k, first <= k < num -> D c <= D k)
  /\ (forall k, first <= k < c -> D c < D k)
  /\ (forall z pal' num',
        first <= z < num -> D z = 0 ->
        (forall k, first <= k < z -> D k <> 0) ->
        take (Z.to_nat z + 1) pal' = take (Z.to_nat z + 1) pal ->
        z < num' ->
        NearestColor pal' r g b first num' = z).
Proof.
  intros pal r g b first num.
  apply (NearestColor_nearest pal r g b first num).
  - unfold wf_palette, wf_color, is_byte. by_decide.
  - unfold is_byte, r. lia.
  - unfold is_byte, g. lia.
  - unfold is_byte, b. lia.
  - unfold first, num. lia.
  - unfold num. simpl. lia.
Defined.

Lemma RGBtoPalette_undithered_witness :
  let uninit := λ _ : nat, 0 in
  let bm := mkChunky 2 1 8 4 [10; 10; 10; 255; 0; 0; 0; 255] in
  let pal := [mkColor 0 0 0; mkColor 255 255 255] in
  let dithermode := 0 in
  exists out,
    RGBtoPalette uninit bm pal dithermode = Some out
    /\ Width out = Width bm /\ Height out = Height bm
    /\ BytesPerPixel out = 1
    /\ length (Pixels out) = Z.to_nat (Width bm * Height bm)
    /\ (forall i, (i < Z.to_nat (Width bm * Height bm))%nat ->
          Pixels out !! i = Some (u8 (pixel_nearest pal (Pixels bm) i)))
    /\ ((length pal <= 256)%nat ->
        forall i, (i < Z.to_nat (Width bm * Height bm))%nat ->
          Pixels out !! i = Some (pixel_nearest pal (Pixels bm) i)).
Proof.
  intros uninit bm pal dithermode.
  apply (RGBtoPalette_undithered uninit bm pal dithermode).
  - simpl. lia.
  - simpl. lia.
  - reflexivity.
  - unfold dithermode. lia.
Defined.

Lemma RGBtoPalette_index_range_witness :
  let uninit := λ _ : nat, 0 in
  let bm := mkChunky 2 1 8 4 [10; 10; 10; 255; 0; 0; 0; 255] in
  let pal := [mkColor 0 0 0; mkColor 255 255 255] in
  let dithermode := 1 in
  exists out,
    RGBtoPalette uninit bm pal dithermode = Some out
    /\ length (Pixels out) = Z.to_nat (Width bm * Height bm)
    /\ Forall (λ v, 0 <= v < Z.of_nat (length pal)) (Pixels out).
Proof.
  intros uninit bm pal dithermode.
  apply (RGBtoPalette_index_range uninit bm pal dithermode).
  - simpl. lia.
  - simpl. lia.
  - reflexivity.
  - discriminate.
Defined.

Lemma Expand_replicates_witness :
  let bm := mkChunky 4 2 8 2
              [1; 11; 2; 12; 90; 91; 92; 93; 94; 95; 96; 97; 98; 99; 100; 101] in
  let scalex := 2 in
  let scaley := 2 in
  let w := 2 in
  let h := 1 in
  Expand 1 1 bm = bm
  /\ (let bm' := Expand scalex scaley bm in
      Width bm' = Width bm /\ Height bm' = Height bm
      /\ Pitch bm' = Pitch bm /\ BytesPerPixel bm' = BytesPerPixel bm
      /\ length (Pixels bm') = length (Pixels bm)
      /\ forall x y i j,
           0 <= x < w -> 0 <= y < h -> 0 <= i < scalex -> 0 <= j < scaley ->
           pixel bm' (x * scalex + i) (y * scaley + j) = pixel bm x y).
Proof.
  intros bm scalex scaley w h.
  apply (Expand_replicates bm scalex scaley w h).
  - unfold scalex. lia.
  - unfold scaley. lia.
  - unfold w. lia.
  - unfold h. lia.
  - reflexivity.
  - reflexivity.
  - right. left. reflexivity.
  - reflexivity.
  - reflexivity.
Defined.

Lemma ToChunky_planes_witness :
  let pb := Planar.mkPlanar 10 1 2 2
              ([0xAA; 0xC0] ++ [0x0F; 0x40] ++ replicate 12 0)
              ((λ i, if decide (i < 2) then Some (2 * 1 * i) else None)
                 <$> seqZ 0 32) in
  let dest := replicate 12 99 in
  let destextrawidth := 1 in
  Planar.ToChunky pb dest destextrawidth
  = Planar.ToChunky_serial pb dest destextrawidth
  /\ length (Planar.ToChunky pb dest destextrawidth) = length dest
  /\ forall x y, 0 <= x < Planar.Width pb -> 0 <= y < Planar.Height pb ->
       exists v,
         Planar.ToChunky pb dest destextrawidth
           !! Z.to_nat (y * (Planar.Width pb + destextrawidth) + x) = Some v
         /\ forall i, 0 <= i ->
              Z.testbit v i
              = (i <? Planar.NumPlanes pb) && plane_sample pb i x y.
Proof.
  intros pb dest destextrawidth.
  apply (ToChunky_planes pb dest destextrawidth).
  - unfold wf_planar. cbv zeta. by_decide.
  - simpl. lia.
  - unfold destextrawidth. lia.
  - simpl. lia.
Defined.

Lemma HAMtoRGB_running_color_witness :
  let uninit := λ _ : nat, 0 in
  let bm := mkChunky 3 1 3 1 [0x05; 0x1A; 0x2F] in
  let pal := (λ i, mkColor i (2 * i) (3 * i)) <$> seqZ 0 16 in
  let src := Pixels bm in
  let n := Z.to_nat (Width bm * Height bm) in
  let color6 i := foldl (ham6_pixel pal) (pal_at pal 0) (take (S i) src) in
  let color8 i := foldl (ham8_pixel pal) (pal_at pal 0) (take (S i) src) in
  (forall c s, Z.land s 0xF0 = 0 -> ham6_pixel pal c s = pal_at pal s)
  /\ (forall c s, Z.land s 0xC0 = 0 -> ham8_pixel pal c s = pal_at pal s)
  /\ color6 0%nat = ham6_pixel pal (pal_at pal 0) (src !!! 0%nat)
  /\ color8 0%nat = ham8_pixel pal (pal_at pal 0) (src !!! 0%nat)
  /\ (forall i, (S i < n)%nat ->
        color6 (S i) = ham6_pixel pal (color6 i) (src !!! S i)
        /\ color8 (S i) = ham8_pixel pal (color8 i) (src !!! S i))
  /\ ((16 <= length pal)%nat ->
      exists out,
        HAM6toRGB uninit bm pal = Some out
        /\ Width out = Width bm /\ Height out = Height bm
        /\ BytesPerPixel out = 4
        /\ length (Pixels out) = (4 * n)%nat
        /\ (forall i, (i < n)%nat -> pixel4 (Pixels out) i = rgba (color6 i))
        /\ (Forall (λ s, Z.land s 0xF0 = 0) src ->
            forall i, (i < n)%nat ->
              pixel4 (Pixels out) i = rgba (pal_at pal (src !!! i))))
  /\ ((64 <= length pal)%nat ->
      exists out,
        HAM8toRGB uninit bm pal = Some out
        /\ Width out = Width bm /\ Height out = Height bm
        /\ BytesPerPixel out = 4
        /\ length (Pixels out) = (4 * n)%nat
        /\ (forall i, (i < n)%nat -> pixel4 (Pixels out) i = rgba (color8 i))
        /\ (Forall (λ s, Z.land s 0xC0 = 0) src ->
            forall i, (i < n)%nat ->
              pixel4 (Pixels out) i = rgba (pal_at pal (src !!! i)))).
Proof.
  intros uninit bm pal.
  apply (HAMtoRGB_running_color uninit bm pal).
  - simpl. lia.
  - simpl. lia.
  - reflexivity.
  - reflexivity.
  - unfold alloc_fits, is_int, INT_MAX. simpl. lia.
Defined.

Lemma HAM6_modify_one_channel_witness :
  let uninit := λ _ : nat, 0 in
  let bm := mkChunky 3 1 3 1 [0x05; 0x1A; 0x2F] in
  let pal := (λ i, mkColor i (2 * i) (3 * i)) <$> seqZ 0 16 in
  let src := Pixels bm in
  let n := Z.to_nat (Width bm * Height bm) in
  exists out,
    HAM6toRGB uninit bm pal = Some out
    /\ (forall i r g b, (i < n)%nat ->
          let s := src !!! i in
          let v := Z.land s 0x0F in
          let lvl := Z.lor (Z.shiftl v 4) v in
          match i with
          | O => rgba (pal_at pal 0)
          | S j => pixel4 (Pixels out) j
          end = [r; g; b; 0xFF] ->
          (Z.land s 0xF0 = 0x10 -> pixel4 (Pixels out) i = [r; g; lvl; 0xFF])
          /\ (Z.land s 0xF0 = 0x20 -> pixel4 (Pixels out) i = [lvl; g; b; 0xFF])
          /\ (Z.land s 0xF0 = 0x30 -> pixel4 (Pixels out) i = [r; lvl; b; 0xFF]))
    /\ (forall j, (S j < n)%nat ->
          let p := pal_at pal (src !!! j) in
          let v := Z.land (src !!! S j) 0x0F in
          Z.land (src !!! j) 0xF0 = 0x00 ->
          Z.land (src !!! S j) 0xF0 = 0x10 ->
          pixel4 (Pixels out) j = [red p; green p; blue p; 0xFF]
          /\ pixel4 (Pixels out) (S j)
             = [red p; green p; Z.lor (Z.shiftl v 4) v; 0xFF]).
Proof.
  intros uninit bm pal.
  apply (HAM6_modify_one_channel uninit bm pal).
  - simpl. lia.
  - simpl. lia.
  - reflexivity.
  - reflexivity.
  - unfold alloc_fits, is_int, INT_MAX. simpl. lia.
  - vm_compute. lia.
Defined.


Lemma ToChunky_wide_planes_witness :
  let pb := Planar.mkPlanar 3 1 2 9
              ([0xA0; 0] ++ replicate 14 0 ++ [0x40; 0])
              ((λ i, if decide (i < 9) then Some (2 * 1 * i) else None)
                 <$> seqZ 0 32) in
  let dest := replicate 4 99 in
  let destextrawidth := 1 in
  length (Planar.ToChunky pb dest destextrawidth) = length dest
  /\ forall x y, 0 <= x < Planar.Width pb -> 0 <= y < Planar.Height pb ->
       exists v,
         Planar.ToChunky pb dest destextrawidth
           !! Z.to_nat (y * (Planar.Width pb + destextrawidth) + x) = Some v
         /\ 0 <= v < 2 ^ Planar.NumPlanes pb
         /\ forall i, 0 <= i ->
              Z.testbit v i
              = (i <? Planar.NumPlanes pb) && plane_sample pb i x y.
Proof.
  intros pb dest destextrawidth.
  apply (ToChunky_wide_planes pb dest destextrawidth).
  - unfold wf_planar. cbv zeta. by_decide.
  - simpl. lia.
  - unfold destextrawidth. lia.
  - simpl. lia.
Defined.

Lemma ToChunky_frame_witness :
  let pb := Planar.mkPlanar 3 2 2 2
              ([0xA0; 0; 0x40; 0] ++ [0x60; 0; 0xE0; 0] ++ replicate 24 0)
              ((λ i, if decide (i < 2) then Some (2 * 2 * i) else None)
                 <$> seqZ 0 32) in
  let dest := replicate 12 99 in
  let destextrawidth := 2 in
  let k := 4%nat in
  Planar.ToChunky pb dest destextrawidth !! k = dest !! k.
Proof.
  intros pb dest destextrawidth k.
  apply (ToChunky_frame pb dest destextrawidth).
  - unfold wf_planar. cbv zeta. by_decide.
  - unfold destextrawidth. lia.
  - simpl. lia.
  - intros (x & y & Hx & Hy & Hk). simpl in Hx, Hy, Hk.
    unfold destextrawidth, k in Hk. lia.
Defined.

Lemma FillBitplane_sets_plane_witness :
  let pb := Planar.mkPlanar 3 2 2 2
              ([0xA0; 0; 0x40; 0] ++ [0x60; 0; 0xE0; 0] ++ replicate 24 0)
              ((λ i, if decide (i < 2) then Some (2 * 2 * i) else None)
                 <$> seqZ 0 32) in
  let plane := 1 in
  let set := true in
  (Planar.FillBitplane pb plane set = None
   <-> ~ (0 <= plane < Planar.NumPlanes pb))
  /\ forall pb', Planar.FillBitplane pb plane set = Some pb' ->
       wf_planar pb'
       /\ Planar.Width pb' = Planar.Width pb
       /\ Planar.Height pb' = Planar.Height pb
       /\ Planar.NumPlanes pb' = Planar.NumPlanes pb
       /\ Planar.Planes pb' = Planar.Planes pb
       /\ forall i x y, 0 <= i -> 0 <= x < Planar.Width pb ->
            0 <= y < Planar.Height pb ->
            plane_sample pb' i x y
            = if decide (i = plane) then set else plane_sample pb i x y.
Proof.
  intros pb plane set.
  apply (FillBitplane_sets_plane pb plane set).
  unfold wf_planar. cbv zeta. by_decide.
Defined.

Lemma FillBitplane_ToChunky_witness :
  let pb := Planar.mkPlanar 3 2 2 2
              ([0xA0; 0; 0x40; 0] ++ [0x60; 0; 0xE0; 0] ++ replicate 24 0)
              ((λ i, if decide (i < 2) then Some (2 * 2 * i) else None)
                 <$> seqZ 0 32) in
  let pb' := Planar.mkPlanar 3 2 2 2
              ([0xA0; 0; 0x40; 0] ++ [0xFF; 0xFF; 0xFF; 0xFF]
               ++ replicate 24 0)
              ((λ i, if decide (i < 2) then Some (2 * 2 * i) else None)
                 <$> seqZ 0 32) in
  let dest := replicate 12 99 in
  let destextrawidth := 2 in
  let x := 1 in
  let y := 1 in
  exists v,
    Planar.ToChunky pb dest destextrawidth
      !! Z.to_nat (y * (Planar.Width pb + destextrawidth) + x) = Some v
    /\ Planar.ToChunky pb' dest destextrawidth
         !! Z.to_nat (y * (Planar.Width pb + destextrawidth) + x)
       = Some (if true then Z.setbit v 1 else Z.clearbit v 1).
Proof.
  intros pb pb' dest destextrawidth x y.
  apply (FillBitplane_ToChunky pb pb' 1 true dest destextrawidth).
  - unfold wf_planar. cbv zeta. by_decide.
  - reflexivity.
  - unfold destextrawidth. lia.
  - simpl. lia.
  - simpl. unfold x. lia.
  - simpl. unfold y. lia.
Defined.

Lemma new_layout_witness :
  let w := 20 in
  let h := 3 in
  let nPlanes := 5 in
  (~ (0 <= nPlanes < 32) -> Planar.new w h nPlanes = None)
  /\ (0 <= nPlanes < 32 ->
      (w + 15) `quot` 16 * 2 * h * Z.max nPlanes 8 <= INT_MAX ->
      exists pb,
        Planar.new w h nPlanes = Some pb
        /\ wf_planar pb /\ planes_layout pb
        /\ Planar.Width pb = w /\ Planar.Height pb = h
        /\ Planar.NumPlanes pb = nPlanes
        /\ Planar.Pitch pb `mod` 2 = 0 /\ w <= 8 * Planar.Pitch pb < w + 16
        /\ forall i x y, 0 <= i < nPlanes -> 0 <= x < w -> 0 <= y < h ->
             plane_sample pb i x y = false).
Proof.
  intros w h nPlanes.
  apply (new_layout w h nPlanes); unfold w, h, INT_MAX; lia.
Defined.

Lemma new_ToChunky_zero_witness :
  let w := 5 in
  let h := 2 in
  let nPlanes := 12 in
  let pb := Planar.mkPlanar 5 2 2 12 (replicate 48 0)
              ((λ i, if decide (i < 12) then Some (2 * 2 * i) else None)
                 <$> seqZ 0 32) in
  let dest := replicate 10 99 in
  let destextrawidth := 0 in
  let x := 4 in
  let y := 1 in
  Planar.ToChunky pb dest destextrawidth
    !! Z.to_nat (y * (w + destextrawidth) + x)
  = Some 0.
Proof.
  intros w h nPlanes pb dest destextrawidth x y.
  apply (new_ToChunky_zero w h nPlanes pb dest destextrawidth).
  - unfold w. lia.
  - unfold h. lia.
  - unfold nPlanes. lia.
  - reflexivity.
  - unfold destextrawidth. lia.
  - simpl. lia.
  - unfold x, w. lia.
  - unfold y, h. lia.
Defined.

Lemma PlanarBitmap_copy_same_witness :
  let uninit := λ n : nat, Z.of_nat n in
  let o := Planar.mkPlanar 3 2 2 2
             ([0xA0; 0; 0x40; 0] ++ [0x60; 0; 0xE0; 0] ++ replicate 24 0)
             ((λ i, if decide (i < 2) then Some (2 * 2 * i) else None)
                <$> seqZ 0 32) in
  PlanarBitmap_copy uninit o = o.
Proof.
  intros uninit o.
  apply (PlanarBitmap_copy_same uninit o).
  - unfold wf_planar. cbv zeta. by_decide.
  - reflexivity.
Defined.

Lemma SetSolidColor_fills_witness :
  let bm := mkChunky 2 2 4 2 [1; 2; 3; 4; 5; 6; 7; 8] in
  let color := 0x12345 in
  let bm' := SetSolidColor le_bytes color bm in
  let c := pixel_bytes le_bytes (BytesPerPixel bm)
             (color `mod` 2 ^ (8 * BytesPerPixel bm)) in
  wf_chunky bm'
  /\ Width bm' = Width bm /\ Height bm' = Height bm
  /\ Pitch bm' = Pitch bm /\ BytesPerPixel bm' = BytesPerPixel bm
  /\ Pixels bm' = mjoin (replicate (Z.to_nat (Width bm * Height bm)) c)
  /\ forall x y, 0 <= x < Width bm -> 0 <= y < Height bm ->
       pixel bm' x y = c.
Proof.
  intros bm color.
  apply (SetSolidColor_fills le_bytes color bm).
  - unfold wf_chunky. by_decide.
  - exact le_bytes_length.
Defined.

Lemma ChunkyBitmap_fill_pixels_witness :
  let uninit := λ n : nat, Z.of_nat n in
  let o := mkChunky 3 2 3 1 [1; 2; 3; 4; 5; 6] in
  let fillcolor := 300 in
  ChunkyBitmap_fill uninit le_bytes o fillcolor
  = mkChunky (Width o) (Height o) (Pitch o) (BytesPerPixel o)
      (mjoin (replicate (Z.to_nat (Width o * Height o))
                (pixel_bytes le_bytes (BytesPerPixel o)
                   (fillcolor `mod` 2 ^ (8 * BytesPerPixel o))))).
Proof.
  intros uninit o fillcolor.
  apply (ChunkyBitmap_fill_pixels uninit le_bytes o fillcolor).
  - unfold wf_chunky. by_decide.
  - exact le_bytes_length.
Defined.

Lemma ChunkyBitmap_of_planar_pixels_witness :
  let uninit := λ n : nat, Z.of_nat n in
  let planar := Planar.mkPlanar 3 2 2 2
                  ([0xA0; 0; 0x40; 0] ++ [0x60; 0; 0xE0; 0]
                   ++ replicate 24 0)
                  ((λ i, if decide (i < 2) then Some (2 * 2 * i) else None)
                     <$> seqZ 0 32) in
  let scalex := 2 in
  let scaley := 3 in
  exists bm,
    ChunkyBitmap_of_planar uninit le_bytes planar scalex scaley = Some bm
    /\ wf_chunky bm
    /\ Width bm = Planar.Width planar * scalex
    /\ Height bm = Planar.Height planar * scaley
    /\ BytesPerPixel bm
       = (if decide (Planar.NumPlanes planar ≤ 8) then 1
          else if decide (Planar.NumPlanes planar ≤ 16) then 2 else 4)
    /\ forall x y i j,
         0 <= x < Planar.Width planar -> 0 <= y < Planar.Height planar ->
         0 <= i < scalex -> 0 <= j < scaley ->
         exists v,
           pixel bm (x * scalex + i) (y * scaley + j)
           = pixel_bytes le_bytes (BytesPerPixel bm) v
           /\ forall b, 0 <= b ->
                Z.testbit v b
                = (b <? Planar.NumPlanes planar) && plane_sample planar b x y.
Proof.
  intros uninit planar scalex scaley.
  apply (ChunkyBitmap_of_planar_pixels uninit le_bytes planar scalex scaley).
  - unfold wf_planar. cbv zeta. by_decide.
  - exact le_bytes_length.
  - simpl. lia.
  - simpl. lia.
  - simpl. lia.
  - unfold scalex. lia.
  - unfold scaley. lia.
  - unfold alloc_fits, is_int. by_decide.
Defined.

Lemma ChunkyBitmap_of_planar_no_planes_witness :
  let uninit := λ n : nat, 100 + Z.of_nat n in
  let planar := Planar.mkPlanar 3 2 2 0 (replicate 32 0)
                  ((λ _ : Z, None) <$> seqZ 0 32) in
  let scalex := 2 in
  let scaley := 1 in
  exists bm,
    ChunkyBitmap_of_planar uninit le_bytes planar scalex scaley = Some bm
    /\ Width bm = Planar.Width planar * scalex
    /\ Height bm = Planar.Height planar * scaley
    /\ BytesPerPixel bm = 1
    /\ forall x y i j,
         0 <= x < Planar.Width planar -> 0 <= y < Planar.Height planar ->
         0 <= i < scalex -> 0 <= j < scaley ->
         pixel bm (x * scalex + i) (y * scaley + j)
         = [uninit (Z.to_nat (y * Width bm + x))].
Proof.
  intros uninit planar scalex scaley.
  apply (ChunkyBitmap_of_planar_no_planes uninit le_bytes planar scalex scaley).
  - simpl. lia.
  - simpl. lia.
  - simpl. lia.
  - unfold scalex. lia.
  - unfold scaley. lia.
  - unfold alloc_fits, is_int. by_decide.
Defined.

Lemma NearestColor_exact_witness :
  let pal := [mkColor 0 0 0; mkColor 200 10 10; mkColor 200 10 10;
              mkColor 0 0 255] in
  let r := 200 in
  let g := 10 in
  let b := 10 in
  let first := 0 in
  let num := 4 in
  let k := 2 in
  let c := NearestColor pal r g b first num in
  first_slot pal first (mkColor r g b) c /\ c <= k
  /\ forall pal' num',
       take (Z.to_nat c + 1) pal' = take (Z.to_nat c + 1) pal -> c < num' ->
       NearestColor pal' r g b first num' = c.
Proof.
  intros pal r g b first num k.
  apply (NearestColor_exact pal r g b first num k).
  - unfold wf_palette, wf_color, is_byte. by_decide.
  - unfold is_byte, r. lia.
  - unfold is_byte, g. lia.
  - unfold is_byte, b. lia.
  - unfold first, k. lia.
  - unfold k, num. lia.
  - simpl. unfold k. lia.
  - reflexivity.
Defined.

Lemma RGBtoPalette_exact_colors_witness :
  let uninit := λ n : nat, Z.of_nat n in
  let bm := mkChunky 2 1 8 4 [200; 10; 10; 255; 0; 0; 255; 255] in
  let pal := [mkColor 0 0 0; mkColor 200 10 10; mkColor 200 10 10;
              mkColor 0 0 255] in
  let dithermode := 1 in
  exists out,
    RGBtoPalette uninit bm pal dithermode = Some out
    /\ Width out = Width bm /\ Height out = Height bm
    /\ BytesPerPixel out = 1
    /\ length (Pixels out) = Z.to_nat (Width bm * Height bm)
    /\ forall i, (i < Z.to_nat (Width bm * Height bm))%nat ->
         exists z,
           Pixels out !! i = Some (u8 z)
           /\ 0 <= z < Z.of_nat (length pal)
           /\ first_slot pal 0 (pixel_color (Pixels bm) i) z.
Proof.
  intros uninit bm pal dithermode.
  apply (RGBtoPalette_exact_colors uninit bm pal dithermode).
  - simpl. lia.
  - simpl. lia.
  - reflexivity.
  - unfold wf_palette, wf_color, is_byte. by_decide.
  - intros [|[|i]] Hi.
    + exists 1. split; [simpl; lia | reflexivity].
    + exists 3. split; [simpl; lia | reflexivity].
    + simpl in Hi. lia.
Defined.

Lemma HAM_palette_round_trip_witness :
  let uninit := λ n : nat, Z.of_nat n in
  let bm := mkChunky 2 1 2 1 [3; 1] in
  let pal := (λ i, mkColor i (2 * i) (3 * i)) <$> seqZ 0 64 in
  let dithermode := 2 in
  ((16 <= length pal)%nat -> Forall (λ s, 0 <= s < 16) (Pixels bm) ->
   exists rgb,
     HAM6toRGB uninit bm pal = Some rgb
     /\ RGBtoPalette uninit rgb pal dithermode = Some bm)
  /\ ((64 <= length pal)%nat -> Forall (λ s, 0 <= s < 64) (Pixels bm) ->
      exists rgb,
        HAM8toRGB uninit bm pal = Some rgb
        /\ RGBtoPalette uninit rgb pal dithermode = Some bm).
Proof.
  intros uninit bm pal dithermode.
  apply (HAM_palette_round_trip uninit bm pal dithermode).
  - simpl. lia.
  - simpl. lia.
  - reflexivity.
  - reflexivity.
  - reflexivity.
  - unfold alloc_fits, is_int, INT_MAX. simpl. lia.
  - unfold wf_palette, wf_color, is_byte. by_decide.
  - repeat constructor; intros k Hk.
    + apply (below_all (λ k, pal_at pal k <> pal_at pal 3) 3);
        [by_decide | lia].
    + apply (below_all (λ k, pal_at pal k <> pal_at pal 1) 1);
        [by_decide | lia].
Defined.

Lemma HAM8_modify_one_channel_witness :
  let uninit := λ n : nat, Z.of_nat n in
  let bm := mkChunky 3 1 3 1 [0x05; 0x6A; 0xBF] in
  let pal := (λ i, mkColor i (2 * i) (3 * i)) <$> seqZ 0 64 in
  let src := Pixels bm in
  let n := Z.to_nat (Width bm * Height bm) in
  exists out,
    HAM8toRGB uninit bm pal = Some out
    /\ forall i r g b, (i < n)%nat ->
         let s := src !!! i in
         let v := Z.land s 0x3F in
         let lvl := Z.lor (Z.shiftl v 2) (Z.shiftr v 4) in
         match i with
         | O => rgba (pal_at pal 0)
         | S j => pixel4 (Pixels out) j
         end = [r; g; b; 0xFF] ->
         is_byte lvl /\ Z.shiftr lvl 2 = v /\ Z.land lvl 3 = Z.shiftr v 4
         /\ (Z.land s 0xC0 = 0x40 -> pixel4 (Pixels out) i = [r; g; lvl; 0xFF])
         /\ (Z.land s 0xC0 = 0x80 -> pixel4 (Pixels out) i = [lvl; g; b; 0xFF])
         /\ (Z.land s 0xC0 = 0xC0 -> pixel4 (Pixels out) i = [r; lvl; b; 0xFF]).
Proof.
  intros uninit bm pal.
  apply (HAM8_modify_one_channel uninit bm pal).
  - simpl. lia.
  - simpl. lia.
  - reflexivity.
  - reflexivity.
  - unfold alloc_fits, is_int, INT_MAX. simpl. lia.
  - simpl. lia.
Defined.

Lemma HAM6_high_codes_hold_witness :
  let uninit := λ n : nat, Z.of_nat n in
  let bm := mkChunky 3 1 3 1 [0x05; 0x4A; 0xFF] in
  let pal := (λ i, mkColor i (2 * i) (3 * i)) <$> seqZ 0 16 in
  let src := Pixels bm in
  let n := Z.to_nat (Width bm * Height bm) in
  exists out,
    HAM6toRGB uninit bm pal = Some out
    /\ forall i, (i < n)%nat -> 0x40 <= src !!! i < 0x100 ->
         pixel4 (Pixels out) i
         = match i with
           | O => rgba (pal_at pal 0)
           | S j => pixel4 (Pixels out) j
           end.
Proof.
  intros uninit bm pal.
  apply (HAM6_high_codes_hold uninit bm pal).
  - simpl. lia.
  - simpl. lia.
  - reflexivity.
  - reflexivity.
  - unfold alloc_fits, is_int, INT_MAX. simpl. lia.
  - simpl. lia.
Defined.

Lemma move_assign_owned_witness :
  let m := two_bitmaps in
  let this := 0%nat in
  let o := 1%nat in
  let t := mkObject 2 1 2 1 (Some 0%nat) in
  exists m',
    move_assign this o m = Some m'
    /\ well_owned m'
    /\ (o = this -> m' = m)
    /\ (o <> this ->
        bitmap_at this m' = bitmap_at o m
        /\ object_at o m' = Some (mkObject 0 0 0 0 None)
        /\ (forall p, oPixels t = Some p -> block_at p m' = None)
        /\ (forall a, a <> this -> a <> o -> bitmap_at a m' = bitmap_at a m)).
Proof.
  intros m this o t.
  apply (move_assign_owned this o m t (mkObject 1 1 1 1 (Some 1%nat))).
  - exact two_bitmaps_owned.
  - reflexivity.
  - reflexivity.
Defined.

Lemma move_construct_owned_witness :
  let m := two_bitmaps in
  let o := 1%nat in
  exists this m',
    move_construct o m = Some (this, m')
    /\ well_owned m'
    /\ object_at this m = None
    /\ bitmap_at this m' = bitmap_at o m
    /\ object_at o m' = Some (mkObject 0 0 0 0 None)
    /\ blocks m' = blocks m
    /\ (forall a, a <> this -> a <> o -> object_at a m' = object_at a m).
Proof.
  intros m o.
  apply (move_construct_owned o m (mkObject 1 1 1 1 (Some 1%nat))).
  - exact two_bitmaps_owned.
  - reflexivity.
Defined.

Lemma destroy_owned_witness :
  let m := two_bitmaps in
  let this := 0%nat in
  let t := mkObject 2 1 2 1 (Some 0%nat) in
  exists m',
    destroy this m = Some m'
    /\ well_owned m'
    /\ object_at this m' = None
    /\ destroy this m' = None
    /\ (forall q, block_at q m'
          = if decide (oPixels t = Some q) then None else block_at q m)
    /\ (forall a, a <> this -> bitmap_at a m' = bitmap_at a m).
Proof.
  intros m this t.
  apply (destroy_owned this m t).
  - exact two_bitmaps_owned.
  - reflexivity.
Defined.

Lemma Clear_owned_witness :
  let m := two_bitmaps in
  let this := 0%nat in
  let release := false in
  let t := mkObject 2 1 2 1 (Some 0%nat) in
  exists m',
    Clear this release m = Some m'
    /\ object_at this m' = Some (mkObject 0 0 0 0 None)
    /\ (forall a, a <> this -> object_at a m' = object_at a m)
    /\ (release = true ->
        well_owned m'
        /\ forall q, block_at q m'
             = if decide (oPixels t = Some q) then None else block_at q m)
    /\ (release = false ->
        blocks m' = blocks m
        /\ forall p, oPixels t = Some p ->
             is_Some (block_at p m') /\ forall a, ~ owner m' p a).
Proof.
  intros m this release t.
  apply (Clear_owned this release m t).
  - exact two_bitmaps_owned.
  - reflexivity.
Defined.

Lemma construct_owned_witness :
  let uninit := λ n : nat, Z.of_nat n in
  let m := two_bitmaps in
  let bm := mkChunky 2 2 4 2 [0; 1; 2; 3; 4; 5; 6; 7] in
  well_owned (mkMemory [] [])
  /\ exists this m',
       construct uninit 2 2 2 m = Some (this, m')
       /\ well_owned m'
       /\ object_at this m = None
       /\ bitmap_at this m' = Some bm
       /\ (forall a, a <> this -> bitmap_at a m' = bitmap_at a m)
       /\ (forall q b, block_at q m = Some b -> block_at q m' = Some b).
Proof.
  intros uninit m bm.
  apply (construct_owned uninit 2 2 2 m bm).
  - exact two_bitmaps_owned.
  - unfold alloc_fits, is_int. by_decide.
  - reflexivity.
Defined.

Lemma ErrorDiffusion_no_overflow_witness :
  let pal := [mkColor 0 0 0; mkColor 255 255 255] in
  let kernel := FloydSteinberg in
  let W := 2 in
  let inp := [10; 20; 30; 255; 200; 210; 220; 255;
              90; 100; 110; 255; 120; 130; 140; 255] in
  let out := [0; 0; 0; 0] in
  let rows := 1%nat in
  let n := 1%nat in
  let src := (4 * (rows * Z.to_nat W))%nat in
  let dest := (rows * Z.to_nat W)%nat in
  let st := diffuse_row pal kernel W inp n src dest 0
              (diffuse_image pal kernel W inp rows 0 0 (out, no_error W)) in
  let x := Z.of_nat n in
  let a := err_at st.2 0 n in
  let r := clamp (inp !!! (src + 4 * n)%nat + a.1.1 `quot` 65536) 0 255 in
  let g := clamp (inp !!! (src + 4 * n + 1)%nat + a.1.2 `quot` 65536) 0 255 in
  let b := clamp (inp !!! (src + 4 * n + 2)%nat + a.2 `quot` 65536) 0 255 in
  let p := pal_at pal (NearestColor pal r g b 0 (Z.of_nat (length pal))) in
  let st' := diffuse_pixel pal kernel W inp (src + 4 * n) dest x st in
  (forall ρ x' : nat, (ρ < 3)%nat -> (x' < Z.to_nat W)%nat ->
     cell_within (255 * 65536) (err_at st.2 ρ x')
     /\ cell_within (255 * 65536) (err_at st'.2 ρ x'))
  /\ (-255 <= r - red p <= 255 /\ -255 <= g - green p <= 255
      /\ -255 <= b - blue p <= 255)
  /\ forall ρ x' : nat, (ρ < 3)%nat -> (x' < Z.to_nat W)%nat ->
       let w := weight_to kernel (Z.of_nat x' - x) (Z.of_nat ρ) in
       let c := err_at st.2 ρ x' in
       0 <= w <= 65536
       /\ err_at st'.2 ρ x'
          = (c.1.1 + (r - red p) * w, c.1.2 + (g - green p) * w,
             c.2 + (b - blue p) * w).
Proof.
  intros pal kernel W inp out rows n.
  apply (ErrorDiffusion_no_overflow pal kernel W inp out rows n).
  - unfold kernel, ErrorDiffusionKernels. apply elem_of_cons. now left.
  - unfold wf_palette, wf_color, is_byte. by_decide.
  - discriminate.
  - unfold is_byte. by_decide.
  - unfold W. lia.
  - unfold W. simpl. lia.
Defined.

Lemma RGBtoPalette_raster_order_witness :
  let uninit1 := λ n : nat, Z.of_nat n in
  let uninit2 := λ n : nat, 7 in
  let bm1 := mkChunky 2 2 8 4 [10; 20; 30; 255; 200; 210; 220; 255;
                               90; 100; 110; 255; 120; 130; 140; 255] in
  let bm2 := mkChunky 2 2 8 4 [10; 20; 30; 255; 200; 210; 220; 255;
                               90; 100; 110; 255; 0; 0; 0; 255] in
  let pal := [mkColor 0 0 0; mkColor 255 255 255] in
  let dithermode := 1 in
  let k := 3%nat in
  exists out1 out2,
    RGBtoPalette uninit1 bm1 pal dithermode = Some out1
    /\ RGBtoPalette uninit2 bm2 pal dithermode = Some out2
    /\ (forall i, (i < k)%nat -> Pixels out1 !! i = Pixels out2 !! i)
    /\ (k = Z.to_nat (Width bm1 * Height bm1) -> out1 = out2).
Proof.
  intros uninit1 uninit2 bm1 bm2 pal dithermode k.
  apply (RGBtoPalette_raster_order uninit1 uninit2 bm1 bm2 pal dithermode k).
  - discriminate.
  - simpl. lia.
  - simpl. lia.
  - reflexivity.
  - reflexivity.
  - reflexivity.
  - reflexivity.
  - reflexivity.
  - reflexivity.
  - simpl. unfold k. lia.
  - intros j Hj. unfold k in Hj.
    do 12 (destruct j as [|j]; [reflexivity|]). lia.
Defined.

(** A light pixel before a dark one, Floyd-Steinberg: the first is
    mapped to white and leaves a residual of -55 in each channel.  7/16 of
    it waits for the pixel to the right, 5/16 and 1/16 for the two below;
    the 3/16 for the column left of the picture are dropped.  The second
    pixel with its share, 10 - 24, is cut off at 0 before the search. *)
Example error_diffusion_carries_error :
  let pal := [mkColor 0 0 0; mkColor 255 255 255] in
  let inp := [200; 200; 200; 255; 10; 10; 10; 255;
              128; 128; 128; 255; 100; 100; 100; 255] in
  let state := reached pal FloydSteinberg 2 inp [77; 77; 77; 77] in
  let a := err_at (state 0%nat 1%nat).2 0 1 in
  state 0%nat 1%nat
  = ([1; 77; 77; 77],
     [[(0, 0, 0); (-1576960, -1576960, -1576960)];
      [(-1126400, -1126400, -1126400); (-225280, -225280, -225280)];
      [(0, 0, 0); (0, 0, 0)]])
  /\ inp !!! 4%nat + a.1.1 `quot` 65536 = -14
  /\ (state 2%nat 0%nat).1 = [1; 0; 0; 1].
Proof. vm_compute. repeat split. Qed.


